(** * Hotspot: kernel weights and the Getis-Ord local statistic

    A shallow embedding of [hotspot/__init__.py].

    Numbers.  The arrays of the program hold float64 numbers.  Two number
    types stand for them here.

    - [F64.f64]: an exact real number or one of the three IEEE special
      values that the arithmetic of the program can produce (division by
      zero, square root of a negative number, [inf - inf], ...).  Its
      operations do not round, overflow or underflow, and zero is the
      positive zero, so [x / 0] has the sign of [x].  It carries the
      statements about formulas, shapes, labels, exceptions and special
      values, none of which depends on rounding.

    - [PrimFloat.float]: the binary64 numbers of the machine with the
      correctly rounded operations of IEEE 754.  It carries the examples
      in which rounding, underflow or the float64 division of the
      neighborhood factor decide the result.

    The module [Arith] holds the program over any number type; with the
    exact numbers its functions are the ones defined first.

    Arrays.  A 1-D array is a list, a 2-D array a record that carries its
    column count next to its rows (numpy keeps the shape of an array with
    no rows).  A pandas DataFrame adds row and column labels.

    Exceptions.  Every function that can raise returns a [result]. *)

From Stdlib Require Import String.
From Stdlib Require Import Reals Lra Lia List ZArith QArith Qround.
From Stdlib Require Import Permutation Bool Arith Sorted.
From Stdlib Require PrimFloat SpecFloat FloatOps Uint63.
Import ListNotations.

Local Open Scope R_scope.

(** ** Exceptions *)

Inductive error : Type :=
| AssertionError
| KeyError
| IndexError
| ValueError
| ZeroDivisionError
| OverflowError.

Inductive result (A : Type) : Type :=
| Ok (a : A)
| Raise (e : error).

Arguments Ok {A} a.
Arguments Raise {A} e.

Definition bind {A B : Type} (m : result A) (k : A -> result B) : result B :=
  match m with
  | Ok a => k a
  | Raise e => Raise e
  end.

Notation "x <- m ;; k" := (bind m (fun x => k))
  (at level 61, m at next level, right associativity).

(** ** float64 values *)

Module F64.

Inductive f64 : Type :=
| Fin (r : R)
| PInf
| NInf
| NaN.

Definition zero : f64 := Fin 0.
Definition one : f64 := Fin 1.

(** Three-way case on the sign of a real. *)
Definition by_sign {A : Type} (r : R) (neg zer pos : A) : A :=
  if Rlt_dec r 0 then neg else if Rlt_dec 0 r then pos else zer.

Definition neg (a : f64) : f64 :=
  match a with
  | Fin r => Fin (- r)
  | PInf => NInf
  | NInf => PInf
  | NaN => NaN
  end.

Definition add (a b : f64) : f64 :=
  match a, b with
  | NaN, _ | _, NaN => NaN
  | Fin x, Fin y => Fin (x + y)
  | PInf, NInf | NInf, PInf => NaN
  | PInf, _ | _, PInf => PInf
  | NInf, _ | _, NInf => NInf
  end.

Definition sub (a b : f64) : f64 := add a (neg b).

Definition mul (a b : f64) : f64 :=
  match a, b with
  | NaN, _ | _, NaN => NaN
  | Fin x, Fin y => Fin (x * y)
  | Fin x, PInf | PInf, Fin x => by_sign x NInf NaN PInf
  | Fin x, NInf | NInf, Fin x => by_sign x PInf NaN NInf
  | PInf, PInf | NInf, NInf => PInf
  | PInf, NInf | NInf, PInf => NInf
  end.

Definition div (a b : f64) : f64 :=
  match a, b with
  | NaN, _ | _, NaN => NaN
  | Fin x, Fin y =>
      if Req_dec_T y 0 then by_sign x NInf NaN PInf else Fin (x / y)
  | Fin _, _ => Fin 0
  | PInf, Fin y => if Rlt_dec y 0 then NInf else PInf
  | NInf, Fin y => if Rlt_dec y 0 then PInf else NInf
  | _, _ => NaN
  end.

(** [a ** 2] *)
Definition sq (a : f64) : f64 := mul a a.

(** [a ** (1 / 2)]: numpy evaluates a power with the scalar exponent 0.5
    as a square root. *)
Definition sqrt (a : f64) : f64 :=
  match a with
  | Fin r => if Rlt_dec r 0 then NaN else Fin (R_sqrt.sqrt r)
  | PInf => PInf
  | _ => NaN
  end.

Definition exp (a : f64) : f64 :=
  match a with
  | Fin r => Fin (Rtrigo_def.exp r)
  | PInf => PInf
  | NInf => Fin 0
  | NaN => NaN
  end.

Definition abs (a : f64) : f64 :=
  match a with
  | Fin r => Fin (Rabs r)
  | PInf | NInf => PInf
  | NaN => NaN
  end.

(** [a == 0] *)
Definition is_zero (a : f64) : bool :=
  match a with
  | Fin r => if Req_dec_T r 0 then true else false
  | _ => false
  end.

(** A Python int used in float arithmetic. *)
Definition of_Z (z : Z) : f64 := Fin (IZR z).
Definition of_nat (n : nat) : f64 := of_Z (Z.of_nat n).

(** [a.sum()] over one axis of a float array; the empty sum is 0. *)
Definition sum (l : list f64) : f64 := fold_right add zero l.

Definition finite (a : f64) : Prop :=
  match a with Fin _ => True | _ => False end.

End F64.

Import F64.

(** ** Arrays *)

(** Element-wise map of a binary operation over two lists of the same
    length. *)
Fixpoint map2 {A B C : Type} (f : A -> B -> C) (l1 : list A) (l2 : list B)
  : list C :=
  match l1, l2 with
  | a :: l1', b :: l2' => f a b :: map2 f l1' l2'
  | _, _ => []
  end.

Record matrix (A : Type) : Type := Matrix {
  ncols : nat;
  rows : list (list A)
}.

Arguments Matrix {A} ncols rows.
Arguments ncols {A} m.
Arguments rows {A} m.

Definition nrows {A : Type} (m : matrix A) : nat := length (rows m).

(** [m.shape] *)
Definition shape {A : Type} (m : matrix A) : nat * nat := (nrows m, ncols m).

(** Every row of the array has [ncols] entries. *)
Definition wf_matrix {A : Type} (m : matrix A) : Prop :=
  Forall (fun r => length r = ncols m) (rows m).

Definition mmap {A B : Type} (f : A -> B) (m : matrix A) : matrix B :=
  Matrix (ncols m) (map (map f) (rows m)).

(** Entry [m[i, r]]; the default is only reached outside the shape. *)
Definition entry {A : Type} (d : A) (m : matrix A) (i r : nat) : A :=
  nth r (nth i (rows m) []) d.

(** *** Broadcasting *)

(** The length of the broadcast of two axes, when they are compatible. *)
Definition broadcast_len (a b : nat) : option nat :=
  if Nat.eqb a b then Some a
  else if Nat.eqb a 1 then Some b
  else if Nat.eqb b 1 then Some a
  else None.

(** An element-wise operation along one axis with broadcasting; the
    caller has checked [broadcast_len]. *)
Definition bzip {A B C : Type} (f : A -> B -> C) (l1 : list A) (l2 : list B)
  : list C :=
  if Nat.eqb (length l1) (length l2) then map2 f l1 l2
  else match l1, l2 with
       | [a], _ => map (f a) l2
       | _, [b] => map (fun a => f a b) l1
       | _, _ => []
       end.

(** [v1 op v2] for 1-D arrays. *)
Definition vec_op (f : f64 -> f64 -> f64) (v1 v2 : list f64)
  : result (list f64) :=
  match broadcast_len (length v1) (length v2) with
  | Some _ => Ok (bzip f v1 v2)
  | None => Raise ValueError
  end.

(** [m1 op m2] for 2-D arrays. *)
Definition mat_op (f : f64 -> f64 -> f64) (m1 m2 : matrix f64)
  : result (matrix f64) :=
  match broadcast_len (nrows m1) (nrows m2),
        broadcast_len (ncols m1) (ncols m2) with
  | Some _, Some c => Ok (Matrix c (bzip (bzip f) (rows m1) (rows m2)))
  | _, _ => Raise ValueError
  end.

(** [m.sum(axis=1)] *)
Definition sum_axis1 (m : matrix f64) : list f64 := map F64.sum (rows m).

(** *** Indexing *)

(** A Python index into an axis of length [n]: negative indices count
    from the end. *)
Definition py_index (n : nat) (i : Z) : result nat :=
  if (0 <=? i)%Z && (i <? Z.of_nat n)%Z then Ok (Z.to_nat i)
  else if (- Z.of_nat n <=? i)%Z && (i <? 0)%Z then Ok (Z.to_nat (Z.of_nat n + i))
  else Raise IndexError.

Fixpoint mapM {A B : Type} (f : A -> result B) (l : list A) : result (list B) :=
  match l with
  | [] => Ok []
  | a :: l' => b <- f a ;; bs <- mapM f l' ;; Ok (b :: bs)
  end.

(** [x[idx]] for an integer array [idx] of any shape (here one row). *)
Definition take (x : list f64) (idx : list Z) : result (list f64) :=
  mapM (fun i => k <- py_index (length x) i ;; Ok (nth k x NaN)) idx.

(** [x[neighbors]] for a 2-D integer array. *)
Definition take2 (x : list f64) (idx : matrix Z) : result (matrix f64) :=
  rs <- mapM (take x) (rows idx) ;; Ok (Matrix (ncols idx) rs).

(** *** Mean and standard deviation *)

(** [x.mean()] *)
Definition mean (x : list f64) : f64 :=
  div (F64.sum x) (of_nat (length x)).

(** [x.std(ddof=1)]: the squared deviations from the mean are summed and
    divided by [max(N - 1, 0)]. *)
Definition std_ddof1 (x : list f64) : f64 :=
  let arrmean := mean x in
  let dev := map (fun v => sq (sub v arrmean)) x in
  let rcount := Z.max (Z.of_nat (length x) - 1) 0 in
  F64.sqrt (div (F64.sum dev) (of_Z rcount)).

(** ** The single-variable Getis-Ord statistic *)

(** The per-sample factor [((n * S_1i - W_i**2) / (n - 1))**(1 / 2)] of
    the denominator, written the same way in both forms. *)
Definition radical (n : nat) (S_1i W_i : list f64) : list f64 :=
  map2 (fun S W =>
          F64.sqrt (div (sub (mul (of_nat n) S) (sq W))
                        (of_Z (Z.of_nat n - 1))))
       S_1i W_i.

Definition compute_gi_single (x : list f64) (neighbors : matrix Z)
    (weights : matrix f64) : result (list f64) :=
  let W_i := sum_axis1 weights in
  let S_1i := sum_axis1 (mmap sq weights) in
  let xbar := mean x in
  let s := std_ddof1 x in
  let n := nrows weights in
  let denom := map (mul s) (radical n S_1i W_i) in
  let offset := map (mul xbar) W_i in
  neighbor_xs <- take2 x neighbors ;;
  prod <- mat_op mul neighbor_xs weights ;;
  let num := sum_axis1 prod in
  diff <- vec_op sub num offset ;;
  vec_op div diff denom.

(** ** Kernel weights *)

(** [m op col] where [col] has shape (n, 1): the scalar of each row is
    broadcast along that row. *)
Definition col_op (f : f64 -> f64 -> f64) (m : list (list f64))
    (col : list f64) : list (list f64) :=
  map2 (fun row c => map (fun v => f v c) row) m col.

(** [ceil(n_neighbors / neighborhood_factor)] for a factor given as a
    rational number, the quotient taken exactly; [Arith.radius_index]
    takes a float64 factor and rounds the quotient as Python does. *)
Definition radius_index (n_neighbors : nat) (neighborhood_factor : Q) : Z :=
  Qceiling (inject_Z (Z.of_nat n_neighbors) / neighborhood_factor)%Q.

(** The Gaussian kernel, [exp(-1 * d**2 / sigma**2)]. *)
Definition kernel (d sigma : f64) : f64 :=
  F64.exp (div (mul (Fin (-1)) (sq d)) (sq sigma)).

(** [wnorm[wnorm == 0] = 1.0], also used for [denom]. *)
Definition zero_to_one (v : f64) : f64 := if is_zero v then one else v.

(** Lines 102-104: each row is divided by its sum, a sum of 0 replaced
    by 1. *)
Definition normalize (weights : list (list f64)) : list (list f64) :=
  let wnorm := map F64.sum weights in
  let wnorm := map zero_to_one wnorm in
  col_op div weights wnorm.

Definition compute_weights (distances : matrix f64) (neighborhood_factor : Q)
  : result (matrix f64) :=
  if Qeq_bool neighborhood_factor 0 then Raise ZeroDivisionError else
  let radius_ii := radius_index (ncols distances) neighborhood_factor in
  c <- py_index (ncols distances) (radius_ii - 1) ;;
  let sigma := map (fun row => nth c row NaN) (rows distances) in
  let weights := col_op kernel (rows distances) sigma in
  Ok (Matrix (ncols distances) (normalize weights)).

(** ** Labelled tables *)

Inductive label : Type :=
| LStr (s : string)
| LInt (z : Z).

Definition label_eqb (a b : label) : bool :=
  match a, b with
  | LStr s, LStr t => String.eqb s t
  | LInt y, LInt z => Z.eqb y z
  | _, _ => false
  end.

Record DataFrame (A : Type) : Type := Frame {
  index : list label;
  columns : list label;
  values : list (list A)
}.

Arguments Frame {A} index columns values.
Arguments index {A} d.
Arguments columns {A} d.
Arguments values {A} d.

(** [df.shape] *)
Definition df_shape {A : Type} (df : DataFrame A) : nat * nat :=
  (length (index df), length (columns df)).

Definition wf_frame {A : Type} (df : DataFrame A) : Prop :=
  length (values df) = length (index df) /\
  Forall (fun r => length r = length (columns df)) (values df).

(** [df.values] *)
Definition df_values {A : Type} (df : DataFrame A) : matrix A :=
  Matrix (length (columns df)) (values df).

(** The rows of [df] that carry the label [l], in table order. *)
Definition rows_of {A : Type} (df : DataFrame A) (l : label)
  : list (label * list A) :=
  filter (fun p => label_eqb (fst p) l) (combine (index df) (values df)).

(** [df.loc[labels]]: for each requested label the rows that carry it; a
    label the index does not have raises. *)
Definition loc {A : Type} (df : DataFrame A) (labels : list label)
  : result (DataFrame A) :=
  hits <- mapM (fun l => match rows_of df l with
                         | [] => Raise KeyError
                         | h => Ok h
                         end) labels ;;
  let sel := concat hits in
  Ok (Frame (map fst sel) (columns df) (map snd sel)).

(** ** Sparse adjacency *)

(** A CSR matrix: for each row the stored entries, sorted by column. *)
Record csr : Type := Csr {
  dim : nat;
  entries : list (list (nat * f64))
}.

(** Adds [v] at column [j] of a sorted row: an entry already stored at
    that column is added to, not replaced. *)
Fixpoint insert_add (j : nat) (v : f64) (row : list (nat * f64))
  : list (nat * f64) :=
  match row with
  | [] => [(j, v)]
  | (k, u) :: row' =>
      if Nat.ltb j k then (j, v) :: (k, u) :: row'
      else if Nat.eqb j k then (k, add u v) :: row'
      else (k, u) :: insert_add j v row'
  end.

Definition sum_duplicates (l : list (nat * f64)) : list (nat * f64) :=
  fold_left (fun acc p => insert_add (fst p) (snd p) acc) l [].

(** [scipy.sparse.csr_matrix((values, (row_idxs, col_idxs)), shape=(N, N))] *)
Definition csr_matrix (vals : list f64) (row_idxs : list nat)
    (col_idxs : list Z) (N : nat) : result csr :=
  if negb (Nat.eqb (length row_idxs) (length col_idxs)
           && Nat.eqb (length col_idxs) (length vals))
  then Raise ValueError
  else if existsb (fun i => Nat.leb N i) row_idxs
          || existsb (fun j => (j <? 0)%Z || (Z.of_nat N <=? j)%Z) col_idxs
  then Raise ValueError
  else
    let coo := combine row_idxs (combine (map Z.to_nat col_idxs) vals) in
    Ok (Csr N (map (fun i =>
                      sum_duplicates
                        (map snd (filter (fun t => Nat.eqb (fst t) i) coo)))
                   (seq 0 N))).

Definition _to_sparse (neighbors : matrix Z) (weights : matrix f64)
  : result csr :=
  let N_CELLS := nrows neighbors in
  let N_NEIGHBORS := ncols neighbors in
  let row_idxs := flat_map (fun i => repeat i N_NEIGHBORS) (seq 0 N_CELLS) in
  let col_idxs := concat (rows neighbors) in
  let vals := concat (rows weights) in
  csr_matrix vals row_idxs col_idxs N_CELLS.

(** The stored entries of row [i]. *)
Definition csr_row (S : csr) (i : nat) : list (nat * f64) :=
  nth i (entries S) [].

(** [S[i, j]]: the stored value, 0 where nothing is stored. *)
Definition csr_get (S : csr) (i j : nat) : f64 :=
  F64.sum (map snd (filter (fun p => Nat.eqb (fst p) j) (csr_row S i))).

(** [S.dot(x.T).T] for a dense [x] of shape (g, n): entry (v, i) is the
    sum over the stored entries (j, a) of row [i] of [a * x[v, j]]. *)
Definition csr_dot_T (S : csr) (x : matrix f64) : result (matrix f64) :=
  if Nat.eqb (dim S) (ncols x) then
    Ok (Matrix (dim S)
          (map (fun xrow =>
                  map (fun srow =>
                         F64.sum (map (fun p => mul (snd p) (nth (fst p) xrow NaN))
                                      srow))
                      (entries S))
               (rows x)))
  else Raise ValueError.

(** ** The batched Getis-Ord statistic *)

(** [m1 op= m2]: the right operand is broadcast to the shape of the left
    one, which the result keeps. *)
Definition mat_iop (f : f64 -> f64 -> f64) (m1 m2 : matrix f64)
  : result (matrix f64) :=
  if (Nat.eqb (nrows m2) (nrows m1) || Nat.eqb (nrows m2) 1)
     && (Nat.eqb (ncols m2) (ncols m1) || Nat.eqb (ncols m2) 1)
  then Ok (Matrix (ncols m1) (bzip (bzip f) (rows m1) (rows m2)))
  else Raise ValueError.

Definition compute_gi_dataframe (x : DataFrame f64) (neighbors : DataFrame Z)
    (weights : DataFrame f64) : result (DataFrame f64) :=
  if negb (Nat.eqb (snd (df_shape x)) (fst (df_shape neighbors)))
  then Raise AssertionError else
  if negb (Nat.eqb (snd (df_shape x)) (fst (df_shape weights)))
  then Raise AssertionError else
  if negb (Nat.eqb (snd (df_shape neighbors)) (snd (df_shape weights)))
  then Raise AssertionError else
  let genes := index x in
  let cells := columns x in
  nb <- loc neighbors (columns x) ;;
  let neighbors := df_values nb in
  wt <- loc weights (columns x) ;;
  let weights := df_values wt in
  let x := df_values x in
  let W_i := sum_axis1 weights in
  let S_1i := sum_axis1 (mmap sq weights) in
  let xbar := map mean (rows x) in
  let s := map std_ddof1 (rows x) in
  let n := ncols x in
  let offset := Matrix (length W_i) (map (fun xb => map (mul xb) W_i) xbar) in
  let denom := map (fun sg => map (mul sg) (radical n S_1i W_i)) s in
  let denom := map (map zero_to_one) denom in
  let denom := Matrix (length W_i) denom in
  sparse_weights <- _to_sparse neighbors weights ;;
  G_i <- csr_dot_T sparse_weights x ;;
  G_i <- mat_iop sub G_i offset ;;
  G_i <- mat_iop div G_i denom ;;
  Ok (Frame genes cells (rows G_i)).

(** ** Significance *)

(** [norm.sf] on float64 values, for a survival function [sf] given on the
    reals. *)
Definition norm_sf (sf : R -> R) (a : f64) : f64 :=
  match a with
  | Fin r => Fin (sf r)
  | PInf => Fin 0
  | NInf => Fin 1
  | NaN => NaN
  end.

Definition gi_to_pval (sf : R -> R) (G_i : DataFrame f64) : DataFrame f64 :=
  Frame (index G_i) (columns G_i)
        (map (map (fun g => mul (norm_sf sf (F64.abs g)) (Fin 2))) (values G_i)).

(** ** The formulas of the specification *)

Module Spec.

(** Section 4.1, step 3: the raw weight [exp(-d^2 / sigma^2)]. *)
Definition raw_weight (d sigma : f64) : f64 :=
  F64.exp (div (neg (sq d)) (sq sigma)).

(** Section 4.1, steps 2 to 4, for the neighbor of rank [r] (from 0) of
    sample [i]: sigma is the distance at the 1-indexed rank
    [radius_index]; the raw weight is divided by the sum of the raw
    weights of the row, or by 1 when that sum is 0. *)
Definition weight (distances : matrix f64) (radius_index : Z) (i r : nat)
  : f64 :=
  let row := nth i (rows distances) [] in
  let sigma := nth (Z.to_nat (radius_index - 1)) row NaN in
  let raw_sum := F64.sum (map (fun d => raw_weight d sigma) row) in
  div (raw_weight (nth r row NaN) sigma)
      (if is_zero raw_sum then Fin 1 else raw_sum).

(** Section 4.4: mean, and standard deviation with denominator n - 1. *)
Definition xbar (x : list f64) : f64 :=
  div (F64.sum x) (of_nat (length x)).

Definition s (x : list f64) : f64 :=
  F64.sqrt (div (F64.sum (map (fun v => sq (sub v (xbar x))) x))
                (sub (of_nat (length x)) (Fin 1))).

Definition W (weights : matrix f64) (i : nat) : f64 :=
  F64.sum (nth i (rows weights) []).

Definition S1 (weights : matrix f64) (i : nat) : f64 :=
  F64.sum (map sq (nth i (rows weights) [])).

(** [denom_i = s * sqrt((n * S1_i - W_i^2) / (n - 1))] *)
Definition denom (x : list f64) (weights : matrix f64) (i : nat) : f64 :=
  let n := of_nat (nrows weights) in
  mul (s x)
      (F64.sqrt (div (sub (mul n (S1 weights i)) (sq (W weights i)))
                     (sub n (Fin 1)))).

(** [num_i = sum over r of weight[i,r] * x[neighbor[i,r]]] *)
Definition num (x : list f64) (neighbors : matrix Z) (weights : matrix f64)
    (i : nat) : f64 :=
  F64.sum (map2 (fun w j => mul w (nth (Z.to_nat j) x NaN))
                (nth i (rows weights) []) (nth i (rows neighbors) [])).

(** [G_i[i] = (num_i - xbar * W_i) / denom_i] *)
Definition gi (x : list f64) (neighbors : matrix Z) (weights : matrix f64)
    (i : nat) : f64 :=
  div (sub (num x neighbors weights i) (mul (xbar x) (W weights i)))
      (denom x weights i).

End Spec.

(** ** Well-formed inputs *)

(** Every neighbor is the position of a sample, [0 <= j < n]. *)
Definition neighbors_in_range (n : nat) (neighbors : list (list Z)) : Prop :=
  Forall (Forall (fun j => (0 <= j < Z.of_nat n)%Z)) neighbors.

(** The neighbor and weight arrays of [n] samples with [k] neighbors
    each. *)
Definition tables_ok (n k : nat) (neighbors : matrix Z) (weights : matrix f64)
  : Prop :=
  shape neighbors = (n, k) /\ shape weights = (n, k)
  /\ wf_matrix neighbors /\ wf_matrix weights
  /\ neighbors_in_range n (rows neighbors).

(** ** Notions used in the statements *)

(** The bandwidth of row [i]: the entry that [compute_weights] looks up. *)
Definition bandwidth (distances : matrix f64) (neighborhood_factor : Q)
    (i : nat) : result f64 :=
  c <- py_index (ncols distances)
                (radius_index (ncols distances) neighborhood_factor - 1) ;;
  Ok (entry NaN distances i c).

(** The sum of a list of reals. *)
Definition Rsum (l : list R) : R := fold_right Rplus 0 l.

(** The denominators, offsets and numerators of [compute_gi_single], as
    the arrays it builds. *)
Definition single_denom (x : list f64) (weights : matrix f64) : list f64 :=
  map (mul (std_ddof1 x))
      (radical (nrows weights) (sum_axis1 (mmap sq weights)) (sum_axis1 weights)).

Definition single_num (x : list f64) (neighbors : matrix Z)
    (weights : matrix f64) : list f64 :=
  map F64.sum
      (map2 (map2 mul)
            (map (map (fun j => nth (Z.to_nat j) x NaN)) (rows neighbors))
            (rows weights)).

(** The value stored for column [j] in a list of (column, value) pairs,
    all the pairs of that column added up. *)
Definition col_total (j : nat) (l : list (nat * f64)) : f64 :=
  F64.sum (map snd (filter (fun p => Nat.eqb (fst p) j) l)).

(** The (neighbor, weight) pairs of sample [i]. *)
Definition pairs_of (neighbors : matrix Z) (weights : matrix f64) (i : nat)
  : list (nat * f64) :=
  combine (map Z.to_nat (nth i (rows neighbors) [])) (nth i (rows weights) []).

(** The coordinate triplets of the tables, one block per sample. *)
Fixpoint coo_rows (a : nat) (nbr : list (list Z)) (wr : list (list f64))
  : list (nat * (nat * f64)) :=
  match nbr, wr with
  | r1 :: nbr', r2 :: wr' =>
      map (pair a) (combine (map Z.to_nat r1) r2) ++ coo_rows (S a) nbr' wr'
  | _, _ => []
  end.

(** The rows of a table with their labels. *)
Definition labelled_rows {A : Type} (df : DataFrame A) : list (label * list A) :=
  combine (index df) (values df).

(** [df'] holds the rows of [df], each under its label, in another
    order. *)
Definition row_permutation {A : Type} (df df' : DataFrame A) : Prop :=
  columns df' = columns df
  /\ length (values df) = length (index df)
  /\ length (values df') = length (index df')
  /\ Permutation (labelled_rows df) (labelled_rows df').

(** The interface of the survival function of the standard normal
    distribution on non-negative scores: values in [0, 1/2], and
    non-increasing. *)
Definition survival (sf : R -> R) : Prop :=
  (forall r, 0 <= r -> 0 <= sf r <= 1 / 2)
  /\ (forall a b, 0 <= a -> a <= b -> sf b <= sf a).

(** Section 4.5: the two-sided p-value [2 * SF(|g|)]. *)
Definition pval (sf : R -> R) (g : f64) : f64 :=
  mul (Fin 2) (norm_sf sf (F64.abs g)).

(** A float64 value that is a number of [0, 1]. *)
Definition in_unit_interval (p : f64) : Prop :=
  exists v, p = Fin v /\ 0 <= v <= 1.

(** The order of float64 numbers; nothing compares with NaN. *)
Definition f64_le (a b : f64) : Prop :=
  match a, b with
  | NaN, _ | _, NaN => False
  | NInf, _ | _, PInf => True
  | Fin x, Fin y => x <= y
  | _, _ => False
  end.

(** A function with the interface of a survival function, for closed
    examples. *)
Definition sample_sf (r : R) : R := / 2 * Rtrigo_def.exp (- r).

(** The numerators of one variable: row [i] of the sparse matrix times
    the values of the variable. *)
Definition batched_num (S : csr) (xrow : list f64) : list f64 :=
  map (fun srow =>
         F64.sum (map (fun p => mul (snd p) (nth (fst p) xrow NaN)) srow))
      (entries S).

(** The denominators of one variable, zeros replaced by 1. *)
Definition batched_denom (n : nat) (weights : matrix f64) (xrow : list f64)
  : list f64 :=
  map zero_to_one
      (map (mul (std_ddof1 xrow))
           (radical n (sum_axis1 (mmap sq weights)) (sum_axis1 weights))).

(** The statistics of one variable. *)
Definition batched_row (S : csr) (n : nat) (weights : matrix f64)
    (xrow : list f64) : list f64 :=
  map2 div
       (map2 sub (batched_num S xrow)
                 (map (mul (mean xrow)) (sum_axis1 weights)))
       (batched_denom n weights xrow).

(** The weighted sum of the values [g] over stored (column, weight)
    pairs. *)
Definition weighted_sum (g : nat -> f64) (l : list (nat * f64)) : f64 :=
  F64.sum (map (fun p => mul (snd p) (g (fst p))) l).

(** ** The neighbor graph *)

(** [m[:, 1:]] *)
Definition drop_first_col {A : Type} (m : matrix A) : matrix A :=
  Matrix (ncols m - 1)%nat (map (@tl A) (rows m)).

(** The labels of [pd.RangeIndex(n)]. *)
Definition range_index (n : nat) : list label :=
  map (fun i => LInt (Z.of_nat i)) (seq 0 n).

(** [pd.DataFrame(m, index=index, columns=columns)]: the labels have to
    match the shape of the array. *)
Definition make_frame {A : Type} (m : matrix A) (idx cols : list label)
  : result (DataFrame A) :=
  if Nat.eqb (length idx) (nrows m) && Nat.eqb (length cols) (ncols m)
  then Ok (Frame idx cols (rows m))
  else Raise ValueError.

(** [kneighbors coords k] stands for
    [NearestNeighbors(n_neighbors=k, algorithm="ball_tree").fit(coords).kneighbors(coords)],
    a function of the library: the distances and the positions of the
    [k] nearest fitted points of every point. *)
Definition neighbors_and_weights
    (kneighbors : matrix f64 -> nat -> result (matrix f64 * matrix Z))
    (data : DataFrame f64) (n_neighbors : nat) (neighborhood_factor : Q)
  : result (DataFrame Z * DataFrame f64) :=
  let coords := df_values data in
  di <- kneighbors coords (n_neighbors + 1)%nat ;;
  let dist := fst di in
  let ind := snd di in
  let dist := drop_first_col dist in
  let ind := drop_first_col ind in
  weights <- compute_weights dist neighborhood_factor ;;
  ind <- make_frame ind (index data) (range_index (ncols ind)) ;;
  let neighbors := ind in
  weights <- make_frame weights (index neighbors) (columns neighbors) ;;
  Ok (neighbors, weights).

(** What the library documents for [kneighbors]: two arrays with one row
    per point and [k] columns, the second holding positions of fitted
    points. *)
Definition kneighbors_contract
    (kneighbors : matrix f64 -> nat -> result (matrix f64 * matrix Z)) : Prop :=
  forall coords k dist ind,
    kneighbors coords k = Ok (dist, ind) ->
    shape dist = (nrows coords, k) /\ shape ind = (nrows coords, k)
    /\ wf_matrix dist /\ wf_matrix ind
    /\ neighbors_in_range (nrows coords) (rows ind).

(** A function that meets the contract, for closed examples; its
    distances 0, 1, 2, ... and its neighbors i, i+1, i+2, ... (mod n) are
    not computed from the coordinates. *)
Definition sample_kneighbors (coords : matrix f64) (k : nat)
  : result (matrix f64 * matrix Z) :=
  let n := nrows coords in
  if Nat.leb 1 k && Nat.leb k n then
    Ok (Matrix k (map (fun _ => map (fun r => Fin (INR r)) (seq 0 k)) (seq 0 n)),
        Matrix k (map (fun i => map (fun r => Z.of_nat ((i + r) mod n)%nat) (seq 0 k))
                      (seq 0 n)))
  else Raise ValueError.

(** A neighbor entry that Python accepts as an index into an axis of
    length [n], from the front or from the end. *)
Definition python_index (n : nat) (j : Z) : Prop :=
  (- Z.of_nat n <= j < Z.of_nat n)%Z.

(** ** float64 numbers with their rounding *)

(** The binary64 numbers of the machine, with the correctly rounded
    operations of IEEE 754. *)
Module B64.

(** A Python int (below 2^63 in size) as a float64; exact below 2^53. *)
Definition of_Z (z : Z) : PrimFloat.float :=
  if (z <? 0)%Z then PrimFloat.opp (PrimFloat.of_uint63 (Uint63.of_Z (- z)))
  else PrimFloat.of_uint63 (Uint63.of_Z z).

(** [a == 0], true of both zeros. *)
Definition is_zero (a : PrimFloat.float) : bool :=
  PrimFloat.eqb a PrimFloat.zero.

(** The rational number that a finite float64 stands for. *)
Definition value (a : PrimFloat.float) : option Q :=
  match FloatOps.Prim2SF a with
  | SpecFloat.S754_zero _ => Some 0%Q
  | SpecFloat.S754_finite s m e =>
      Some (inject_Z (if s then Z.neg m else Z.pos m) * Qpower 2 e)%Q
  | _ => None
  end.

(** [math.ceil(a)]: NaN and the infinities have no integer. *)
Definition ceil (a : PrimFloat.float) : result Z :=
  match value a with
  | Some q => Ok (Qceiling q)
  | None => if PrimFloat.is_nan a then Raise ValueError else Raise OverflowError
  end.

End B64.

(** ** The program over a number type *)

(** The functions of the module once more, over any number type that has
    the operations they use.  With the exact numbers [f64] they are the
    definitions above; with the binary64 numbers they round as the
    machine does.  The neighborhood factor of [compute_weights] is a
    float64 here, whatever the number type of the distances. *)
Module Arith.

Record ops : Type := Ops {
  num : Type;
  nan : num;
  of_Z : Z -> num;
  add : num -> num -> num;
  sub : num -> num -> num;
  mul : num -> num -> num;
  div : num -> num -> num;
  sqrt : num -> num;
  exp : num -> num;
  is_zero : num -> bool
}.

(** [ceil(distances.shape[1] / neighborhood_factor)], line 96, for a
    factor that is a Python float: the division is the float64 division
    of Python, which raises on a zero divisor and rounds the quotient
    before [ceil] sees it. *)
Definition radius_index (n_neighbors : nat)
    (neighborhood_factor : PrimFloat.float) : result Z :=
  if B64.is_zero neighborhood_factor then Raise ZeroDivisionError
  else B64.ceil (PrimFloat.div (B64.of_Z (Z.of_nat n_neighbors))
                               neighborhood_factor).

Section Program.

Variable A : ops.

Definition zero : num A := of_Z A 0.
Definition one : num A := of_Z A 1.
Definition sq (a : num A) : num A := mul A a a.
Definition of_nat (n : nat) : num A := of_Z A (Z.of_nat n).

(** The terms are added from the last one back; numpy and scipy add in
    an order of their own, which shows in the last digits of a rounded
    sum of three or more terms. *)
Definition sum (l : list (num A)) : num A := fold_right (add A) zero l.

Definition vec_op (f : num A -> num A -> num A) (v1 v2 : list (num A))
  : result (list (num A)) :=
  match broadcast_len (length v1) (length v2) with
  | Some _ => Ok (bzip f v1 v2)
  | None => Raise ValueError
  end.

Definition mat_op (f : num A -> num A -> num A) (m1 m2 : matrix (num A))
  : result (matrix (num A)) :=
  match broadcast_len (nrows m1) (nrows m2),
        broadcast_len (ncols m1) (ncols m2) with
  | Some _, Some c => Ok (Matrix c (bzip (bzip f) (rows m1) (rows m2)))
  | _, _ => Raise ValueError
  end.

Definition sum_axis1 (m : matrix (num A)) : list (num A) := map sum (rows m).

Definition take (x : list (num A)) (idx : list Z) : result (list (num A)) :=
  mapM (fun i => k <- py_index (length x) i ;; Ok (nth k x (nan A))) idx.

Definition take2 (x : list (num A)) (idx : matrix Z)
  : result (matrix (num A)) :=
  rs <- mapM (take x) (rows idx) ;; Ok (Matrix (ncols idx) rs).

Definition mean (x : list (num A)) : num A :=
  div A (sum x) (of_nat (length x)).

Definition std_ddof1 (x : list (num A)) : num A :=
  let arrmean := mean x in
  let dev := map (fun v => sq (sub A v arrmean)) x in
  let rcount := Z.max (Z.of_nat (length x) - 1) 0 in
  sqrt A (div A (sum dev) (of_Z A rcount)).

Definition radical (n : nat) (S_1i W_i : list (num A)) : list (num A) :=
  map2 (fun S W =>
          sqrt A (div A (sub A (mul A (of_nat n) S) (sq W))
                        (of_Z A (Z.of_nat n - 1))))
       S_1i W_i.

Definition compute_gi_single (x : list (num A)) (neighbors : matrix Z)
    (weights : matrix (num A)) : result (list (num A)) :=
  let W_i := sum_axis1 weights in
  let S_1i := sum_axis1 (mmap sq weights) in
  let xbar := mean x in
  let s := std_ddof1 x in
  let n := nrows weights in
  let denom := map (mul A s) (radical n S_1i W_i) in
  let offset := map (mul A xbar) W_i in
  neighbor_xs <- take2 x neighbors ;;
  prod <- mat_op (mul A) neighbor_xs weights ;;
  let num := sum_axis1 prod in
  diff <- vec_op (sub A) num offset ;;
  vec_op (div A) diff denom.

(** The array [denom] of line 36. *)
Definition single_denom (x : list (num A)) (weights : matrix (num A))
  : list (num A) :=
  map (mul A (std_ddof1 x))
      (radical (nrows weights) (sum_axis1 (mmap sq weights)) (sum_axis1 weights)).

Definition col_op (f : num A -> num A -> num A) (m : list (list (num A)))
    (col : list (num A)) : list (list (num A)) :=
  map2 (fun row c => map (fun v => f v c) row) m col.

Definition kernel (d sigma : num A) : num A :=
  exp A (div A (mul A (of_Z A (-1)) (sq d)) (sq sigma)).

Definition zero_to_one (v : num A) : num A := if is_zero A v then one else v.

Definition normalize (weights : list (list (num A))) : list (list (num A)) :=
  let wnorm := map sum weights in
  let wnorm := map zero_to_one wnorm in
  col_op (div A) weights wnorm.

Definition compute_weights (distances : matrix (num A))
    (neighborhood_factor : PrimFloat.float) : result (matrix (num A)) :=
  radius_ii <- radius_index (ncols distances) neighborhood_factor ;;
  c <- py_index (ncols distances) (radius_ii - 1) ;;
  let sigma := map (fun row => nth c row (nan A)) (rows distances) in
  let weights := col_op kernel (rows distances) sigma in
  Ok (Matrix (ncols distances) (normalize weights)).

Record csr : Type := Csr {
  dim : nat;
  entries : list (list (nat * num A))
}.

Fixpoint insert_add (j : nat) (v : num A) (row : list (nat * num A))
  : list (nat * num A) :=
  match row with
  | [] => [(j, v)]
  | (k, u) :: row' =>
      if Nat.ltb j k then (j, v) :: (k, u) :: row'
      else if Nat.eqb j k then (k, add A u v) :: row'
      else (k, u) :: insert_add j v row'
  end.

Definition sum_duplicates (l : list (nat * num A)) : list (nat * num A) :=
  fold_left (fun acc p => insert_add (fst p) (snd p) acc) l [].

Definition csr_matrix (vals : list (num A)) (row_idxs : list nat)
    (col_idxs : list Z) (N : nat) : result csr :=
  if negb (Nat.eqb (length row_idxs) (length col_idxs)
           && Nat.eqb (length col_idxs) (length vals))
  then Raise ValueError
  else if existsb (fun i => Nat.leb N i) row_idxs
          || existsb (fun j => (j <? 0)%Z || (Z.of_nat N <=? j)%Z) col_idxs
  then Raise ValueError
  else
    let coo := combine row_idxs (combine (map Z.to_nat col_idxs) vals) in
    Ok (Csr N (map (fun i =>
                      sum_duplicates
                        (map snd (filter (fun t => Nat.eqb (fst t) i) coo)))
                   (seq 0 N))).

Definition _to_sparse (neighbors : matrix Z) (weights : matrix (num A))
  : result csr :=
  let N_CELLS := nrows neighbors in
  let N_NEIGHBORS := ncols neighbors in
  let row_idxs := flat_map (fun i => repeat i N_NEIGHBORS) (seq 0 N_CELLS) in
  let col_idxs := concat (rows neighbors) in
  let vals := concat (rows weights) in
  csr_matrix vals row_idxs col_idxs N_CELLS.

Definition csr_dot_T (S : csr) (x : matrix (num A)) : result (matrix (num A)) :=
  if Nat.eqb (dim S) (ncols x) then
    Ok (Matrix (dim S)
          (map (fun xrow =>
                  map (fun srow =>
                         sum (map (fun p => mul A (snd p) (nth (fst p) xrow (nan A)))
                                  srow))
                      (entries S))
               (rows x)))
  else Raise ValueError.

Definition mat_iop (f : num A -> num A -> num A) (m1 m2 : matrix (num A))
  : result (matrix (num A)) :=
  if (Nat.eqb (nrows m2) (nrows m1) || Nat.eqb (nrows m2) 1)
     && (Nat.eqb (ncols m2) (ncols m1) || Nat.eqb (ncols m2) 1)
  then Ok (Matrix (ncols m1) (bzip (bzip f) (rows m1) (rows m2)))
  else Raise ValueError.

Definition compute_gi_dataframe (x : DataFrame (num A))
    (neighbors : DataFrame Z) (weights : DataFrame (num A))
  : result (DataFrame (num A)) :=
  if negb (Nat.eqb (snd (df_shape x)) (fst (df_shape neighbors)))
  then Raise AssertionError else
  if negb (Nat.eqb (snd (df_shape x)) (fst (df_shape weights)))
  then Raise AssertionError else
  if negb (Nat.eqb (snd (df_shape neighbors)) (snd (df_shape weights)))
  then Raise AssertionError else
  let genes := index x in
  let cells := columns x in
  nb <- loc neighbors (columns x) ;;
  let neighbors := df_values nb in
  wt <- loc weights (columns x) ;;
  let weights := df_values wt in
  let x := df_values x in
  let W_i := sum_axis1 weights in
  let S_1i := sum_axis1 (mmap sq weights) in
  let xbar := map mean (rows x) in
  let s := map std_ddof1 (rows x) in
  let n := ncols x in
  let offset := Matrix (length W_i) (map (fun xb => map (mul A xb) W_i) xbar) in
  let denom := map (fun sg => map (mul A sg) (radical n S_1i W_i)) s in
  let denom := map (map zero_to_one) denom in
  let denom := Matrix (length W_i) denom in
  sparse_weights <- _to_sparse neighbors weights ;;
  G_i <- csr_dot_T sparse_weights x ;;
  G_i <- mat_iop (sub A) G_i offset ;;
  G_i <- mat_iop (div A) G_i denom ;;
  Ok (Frame genes cells (rows G_i)).

End Program.

End Arith.

(** The exact numbers of [F64]. *)
Definition exact_arith : Arith.ops :=
  Arith.Ops f64 NaN F64.of_Z add sub mul div F64.sqrt F64.exp is_zero.

(** The binary64 numbers; [exp] is the function of the C library, a
    parameter. *)
Definition binary64 (exp : PrimFloat.float -> PrimFloat.float) : Arith.ops :=
  Arith.Ops PrimFloat.float PrimFloat.nan B64.of_Z PrimFloat.add PrimFloat.sub
            PrimFloat.mul PrimFloat.div PrimFloat.sqrt exp B64.is_zero.

(** Stands for [exp] in the examples that never call it. *)
Definition unused_exp (a : PrimFloat.float) : PrimFloat.float := PrimFloat.nan.

(** * Properties *)

(** ** Arithmetic of float64 values *)

Ltac f64_cases :=
  unfold sub, sq, zero, one in *; simpl in *; unfold by_sign in *;
  repeat match goal with
         | |- context [Rlt_dec ?a ?b] => destruct (Rlt_dec a b)
         | |- context [Req_dec_T ?a ?b] => destruct (Req_dec_T a b)
         end;
  try reflexivity; try congruence; try (exfalso; lra); try (f_equal; lra).

Lemma add_comm (a b : f64) : add a b = add b a.
Proof. destruct a, b; f64_cases. Qed.

Lemma add_assoc (a b c : f64) : add a (add b c) = add (add a b) c.
Proof. destruct a, b, c; f64_cases. Qed.

Lemma add_zero_l (a : f64) : add zero a = a.
Proof. destruct a; f64_cases. Qed.

Lemma add_zero_r (a : f64) : add a zero = a.
Proof. destruct a; f64_cases. Qed.

Lemma mul_comm (a b : f64) : mul a b = mul b a.
Proof. destruct a, b; f64_cases. Qed.

Lemma mul_minus_one (a : f64) : mul (Fin (-1)) a = neg a.
Proof. destruct a; f64_cases. Qed.

Lemma sum_cons (a : f64) (l : list f64) : F64.sum (a :: l) = add a (F64.sum l).
Proof. reflexivity. Qed.

Lemma sum_app (l1 l2 : list f64) :
  F64.sum (l1 ++ l2) = add (F64.sum l1) (F64.sum l2).
Proof.
  induction l1 as [|a l1 IH].
  - change (F64.sum []) with zero. now rewrite add_zero_l.
  - rewrite <- app_comm_cons, !sum_cons, IH. apply add_assoc.
Qed.

(** ** Exceptions of the building blocks *)

Lemma bind_ok {A B : Type} (m : result A) (k : A -> result B) (b : B) :
  bind m k = Ok b -> exists a, m = Ok a /\ k a = Ok b.
Proof. destruct m as [a|e]; simpl; [eauto | discriminate]. Qed.

Lemma bind_raise {A B : Type} (m : result A) (k : A -> result B) (e : error) :
  bind m k = Raise e -> m = Raise e \/ exists a, m = Ok a /\ k a = Raise e.
Proof. destruct m as [a|e']; simpl; [eauto | intros [= ->]; now left]. Qed.

Lemma mapM_raise {A B : Type} (f : A -> result B) (l : list A) (e : error) :
  mapM f l = Raise e -> exists a, In a l /\ f a = Raise e.
Proof.
  induction l as [|a l IH]; simpl; [discriminate|].
  intros H. apply bind_raise in H as [H | (b & _ & H)].
  - exists a. auto.
  - apply bind_raise in H as [H | (bs & _ & H)]; [|discriminate].
    destruct (IH H) as (a' & Hin & Ha'). exists a'. auto.
Qed.

Lemma mapM_ok_length {A B : Type} (f : A -> result B) (l : list A) (bs : list B) :
  mapM f l = Ok bs -> length bs = length l.
Proof.
  revert bs. induction l as [|a l IH]; simpl; intros bs H.
  - now inversion H.
  - apply bind_ok in H as (b & _ & H). apply bind_ok in H as (bs' & Hbs & H).
    inversion H; subst. simpl. now rewrite (IH _ Hbs).
Qed.

Lemma loc_raise {A : Type} (df : DataFrame A) (labels : list label) (e : error) :
  loc df labels = Raise e -> e = KeyError.
Proof.
  unfold loc. intros H. apply bind_raise in H as [H | (h & _ & H)]; [|discriminate].
  apply mapM_raise in H as (l & _ & H).
  destruct (rows_of df l); congruence.
Qed.

Lemma csr_matrix_raise vals row_idxs col_idxs N e :
  csr_matrix vals row_idxs col_idxs N = Raise e -> e = ValueError.
Proof.
  unfold csr_matrix.
  destruct (negb _); [congruence|]. destruct (_ || _); congruence.
Qed.

Lemma csr_dot_T_raise S x e : csr_dot_T S x = Raise e -> e = ValueError.
Proof. unfold csr_dot_T. destruct (Nat.eqb _ _); congruence. Qed.

Lemma mat_iop_raise f m1 m2 e : mat_iop f m1 m2 = Raise e -> e = ValueError.
Proof. unfold mat_iop. destruct (_ && _); congruence. Qed.

(** C6.  [compute_gi_dataframe] raises its assertion error exactly when
    the shapes disagree: the column count of [x] differs from the row
    count of the neighbor table or of the weight table, or the two tables
    differ in their column count.  When the three equalities hold the
    input is not rejected by the precondition checks. *)
Theorem compute_gi_dataframe_rejects_iff_shape_mismatch
    (x : DataFrame f64) (neighbors : DataFrame Z) (weights : DataFrame f64) :
  compute_gi_dataframe x neighbors weights = Raise AssertionError <->
  (snd (df_shape x) <> fst (df_shape neighbors)
   \/ snd (df_shape x) <> fst (df_shape weights)
   \/ snd (df_shape neighbors) <> snd (df_shape weights)).
Proof.
  unfold compute_gi_dataframe.
  destruct (Nat.eqb (snd (df_shape x)) (fst (df_shape neighbors))) eqn:E1;
    [apply Nat.eqb_eq in E1 | apply Nat.eqb_neq in E1; split; auto].
  destruct (Nat.eqb (snd (df_shape x)) (fst (df_shape weights))) eqn:E2;
    [apply Nat.eqb_eq in E2 | apply Nat.eqb_neq in E2; split; auto].
  destruct (Nat.eqb (snd (df_shape neighbors)) (snd (df_shape weights))) eqn:E3;
    [apply Nat.eqb_eq in E3 | apply Nat.eqb_neq in E3; split; auto].
  cbn [negb].
  split; [|intros [H|[H|H]]; contradiction].
  intros H. exfalso.
  apply bind_raise in H as [H | (nb & _ & H)];
    [apply loc_raise in H; discriminate|].
  apply bind_raise in H as [H | (wt & _ & H)];
    [apply loc_raise in H; discriminate|].
  apply bind_raise in H as [H | (S & _ & H)];
    [apply csr_matrix_raise in H; discriminate|].
  apply bind_raise in H as [H | (G & _ & H)];
    [apply csr_dot_T_raise in H; discriminate|].
  apply bind_raise in H as [H | (G1 & _ & H)];
    [apply mat_iop_raise in H; discriminate|].
  apply bind_raise in H as [H | (G2 & _ & H)];
    [apply mat_iop_raise in H; discriminate|].
  discriminate.
Qed.

(** ** The bandwidth lookup of [compute_weights] *)

Lemma py_index_in_range (n : nat) (i : Z) :
  (0 <= i < Z.of_nat n)%Z -> py_index n i = Ok (Z.to_nat i).
Proof.
  intros H. unfold py_index.
  destruct (Z.leb_spec 0 i); [|lia]. destruct (Z.ltb_spec i (Z.of_nat n)); [|lia].
  reflexivity.
Qed.

Lemma py_index_ok_iff (n : nat) (i : Z) :
  (exists c, py_index n i = Ok c) <-> (- Z.of_nat n <= i < Z.of_nat n)%Z.
Proof.
  unfold py_index.
  destruct ((0 <=? i)%Z && (i <? Z.of_nat n)%Z) eqn:E1.
  - apply andb_true_iff in E1 as [H1 H2].
    apply Z.leb_le in H1. apply Z.ltb_lt in H2. split; [lia|eauto].
  - destruct ((- Z.of_nat n <=? i)%Z && (i <? 0)%Z) eqn:E2.
    + apply andb_true_iff in E2 as [H1 H2].
      apply Z.leb_le in H1. apply Z.ltb_lt in H2. split; [lia|eauto].
    + split; [intros [c Hc]; discriminate|]. intros H. exfalso.
      apply andb_false_iff in E1. apply andb_false_iff in E2.
      rewrite !Z.leb_gt, !Z.ltb_ge in *. lia.
Qed.

Lemma py_index_raise (n : nat) (i : Z) (e : error) :
  py_index n i = Raise e -> e = IndexError.
Proof.
  unfold py_index. destruct (_ && _); [discriminate|].
  destruct (_ && _); [discriminate|]. congruence.
Qed.

Lemma py_index_lt (n : nat) (i : Z) (c : nat) : py_index n i = Ok c -> (c < n)%nat.
Proof.
  unfold py_index.
  destruct ((0 <=? i)%Z && (i <? Z.of_nat n)%Z) eqn:E1.
  - apply andb_true_iff in E1 as [H1 H2].
    apply Z.leb_le in H1. apply Z.ltb_lt in H2. intros [= <-]. lia.
  - destruct ((- Z.of_nat n <=? i)%Z && (i <? 0)%Z) eqn:E2; [|discriminate].
    apply andb_true_iff in E2 as [H1 H2].
    apply Z.leb_le in H1. apply Z.ltb_lt in H2. intros [= <-]. lia.
Qed.

Lemma radius_index_bounds (n : nat) (f : Q) :
  (1 <= n)%nat -> (1 <= f)%Q -> (1 <= radius_index n f <= Z.of_nat n)%Z.
Proof.
  intros Hn Hf. unfold radius_index.
  set (q := (inject_Z (Z.of_nat n) / f)%Q).
  assert (Hfpos : (0 < f)%Q) by (eapply Qlt_le_trans; [|exact Hf]; reflexivity).
  assert (Hnpos : (0 < inject_Z (Z.of_nat n))%Q)
    by (rewrite <- (Zlt_Qlt 0); lia).
  assert (Hqpos : (0 < q)%Q).
  { unfold q. apply Qlt_shift_div_l; [exact Hfpos|]. now rewrite Qmult_0_l. }
  assert (Hqle : (q <= inject_Z (Z.of_nat n))%Q).
  { unfold q. apply Qle_shift_div_r; [exact Hfpos|].
    rewrite <- (Qmult_1_r (inject_Z (Z.of_nat n))) at 1.
    apply Qmult_le_l; assumption. }
  split.
  - assert (H : (0 < inject_Z (Qceiling q))%Q)
      by (eapply Qlt_le_trans; [exact Hqpos | apply Qle_ceiling]).
    rewrite <- (Zlt_Qlt 0) in H. lia.
  - rewrite <- (Qceiling_Z (Z.of_nat n)). now apply Qceiling_resp_le.
Qed.

(** C7 (as amended).  For a distance matrix with at least one column and
    a neighborhood factor of at least 1, the bandwidth lookup at column
    [ceil(n_neighbors / neighborhood_factor) - 1] is within bounds and
    [compute_weights] returns a weight matrix. *)
Theorem compute_weights_total_for_factor_ge_1 (distances : matrix f64) (f : Q) :
  (1 <= ncols distances)%nat -> (1 <= f)%Q ->
  (0 <= radius_index (ncols distances) f - 1 < Z.of_nat (ncols distances))%Z
  /\ exists W, compute_weights distances f = Ok W.
Proof.
  intros Hn Hf.
  pose proof (radius_index_bounds _ _ Hn Hf) as Hr.
  split; [lia|].
  unfold compute_weights.
  destruct (Qeq_bool f 0) eqn:E.
  - apply Qeq_bool_iff in E. rewrite E in Hf. unfold Qle in Hf. simpl in Hf. lia.
  - rewrite py_index_in_range by lia. simpl. eauto.
Qed.

Lemma compute_weights_total_for_factor_ge_1_witness :
  (0 <= radius_index 2 3 - 1 < 2)%Z
  /\ exists W, compute_weights (Matrix 2 [[Fin 1; Fin 2]]) 3 = Ok W.
Proof.
  apply (compute_weights_total_for_factor_ge_1 (Matrix 2 [[Fin 1; Fin 2]]) 3).
  - simpl. lia.
  - discriminate.
Defined.

(** C7 (as stated) fails: one neighbor and a neighborhood factor of 1/2
    give the radius index 2, and the lookup of column 1 in a one-column
    array raises. *)
Lemma compute_weights_raises_for_factor_below_1 :
  (1 <= ncols (Matrix 1 [[Fin 1]]))%nat /\ (0 < 1 # 2)%Q /\
  compute_weights (Matrix 1 [[Fin 1]]) (1 # 2) = Raise IndexError.
Proof. split; [simpl; lia|]. split; reflexivity. Qed.
(** ** Lists *)

Lemma map2_length {A B C : Type} (f : A -> B -> C) (l1 : list A) (l2 : list B) :
  length (map2 f l1 l2) = Nat.min (length l1) (length l2).
Proof.
  revert l2. induction l1 as [|a l1 IH]; intros [|b l2]; simpl; auto.
Qed.

Lemma nth_map2 {A B C : Type} (f : A -> B -> C) (l1 : list A) (l2 : list B)
    (i : nat) (da : A) (db : B) (dc : C) :
  (i < length l1)%nat -> (i < length l2)%nat ->
  nth i (map2 f l1 l2) dc = f (nth i l1 da) (nth i l2 db).
Proof.
  revert l2 i. induction l1 as [|a l1 IH]; intros [|b l2] [|i]; simpl;
    intros H1 H2; try lia; auto.
  apply IH; lia.
Qed.

Lemma nth_map_in {A B : Type} (f : A -> B) (l : list A) (i : nat) (da : A) (db : B) :
  (i < length l)%nat -> nth i (map f l) db = f (nth i l da).
Proof.
  intros H. rewrite (nth_indep _ db (f da)) by now rewrite length_map.
  apply map_nth.
Qed.

Lemma wf_matrix_nth {A : Type} (m : matrix A) (i : nat) :
  wf_matrix m -> (i < nrows m)%nat -> length (nth i (rows m) []) = ncols m.
Proof.
  intros Hwf Hi. unfold wf_matrix in Hwf. rewrite Forall_forall in Hwf.
  apply Hwf, nth_In, Hi.
Qed.

(** ** The weights of [compute_weights] *)

Lemma kernel_raw_weight (d sigma : f64) : kernel d sigma = Spec.raw_weight d sigma.
Proof. unfold kernel, Spec.raw_weight. now rewrite mul_minus_one. Qed.

Lemma kernel_zero_bandwidth : kernel (Fin 0) (Fin 0) = NaN.
Proof.
  unfold kernel, sq. simpl.
  destruct (Req_dec_T (0 * 0) 0) as [_|H]; [|exfalso; lra].
  unfold by_sign.
  destruct (Rlt_dec (-1 * (0 * 0)) 0); [exfalso; lra|].
  destruct (Rlt_dec 0 (-1 * (0 * 0))); [exfalso; lra|]. reflexivity.
Qed.

Lemma kernel_finite (x s : R) :
  s <> 0 -> kernel (Fin x) (Fin s) = Fin (Rtrigo_def.exp (-1 * (x * x) / (s * s))).
Proof.
  intros Hs. unfold kernel, sq. simpl.
  destruct (Req_dec_T (s * s) 0) as [H|_]; [|reflexivity].
  exfalso. apply Rmult_integral in H. tauto.
Qed.

Lemma nth_col_op (f : f64 -> f64 -> f64) (m : list (list f64)) (col : list f64)
    (i : nat) :
  (i < length m)%nat -> length col = length m ->
  nth i (col_op f m col) [] = map (fun v => f v (nth i col NaN)) (nth i m []).
Proof.
  intros Hi Hc. unfold col_op.
  rewrite (nth_map2 _ _ _ _ [] NaN) by lia. reflexivity.
Qed.

Lemma col_op_length (f : f64 -> f64 -> f64) (m : list (list f64)) (col : list f64) :
  length col = length m -> length (col_op f m col) = length m.
Proof. intros H. unfold col_op. rewrite map2_length. lia. Qed.

Lemma nth_normalize (weights : list (list f64)) (i : nat) :
  (i < length weights)%nat ->
  nth i (normalize weights) [] =
  map (fun v => div v (zero_to_one (F64.sum (nth i weights []))))
      (nth i weights []).
Proof.
  intros Hi. unfold normalize.
  rewrite nth_col_op by (rewrite ?length_map; auto).
  rewrite (nth_map_in _ _ _ zero) by now rewrite length_map.
  rewrite (nth_map_in _ _ _ []) by assumption. reflexivity.
Qed.

Lemma normalize_length (weights : list (list f64)) :
  length (normalize weights) = length weights.
Proof. unfold normalize. apply col_op_length. now rewrite !length_map. Qed.

(** What [compute_weights] returns once the lookup has succeeded. *)
Lemma compute_weights_ok (distances : matrix f64) (f : Q) (c : nat) :
  Qeq_bool f 0 = false ->
  py_index (ncols distances) (radius_index (ncols distances) f - 1) = Ok c ->
  compute_weights distances f =
  Ok (Matrix (ncols distances)
        (normalize (col_op kernel (rows distances)
                      (map (fun row => nth c row NaN) (rows distances))))).
Proof. intros Hf Hc. unfold compute_weights. now rewrite Hf, Hc. Qed.

Lemma Qpos_neq_bool (f : Q) : (0 < f)%Q -> Qeq_bool f 0 = false.
Proof.
  intros Hf. destruct (Qeq_bool f 0) eqn:E; [|reflexivity].
  apply Qeq_bool_iff in E. rewrite E in Hf. discriminate Hf.
Qed.

(** ** Sums of non-negative numbers *)

Lemma sum_map_Fin (rs : list R) : F64.sum (map Fin rs) = Fin (Rsum rs).
Proof.
  induction rs as [|r rs IH]; [reflexivity|].
  simpl map. rewrite sum_cons, IH. reflexivity.
Qed.

Lemma Rsum_nonneg (rs : list R) : Forall (fun r => 0 <= r) rs -> 0 <= Rsum rs.
Proof. induction 1; simpl; lra. Qed.

Lemma Rsum_In_le (rs : list R) (r : R) :
  Forall (fun v => 0 <= v) rs -> In r rs -> r <= Rsum rs.
Proof.
  induction 1 as [|v rs Hv Hrs IH]; intros Hin; [contradiction|].
  simpl. pose proof (Rsum_nonneg _ Hrs). destruct Hin as [->|Hin]; [lra|].
  specialize (IH Hin). lra.
Qed.

(** The guard of line 103 at work: a row of zero raw weights is returned
    as it is. *)
Lemma normalize_zero_row : normalize [[Fin 0; Fin 0]] = [[Fin 0; Fin 0]].
Proof.
  unfold normalize, col_op, zero_to_one, is_zero, one. simpl.
  destruct (Req_dec_T (0 + (0 + 0)) 0) as [_|H]; [|exfalso; lra].
  simpl. destruct (Req_dec_T 1 0) as [H|_]; [exfalso; lra|].
  repeat f_equal; lra.
Qed.

(** ** Array operations on matching shapes *)

Lemma mapM_ok_map {A B : Type} (f : A -> result B) (g : A -> B) (l : list A) :
  Forall (fun a => f a = Ok (g a)) l -> mapM f l = Ok (map g l).
Proof.
  induction 1 as [|a l Ha _ IH]; simpl; [reflexivity|].
  now rewrite Ha, IH.
Qed.

Lemma take_in_range (x : list f64) (idx : list Z) :
  Forall (fun j => (0 <= j < Z.of_nat (length x))%Z) idx ->
  take x idx = Ok (map (fun j => nth (Z.to_nat j) x NaN) idx).
Proof.
  intros H. unfold take. apply mapM_ok_map.
  eapply Forall_impl; [|exact H]. intros j Hj. simpl.
  now rewrite py_index_in_range.
Qed.

Lemma take2_in_range (x : list f64) (idx : matrix Z) :
  neighbors_in_range (length x) (rows idx) ->
  take2 x idx =
  Ok (Matrix (ncols idx)
        (map (map (fun j => nth (Z.to_nat j) x NaN)) (rows idx))).
Proof.
  intros H. unfold take2.
  rewrite (mapM_ok_map _ (map (fun j => nth (Z.to_nat j) x NaN))).
  - reflexivity.
  - eapply Forall_impl; [|exact H]. intros row. apply take_in_range.
Qed.

Lemma broadcast_len_refl (n : nat) : broadcast_len n n = Some n.
Proof. unfold broadcast_len. now rewrite Nat.eqb_refl. Qed.

Lemma bzip_same_length {A B C : Type} (f : A -> B -> C) (l1 : list A) (l2 : list B) :
  length l1 = length l2 -> bzip f l1 l2 = map2 f l1 l2.
Proof. intros H. unfold bzip. now rewrite H, Nat.eqb_refl. Qed.

Lemma map2_ext_rows {A B C : Type} (f g : list A -> list B -> list C)
    (k : nat) (m1 : list (list A)) (m2 : list (list B)) :
  (forall r1 r2, length r1 = k -> length r2 = k -> f r1 r2 = g r1 r2) ->
  Forall (fun r => length r = k) m1 -> Forall (fun r => length r = k) m2 ->
  map2 f m1 m2 = map2 g m1 m2.
Proof.
  intros Hfg H1. revert m2.
  induction H1 as [|r1 m1 Hr1 _ IH]; intros m2 H2; [reflexivity|].
  destruct H2 as [|r2 m2 Hr2 H2]; [reflexivity|].
  simpl. now rewrite Hfg, IH.
Qed.

Lemma mat_op_same_shape (f : f64 -> f64 -> f64) (m1 m2 : matrix f64) :
  shape m1 = shape m2 -> wf_matrix m1 -> wf_matrix m2 ->
  mat_op f m1 m2 = Ok (Matrix (ncols m1) (map2 (map2 f) (rows m1) (rows m2))).
Proof.
  unfold shape. intros [= Hr Hc] H1 H2. unfold mat_op.
  rewrite Hr, Hc, !broadcast_len_refl. f_equal. rewrite <- Hc. f_equal.
  rewrite bzip_same_length by exact Hr.
  apply (map2_ext_rows _ _ (ncols m1)); [| exact H1 | now rewrite Hc].
  intros r1 r2 E1 E2. apply bzip_same_length. congruence.
Qed.

Lemma vec_op_same_length (f : f64 -> f64 -> f64) (v1 v2 : list f64) :
  length v1 = length v2 -> vec_op f v1 v2 = Ok (map2 f v1 v2).
Proof.
  intros H. unfold vec_op.
  now rewrite H, broadcast_len_refl, bzip_same_length.
Qed.

Lemma mat_iop_same_shape (f : f64 -> f64 -> f64) (m1 m2 : matrix f64) :
  shape m1 = shape m2 -> wf_matrix m1 -> wf_matrix m2 ->
  mat_iop f m1 m2 = Ok (Matrix (ncols m1) (map2 (map2 f) (rows m1) (rows m2))).
Proof.
  unfold shape. intros [= Hr Hc] H1 H2. unfold mat_iop.
  rewrite Hr, Hc, !Nat.eqb_refl. simpl. f_equal. rewrite <- Hc. f_equal.
  rewrite bzip_same_length by exact Hr.
  apply (map2_ext_rows _ _ (ncols m1)); [| exact H1 | now rewrite Hc].
  intros r1 r2 E1 E2. apply bzip_same_length. congruence.
Qed.

(** ** The single-variable form *)

Lemma of_Z_pred (n : nat) : of_Z (Z.of_nat n - 1) = sub (of_nat n) (Fin 1).
Proof. unfold of_nat, of_Z, sub. simpl. f_equal. rewrite minus_IZR. lra. Qed.

Lemma mean_xbar (x : list f64) : mean x = Spec.xbar x.
Proof. reflexivity. Qed.

Lemma std_ddof1_s (x : list f64) : (1 <= length x)%nat -> std_ddof1 x = Spec.s x.
Proof.
  intros H. unfold std_ddof1, Spec.s. cbv zeta.
  rewrite Z.max_l by lia. now rewrite of_Z_pred.
Qed.

Lemma radical_length (n : nat) (S W : list f64) :
  length S = length W -> length (radical n S W) = length W.
Proof. intros H. unfold radical. rewrite map2_length. lia. Qed.

Lemma compute_gi_single_ok (x : list f64) (neighbors : matrix Z)
    (weights : matrix f64) (n k : nat) :
  length x = n -> tables_ok n k neighbors weights ->
  compute_gi_single x neighbors weights =
  Ok (map2 div
        (map2 sub (single_num x neighbors weights)
                  (map (mul (mean x)) (sum_axis1 weights)))
        (single_denom x weights)).
Proof.
  intros Hx (Hsn & Hsw & Hwn & Hww & Hrange).
  unfold shape in Hsn, Hsw. injection Hsn as Hn1 Hn2. injection Hsw as Hw1 Hw2.
  unfold compute_gi_single.
  rewrite take2_in_range by (rewrite Hx; exact Hrange). simpl bind.
  rewrite mat_op_same_shape; simpl.
  - unfold sum_axis1 at 1. simpl rows.
    rewrite vec_op_same_length; simpl.
    + rewrite vec_op_same_length; [reflexivity|].
      rewrite map2_length, !length_map, map2_length, !length_map.
      unfold radical. rewrite map2_length. unfold sum_axis1, mmap. simpl.
      rewrite !length_map. unfold nrows in *. lia.
    + rewrite !length_map, map2_length, !length_map. unfold sum_axis1.
      rewrite length_map. unfold nrows in *. lia.
  - unfold shape, nrows. simpl. rewrite length_map. unfold nrows in *. congruence.
  - unfold wf_matrix. simpl. rewrite Forall_map.
    eapply Forall_impl; [|exact Hwn]. intros r Hr. now rewrite length_map.
  - exact Hww.
Qed.

Lemma map2_mul_swap {A : Type} (g : A -> f64) (l1 : list A) (l2 : list f64) :
  map2 mul (map g l1) l2 = map2 (fun w j => mul w (g j)) l2 l1.
Proof.
  revert l2. induction l1 as [|a l1 IH]; intros [|b l2]; simpl; try reflexivity.
  now rewrite IH, mul_comm.
Qed.

Lemma nth_single_num (x : list f64) (neighbors : matrix Z) (weights : matrix f64)
    (i : nat) :
  (i < nrows neighbors)%nat -> (i < nrows weights)%nat ->
  nth i (single_num x neighbors weights) NaN = Spec.num x neighbors weights i.
Proof.
  intros Hn Hw. unfold single_num, Spec.num.
  rewrite (nth_map_in _ _ _ []) by (rewrite map2_length, length_map; unfold nrows in *; lia).
  rewrite (nth_map2 _ _ _ _ [] []) by (rewrite ?length_map; assumption).
  rewrite (nth_map_in _ _ _ []) by assumption.
  now rewrite map2_mul_swap.
Qed.

Lemma nth_radical (n : nat) (S W : list f64) (i : nat) :
  (i < length S)%nat -> (i < length W)%nat ->
  nth i (radical n S W) NaN =
  F64.sqrt (div (sub (mul (of_nat n) (nth i S NaN)) (sq (nth i W NaN)))
                (sub (of_nat n) (Fin 1))).
Proof.
  intros HS HW. unfold radical.
  rewrite (nth_map2 _ _ _ _ NaN NaN) by assumption. now rewrite of_Z_pred.
Qed.

Lemma nth_single_denom (x : list f64) (weights : matrix f64) (i : nat) :
  (1 <= length x)%nat -> (i < nrows weights)%nat ->
  nth i (single_denom x weights) NaN = Spec.denom x weights i.
Proof.
  intros Hx Hi. unfold single_denom, Spec.denom, Spec.S1, Spec.W.
  assert (HW : length (sum_axis1 weights) = nrows weights)
    by (unfold sum_axis1; now rewrite length_map).
  assert (HS : length (sum_axis1 (mmap sq weights)) = nrows weights)
    by (unfold sum_axis1, mmap; simpl; now rewrite !length_map).
  rewrite (nth_map_in _ _ _ NaN) by (rewrite radical_length; lia).
  rewrite nth_radical by lia.
  rewrite std_ddof1_s by exact Hx.
  unfold sum_axis1, mmap. simpl rows.
  rewrite (nth_map_in _ _ _ []) by now rewrite length_map.
  rewrite (nth_map_in _ _ _ []) by exact Hi.
  rewrite (nth_map_in _ _ _ []) by exact Hi.
  reflexivity.
Qed.

Lemma div_by_zero_not_finite (a : f64) : ~ finite (div a (Fin 0)).
Proof.
  destruct a; simpl; auto.
  - destruct (Req_dec_T 0 0) as [_|H]; [|exfalso; now apply H].
    unfold by_sign. destruct (Rlt_dec r 0); [auto|]. destruct (Rlt_dec 0 r); auto.
  - destruct (Rlt_dec 0 0); auto.
  - destruct (Rlt_dec 0 0); auto.
Qed.

(** The value that [compute_gi_single] returns for sample [i]. *)
Lemma compute_gi_single_nth (x : list f64) (neighbors : matrix Z)
    (weights : matrix f64) (n k : nat) :
  length x = n -> tables_ok n k neighbors weights ->
  exists G,
    compute_gi_single x neighbors weights = Ok G
    /\ length G = n
    /\ forall i, (i < n)%nat -> nth i G NaN = Spec.gi x neighbors weights i.
Proof.
  intros Hx Hok. eexists. split; [exact (compute_gi_single_ok _ _ _ _ _ Hx Hok)|].
  destruct Hok as (Hsn & Hsw & Hwn & Hww & Hrange).
  unfold shape in Hsn, Hsw. injection Hsn as Hn1 Hn2. injection Hsw as Hw1 Hw2.
  assert (Hlw : length (rows weights) = n) by exact Hw1.
  assert (Hln : length (rows neighbors) = n) by exact Hn1.
  assert (Lnum : length (single_num x neighbors weights) = n).
  { unfold single_num. rewrite length_map, map2_length, length_map. lia. }
  assert (Loff : length (map (mul (mean x)) (sum_axis1 weights)) = n)
    by (unfold sum_axis1; now rewrite !length_map).
  assert (Lden : length (single_denom x weights) = n).
  { unfold single_denom. rewrite length_map, radical_length;
      unfold sum_axis1, mmap; simpl; now rewrite ?length_map. }
  split.
  - rewrite !map2_length. lia.
  - intros i Hi.
    rewrite (nth_map2 _ _ _ _ NaN NaN) by (rewrite ?map2_length; lia).
    rewrite (nth_map2 _ _ _ _ NaN NaN) by lia.
    rewrite nth_single_num by lia.
    rewrite nth_single_denom by lia.
    rewrite (nth_map_in _ _ _ NaN) by (unfold sum_axis1; rewrite length_map; lia).
    unfold sum_axis1. rewrite (nth_map_in _ _ _ []) by lia.
    reflexivity.
Qed.

(** C2.  For a vector [x] of length n and neighbor and weight tables of n
    rows, [compute_gi_single] returns n values, the one of sample [i]
    being exactly [(num_i - xbar * W_i) / denom_i] with
    [denom_i = s * sqrt((n * S1_i - W_i^2) / (n - 1))].  A denominator of
    0 is divided by as it is, so that the value of that sample is not
    finite. *)
Theorem compute_gi_single_formula (x : list f64) (neighbors : matrix Z)
    (weights : matrix f64) (n k : nat) :
  length x = n -> tables_ok n k neighbors weights ->
  exists G,
    compute_gi_single x neighbors weights = Ok G
    /\ length G = n
    /\ (forall i, (i < n)%nat -> nth i G NaN = Spec.gi x neighbors weights i)
    /\ (forall i, (i < n)%nat -> Spec.denom x weights i = Fin 0 ->
          ~ finite (nth i G NaN)).
Proof.
  intros Hx Hok.
  destruct (compute_gi_single_nth _ _ _ _ _ Hx Hok) as (G & HG & Hlen & Hnth).
  exists G. repeat (split; [assumption|]).
  intros i Hi Hz. rewrite (Hnth i Hi). unfold Spec.gi. rewrite Hz.
  apply div_by_zero_not_finite.
Qed.

Lemma compute_gi_single_formula_witness :
  let x := [Fin 1; Fin 2; Fin 4] in
  let neighbors := Matrix 2 [[1; 2]; [0; 2]; [0; 1]]%Z in
  let weights :=
    Matrix 2 [[Fin (1/2); Fin (1/2)]; [Fin (1/2); Fin (1/2)]; [Fin (1/4); Fin (3/4)]] in
  exists G,
    compute_gi_single x neighbors weights = Ok G
    /\ length G = 3%nat
    /\ (forall i, (i < 3)%nat -> nth i G NaN = Spec.gi x neighbors weights i)
    /\ (forall i, (i < 3)%nat -> Spec.denom x weights i = Fin 0 ->
          ~ finite (nth i G NaN)).
Proof.
  intros x neighbors weights.
  apply (compute_gi_single_formula x neighbors weights 3 2).
  - reflexivity.
  - repeat split; repeat constructor; lia.
Defined.

(** ** The sparse adjacency *)

Lemma col_total_cons (j : nat) (p : nat * f64) (l : list (nat * f64)) :
  col_total j (p :: l) =
  add (if Nat.eqb (fst p) j then snd p else zero) (col_total j l).
Proof.
  unfold col_total. simpl. destruct (Nat.eqb (fst p) j).
  - reflexivity.
  - now rewrite add_zero_l.
Qed.

Lemma col_total_insert_add (j k : nat) (v : f64) (row : list (nat * f64)) :
  col_total j (insert_add k v row) = col_total j ((k, v) :: row).
Proof.
  induction row as [|[c u] row IH]; [reflexivity|].
  simpl insert_add. destruct (Nat.ltb k c); [reflexivity|].
  destruct (Nat.eqb_spec k c) as [->|Hkc].
  - rewrite !col_total_cons. simpl fst. simpl snd.
    destruct (Nat.eqb c j).
    + now rewrite add_assoc, (add_comm v u).
    + now rewrite !add_zero_l.
  - rewrite col_total_cons, IH, !col_total_cons. simpl fst. simpl snd.
    rewrite !add_assoc. f_equal. apply add_comm.
Qed.

Lemma col_total_app (j : nat) (l1 l2 : list (nat * f64)) :
  col_total j (l1 ++ l2) = add (col_total j l1) (col_total j l2).
Proof. unfold col_total. now rewrite filter_app, map_app, sum_app. Qed.

(** Collisions are added up: what [sum_duplicates] stores for a column is
    the sum of all the values given for it. *)
Lemma col_total_sum_duplicates (j : nat) (l : list (nat * f64)) :
  col_total j (sum_duplicates l) = col_total j l.
Proof.
  unfold sum_duplicates.
  enough (H : forall acc,
             col_total j (fold_left (fun acc p => insert_add (fst p) (snd p) acc) l acc)
             = add (col_total j acc) (col_total j l)).
  { rewrite H. apply add_zero_l. }
  induction l as [|[k v] l IH]; intros acc; simpl fold_left.
  - change (col_total j []) with zero. now rewrite add_zero_r.
  - rewrite IH, col_total_insert_add, !col_total_cons.
    simpl fst. simpl snd. rewrite !add_assoc. f_equal. apply add_comm.
Qed.

Lemma insert_add_fresh (k : nat) (v : f64) (row : list (nat * f64)) :
  ~ In k (map fst row) -> Permutation (insert_add k v row) ((k, v) :: row).
Proof.
  induction row as [|[c u] row IH]; intros Hk; [reflexivity|].
  simpl insert_add. destruct (Nat.ltb k c); [reflexivity|].
  destruct (Nat.eqb_spec k c) as [->|Hkc].
  - exfalso. apply Hk. now left.
  - rewrite IH by (intros H; apply Hk; now right). apply perm_swap.
Qed.

(** Without collisions nothing is merged: the stored entries are the
    given pairs, in some order. *)
Lemma sum_duplicates_distinct (l : list (nat * f64)) :
  NoDup (map fst l) -> Permutation (sum_duplicates l) l.
Proof.
  unfold sum_duplicates.
  enough (H : forall acc, NoDup (map fst (acc ++ l)) ->
             Permutation (fold_left (fun acc p => insert_add (fst p) (snd p) acc) l acc)
                         (acc ++ l)).
  { intros Hl. apply (H [] Hl). }
  induction l as [|[k v] l IH]; intros acc Hnd; simpl fold_left.
  - now rewrite app_nil_r.
  - assert (Hfresh : ~ In k (map fst acc)).
    { rewrite map_app in Hnd. simpl in Hnd. apply NoDup_remove_2 in Hnd.
      intros H. apply Hnd, in_or_app. now left. }
    pose proof (insert_add_fresh k v acc Hfresh) as Hp.
    assert (Hp' : Permutation (insert_add k v acc ++ l) (acc ++ (k, v) :: l)).
    { rewrite Hp. simpl. apply Permutation_middle. }
    rewrite IH.
    + exact Hp'.
    + eapply Permutation_NoDup; [|exact Hnd].
      apply Permutation_map. symmetry. exact Hp'.
Qed.

Lemma combine_app_same {A B : Type} (l1 l1' : list A) (l2 l2' : list B) :
  length l1 = length l2 ->
  combine (l1 ++ l1') (l2 ++ l2') = combine l1 l2 ++ combine l1' l2'.
Proof.
  revert l2. induction l1 as [|a l1 IH]; intros [|b l2] H; simpl in *;
    try discriminate; [reflexivity|].
  f_equal. apply IH. lia.
Qed.

Lemma combine_repeat {A B : Type} (a : A) (l : list B) :
  combine (repeat a (length l)) l = map (pair a) l.
Proof. induction l as [|b l IH]; simpl; [reflexivity|now rewrite IH]. Qed.

Lemma length_concat_wf {A : Type} (k : nat) (l : list (list A)) :
  Forall (fun r => length r = k) l -> length (concat l) = (length l * k)%nat.
Proof.
  induction 1 as [|r l Hr _ IH]; simpl; [reflexivity|].
  rewrite length_app, IH, Hr. reflexivity.
Qed.

Lemma length_tile (k a n : nat) :
  length (flat_map (fun i => repeat i k) (seq a n)) = (n * k)%nat.
Proof.
  revert a. induction n as [|n IH]; intros a; simpl; [reflexivity|].
  now rewrite length_app, repeat_length, IH.
Qed.

(** The raveled arrays of [_to_sparse], zipped, are the triplets
    (i, neighbors[i, r], weights[i, r]). *)
Lemma coo_of_tables (k : nat) (nbr : list (list Z)) (wr : list (list f64)) (a : nat) :
  Forall (fun r => length r = k) nbr -> Forall (fun r => length r = k) wr ->
  length nbr = length wr ->
  combine (flat_map (fun i => repeat i k) (seq a (length nbr)))
          (combine (map Z.to_nat (concat nbr)) (concat wr))
  = coo_rows a nbr wr.
Proof.
  intros Hn. revert wr a.
  induction Hn as [|r1 nbr Hr1 _ IH]; intros [|r2 wr] a Hw Hlen;
    simpl in Hlen; try discriminate; [reflexivity|].
  inversion Hw as [|? ? Hr2 Hw']; subst.
  simpl. rewrite map_app.
  rewrite (combine_app_same (map Z.to_nat r1)) by (rewrite length_map; congruence).
  rewrite combine_app_same
    by (rewrite repeat_length, length_combine, length_map; lia).
  rewrite IH by (auto; lia). f_equal.
  replace (length r1) with (length (combine (map Z.to_nat r1) r2))
    by (rewrite length_combine, length_map; lia).
  apply combine_repeat.
Qed.

Lemma filter_coo_rows_below (i a : nat) (nbr : list (list Z)) (wr : list (list f64)) :
  (i < a)%nat -> filter (fun t => Nat.eqb (fst t) i) (coo_rows a nbr wr) = [].
Proof.
  revert wr a. induction nbr as [|r1 nbr IH]; intros [|r2 wr] a Hi;
    simpl; try reflexivity.
  rewrite filter_app, IH by lia. rewrite app_nil_r.
  induction (combine (map Z.to_nat r1) r2) as [|p l IHl]; simpl; [reflexivity|].
  destruct (Nat.eqb_spec a i); [lia|exact IHl].
Qed.

Lemma filter_coo_rows (i a : nat) (nbr : list (list Z)) (wr : list (list f64)) :
  (a <= i)%nat ->
  map snd (filter (fun t => Nat.eqb (fst t) i) (coo_rows a nbr wr))
  = combine (map Z.to_nat (nth (i - a) nbr [])) (nth (i - a) wr []).
Proof.
  revert wr a. induction nbr as [|r1 nbr IH]; intros [|r2 wr] a Hi.
  - simpl. now destruct (i - a)%nat.
  - simpl. now destruct (i - a)%nat.
  - simpl coo_rows. simpl filter. simpl map at 1.
    destruct (i - a)%nat; simpl; now rewrite combine_nil.
  - simpl coo_rows. rewrite filter_app, map_app.
    destruct (Nat.eq_dec a i) as [->|Hne].
    + rewrite filter_coo_rows_below by lia. simpl map at 2. rewrite app_nil_r.
      rewrite Nat.sub_diag. simpl nth.
      induction (combine (map Z.to_nat r1) r2) as [|p l IHl]; simpl; [reflexivity|].
      rewrite Nat.eqb_refl. simpl. now rewrite IHl.
    + rewrite IH by lia.
      replace (i - a)%nat with (S (i - S a)) by lia. simpl nth.
      replace (filter _ (map (pair a) _)) with (@nil (nat * (nat * f64)));
        [reflexivity|].
      induction (combine (map Z.to_nat r1) r2) as [|p l IHl]; simpl; [reflexivity|].
      destruct (Nat.eqb_spec a i); [lia|exact IHl].
Qed.

Lemma in_tile (k a n j : nat) :
  In j (flat_map (fun i => repeat i k) (seq a n)) -> (a <= j < a + n)%nat.
Proof.
  intros H. apply in_flat_map in H as (i & Hi & Hj).
  apply repeat_spec in Hj. subst j. apply in_seq in Hi. lia.
Qed.

(** What [_to_sparse] builds from well-formed tables. *)
Lemma to_sparse_ok (neighbors : matrix Z) (weights : matrix f64) (n k : nat) :
  tables_ok n k neighbors weights ->
  _to_sparse neighbors weights =
  Ok (Csr n (map (fun i => sum_duplicates (pairs_of neighbors weights i))
                 (seq 0 n))).
Proof.
  intros (Hsn & Hsw & Hwn & Hww & Hrange).
  unfold shape in Hsn, Hsw. injection Hsn as Hn1 Hn2. injection Hsw as Hw1 Hw2.
  unfold nrows in Hn1, Hw1. unfold wf_matrix in Hwn, Hww.
  rewrite Hn2 in Hwn. rewrite Hw2 in Hww.
  unfold _to_sparse, csr_matrix, nrows. rewrite Hn1, Hn2.
  rewrite length_tile, (length_concat_wf k), (length_concat_wf k) by assumption.
  rewrite Hn1, Hw1, !Nat.eqb_refl. simpl negb. cbv iota.
  match goal with
  | |- (if ?b then _ else _) = _ => assert (Hchk : b = false)
  end.
  { apply orb_false_iff. split.
    - destruct (existsb _ _) eqn:E; [|reflexivity].
      apply existsb_exists in E as (j & Hin & Hj).
      apply in_tile in Hin. apply Nat.leb_le in Hj. lia.
    - destruct (existsb _ _) eqn:E; [|reflexivity].
      apply existsb_exists in E as (j & Hin & Hj).
      apply in_concat in Hin as (row & Hrow & Hin).
      unfold neighbors_in_range in Hrange. rewrite Forall_forall in Hrange.
      specialize (Hrange row Hrow). rewrite Forall_forall in Hrange.
      specialize (Hrange j Hin).
      apply orb_true_iff in Hj as [Hj|Hj]; [apply Z.ltb_lt in Hj|apply Z.leb_le in Hj]; lia. }
  rewrite Hchk. f_equal. f_equal.
  apply map_ext_in. intros i Hi. apply in_seq in Hi.
  rewrite <- Hn1 at 1. rewrite (coo_of_tables k) by (auto; lia).
  rewrite filter_coo_rows by lia. rewrite Nat.sub_0_r. reflexivity.
Qed.

Lemma csr_row_to_sparse (neighbors : matrix Z) (weights : matrix f64) (n i : nat) :
  (i < n)%nat ->
  csr_row (Csr n (map (fun i => sum_duplicates (pairs_of neighbors weights i))
                      (seq 0 n))) i
  = sum_duplicates (pairs_of neighbors weights i).
Proof.
  intros Hi. unfold csr_row. simpl entries.
  rewrite (nth_map_in _ _ _ 0%nat) by now rewrite length_seq.
  now rewrite seq_nth.
Qed.

Lemma NoDup_map_to_nat (l : list Z) :
  Forall (fun j => (0 <= j)%Z) l -> NoDup l -> NoDup (map Z.to_nat l).
Proof.
  intros Hpos Hnd. induction Hnd as [|j l Hnotin _ IH]; simpl; constructor.
  - inversion Hpos as [|? ? Hj Hl]; subst.
    intros Hin. apply in_map_iff in Hin as (j' & Heq & Hin').
    rewrite Forall_forall in Hl. specialize (Hl j' Hin').
    apply Hnotin. replace j with j' by lia. exact Hin'.
  - apply IH. now inversion Hpos.
Qed.

Lemma map_fst_combine_le {A B : Type} (l1 : list A) (l2 : list B) :
  length l1 = length l2 -> map fst (combine l1 l2) = l1.
Proof.
  revert l2. induction l1 as [|a l1 IH]; intros [|b l2] H; simpl in *;
    try discriminate; [reflexivity|].
  f_equal. apply IH. lia.
Qed.

(** C8.  From well-formed tables [_to_sparse] builds a matrix whose row
    [i], when the neighbors of sample [i] are distinct, stores exactly
    the (neighbor, weight) pairs of that sample, in some order; and in
    every case the value at (i, j) is the sum of all the weights that
    row [i] gives for neighbor [j], so that entries with the same
    coordinates are added, not overwritten. *)
Theorem to_sparse_round_trip (neighbors : matrix Z) (weights : matrix f64)
    (n k : nat) :
  tables_ok n k neighbors weights ->
  exists S,
    _to_sparse neighbors weights = Ok S
    /\ dim S = n
    /\ forall i, (i < n)%nat ->
         (NoDup (nth i (rows neighbors) []) ->
          Permutation (csr_row S i) (pairs_of neighbors weights i))
         /\ (forall j, csr_get S i j =
                       col_total j (pairs_of neighbors weights i)).
Proof.
  intros Hok. eexists. split; [exact (to_sparse_ok _ _ _ _ Hok)|].
  split; [reflexivity|].
  intros i Hi. destruct Hok as (Hsn & Hsw & Hwn & Hww & Hrange).
  unfold shape in Hsn, Hsw. injection Hsn as Hn1 Hn2. injection Hsw as Hw1 Hw2.
  split.
  - intros Hnd. rewrite csr_row_to_sparse by exact Hi.
    apply sum_duplicates_distinct. unfold pairs_of.
    rewrite map_fst_combine_le
      by (rewrite length_map, !wf_matrix_nth by (auto; lia); congruence).
    apply NoDup_map_to_nat; [|exact Hnd].
    unfold neighbors_in_range in Hrange. rewrite Forall_forall in Hrange.
    eapply Forall_impl; [|apply Hrange, nth_In; unfold nrows in Hn1; lia].
    simpl. intros j Hj. lia.
  - intros j. unfold csr_get. rewrite csr_row_to_sparse by exact Hi.
    apply col_total_sum_duplicates.
Qed.

Lemma to_sparse_round_trip_witness :
  let neighbors := Matrix 2 [[1; 2]; [2; 2]; [0; 1]]%Z in
  let weights :=
    Matrix 2 [[Fin 1; Fin 2]; [Fin 3; Fin 4]; [Fin 5; Fin 6]] in
  exists S,
    _to_sparse neighbors weights = Ok S
    /\ dim S = 3%nat
    /\ forall i, (i < 3)%nat ->
         (NoDup (nth i (rows neighbors) []) ->
          Permutation (csr_row S i) (pairs_of neighbors weights i))
         /\ (forall j, csr_get S i j =
                       col_total j (pairs_of neighbors weights i)).
Proof.
  intros neighbors weights.
  apply (to_sparse_round_trip neighbors weights 3 2).
  repeat split; repeat constructor; lia.
Defined.

(** The sum at work: sample 1 lists neighbor 2 twice, with the weights 3
    and 4, and the matrix stores their sum at (1, 2). *)
Lemma to_sparse_adds_collisions :
  _to_sparse (Matrix 2 [[1; 2]; [2; 2]; [0; 1]]%Z)
             (Matrix 2 [[Fin 1; Fin 2]; [Fin 3; Fin 4]; [Fin 5; Fin 6]])
  = Ok (Csr 3 [[(1%nat, Fin 1); (2%nat, Fin 2)];
               [(2%nat, Fin (3 + 4))];
               [(0%nat, Fin 5); (1%nat, Fin 6)]]).
Proof. reflexivity. Qed.
(** ** Selection by label *)

Lemma label_eqb_eq (a b : label) : label_eqb a b = true <-> a = b.
Proof.
  destruct a as [s|y], b as [t|z]; simpl; split; intros H; try discriminate.
  - apply String.eqb_eq in H. now subst.
  - injection H as ->. apply String.eqb_refl.
  - apply Z.eqb_eq in H. now subst.
  - injection H as ->. apply Z.eqb_refl.
Qed.

Lemma Permutation_filter_compat {A : Type} (f : A -> bool) (l l' : list A) :
  Permutation l l' -> Permutation (filter f l) (filter f l').
Proof.
  induction 1 as [|a l l' _ IH|a b l|l1 l2 l3 _ IH1 _ IH2]; simpl.
  - constructor.
  - destruct (f a); [now constructor|exact IH].
  - destruct (f a), (f b); try reflexivity. apply perm_swap.
  - now rewrite IH1.
Qed.

(** An index without repeated labels has at most one row per label. *)
Lemma filter_label_unique {A : Type} (l : label) (L : list (label * A)) :
  NoDup (map fst L) ->
  (length (filter (fun p => label_eqb (fst p) l) L) <= 1)%nat.
Proof.
  induction L as [|p L IH]; simpl; intros Hnd; [lia|].
  inversion Hnd as [|? ? Hnotin Hnd']; subst.
  destruct (label_eqb (fst p) l) eqn:E; [|now apply IH].
  apply label_eqb_eq in E. simpl.
  replace (filter _ L) with (@nil (label * A)); [simpl; lia|].
  symmetry.
  clear IH Hnd Hnd'. induction L as [|q L IHL]; [reflexivity|]. simpl.
  destruct (label_eqb (fst q) l) eqn:Eq.
  - apply label_eqb_eq in Eq. exfalso. apply Hnotin. left. congruence.
  - apply IHL. intros H. apply Hnotin. now right.
Qed.

Lemma rows_of_row_permutation {A : Type} (df df' : DataFrame A) (l : label) :
  NoDup (index df) -> row_permutation df df' -> rows_of df' l = rows_of df l.
Proof.
  intros Hnd (_ & Hlen & _ & Hperm). unfold rows_of.
  fold (labelled_rows df) (labelled_rows df').
  pose proof (Permutation_filter_compat (fun p => label_eqb (fst p) l) _ _ Hperm)
    as Hp.
  assert (Hle : (length (filter (fun p => label_eqb (fst p) l) (labelled_rows df))
                 <= 1)%nat).
  { apply filter_label_unique. unfold labelled_rows.
    rewrite map_fst_combine_le by congruence. exact Hnd. }
  destruct (filter _ (labelled_rows df)) as [|p [|q rest]].
  - now apply Permutation_nil in Hp.
  - now apply Permutation_length_1_inv in Hp.
  - simpl in Hle. lia.
Qed.

Lemma loc_row_permutation {A : Type} (df df' : DataFrame A) (labels : list label) :
  NoDup (index df) -> row_permutation df df' -> loc df' labels = loc df labels.
Proof.
  intros Hnd Hp. unfold loc.
  destruct Hp as (Hcols & Hrest). rewrite Hcols.
  assert (Hp : row_permutation df df') by (split; assumption).
  replace (mapM _ labels)
    with (mapM (fun l => match rows_of df l with
                         | [] => Raise KeyError
                         | h => Ok h
                         end) labels); [reflexivity|].
  induction labels as [|l labels IH]; [reflexivity|].
  simpl. now rewrite IH, (rows_of_row_permutation df df' l Hnd Hp).
Qed.

Lemma df_shape_row_permutation {A : Type} (df df' : DataFrame A) :
  row_permutation df df' -> df_shape df' = df_shape df.
Proof.
  intros (Hcols & Hlen & Hlen' & Hperm). unfold df_shape. rewrite Hcols.
  f_equal. apply Permutation_length in Hperm. unfold labelled_rows in Hperm.
  rewrite !length_combine in Hperm. lia.
Qed.

(** C10.  When the labels of the neighbor table and of the weight table
    are unique, [compute_gi_dataframe] gives the same result for the
    tables and for any reordering of their rows that keeps each row
    under its label: both tables are selected again by the column labels
    of [x]. *)
Theorem compute_gi_dataframe_row_order
    (x : DataFrame f64) (neighbors neighbors' : DataFrame Z)
    (weights weights' : DataFrame f64) :
  NoDup (index neighbors) -> NoDup (index weights) ->
  row_permutation neighbors neighbors' ->
  row_permutation weights weights' ->
  compute_gi_dataframe x neighbors' weights'
  = compute_gi_dataframe x neighbors weights.
Proof.
  intros Hn Hw Hpn Hpw. unfold compute_gi_dataframe.
  rewrite (df_shape_row_permutation _ _ Hpn), (df_shape_row_permutation _ _ Hpw).
  rewrite (loc_row_permutation _ _ _ Hn Hpn), (loc_row_permutation _ _ _ Hw Hpw).
  reflexivity.
Qed.

Lemma compute_gi_dataframe_row_order_witness :
  let a := LStr "a" in
  let b := LStr "b" in
  let x := Frame [LStr "g"] [a; b] [[Fin 1; Fin 2]] in
  let neighbors := Frame [a; b] [LInt 0] [[1%Z]; [0%Z]] in
  let neighbors' := Frame [b; a] [LInt 0] [[0%Z]; [1%Z]] in
  let weights := Frame [a; b] [LInt 0] [[Fin 1]; [Fin 1]] in
  let weights' := Frame [b; a] [LInt 0] [[Fin 1]; [Fin 1]] in
  compute_gi_dataframe x neighbors' weights'
  = compute_gi_dataframe x neighbors weights.
Proof.
  intros a b x neighbors neighbors' weights weights'.
  assert (Hnd : NoDup [a; b]).
  { repeat constructor; simpl; [|tauto]. intros [H|[]]. discriminate H. }
  apply (compute_gi_dataframe_row_order x neighbors neighbors' weights weights').
  - exact Hnd.
  - exact Hnd.
  - repeat split. apply perm_swap.
  - repeat split. apply perm_swap.
Defined.

(** ** p-values *)

Lemma sample_sf_survival : survival sample_sf.
Proof.
  unfold survival, sample_sf. split.
  - intros r Hr. pose proof (exp_pos (- r)) as Hp.
    assert (Rtrigo_def.exp (- r) <= 1).
    { rewrite <- exp_0. destruct (Req_dec r 0) as [->|Hne].
      - rewrite Ropp_0. lra.
      - left. apply exp_increasing. lra. }
    lra.
  - intros a b Ha Hab.
    assert (Rtrigo_def.exp (- b) <= Rtrigo_def.exp (- a)).
    { destruct (Req_dec a b) as [->|Hne]; [lra|].
      left. apply exp_increasing. lra. }
    lra.
Qed.

Section Significance.

(** [norm.sf] is a function of the library; what follows holds for every
    function with its interface. *)
Variable sf : R -> R.
Hypothesis sf_survival : survival sf.

Lemma pval_number (g : f64) : g <> NaN -> in_unit_interval (pval sf g).
Proof.
  destruct sf_survival as [Hrange _]. intros Hg.
  unfold in_unit_interval, pval.
  destruct g as [r| | |]; simpl; [| | |contradiction].
  - exists (2 * sf (Rabs r)). split; [reflexivity|].
    pose proof (Hrange (Rabs r) (Rabs_pos r)). lra.
  - exists (2 * 0). split; [reflexivity|lra].
  - exists (2 * 0). split; [reflexivity|lra].
Qed.

Lemma pval_antitone (g g' : f64) :
  g <> NaN -> g' <> NaN ->
  f64_le (F64.abs g) (F64.abs g') -> f64_le (pval sf g') (pval sf g).
Proof.
  destruct sf_survival as [Hrange Hmono]. intros Hg Hg' Hle. unfold pval.
  destruct g as [r| | |], g' as [r'| | |]; simpl in *; try contradiction;
    try lra.
  - pose proof (Hmono (Rabs r) (Rabs r') (Rabs_pos r) Hle). lra.
  - pose proof (Hrange (Rabs r) (Rabs_pos r)). lra.
  - pose proof (Hrange (Rabs r) (Rabs_pos r)). lra.
Qed.

Lemma pval_code (g : f64) : mul (norm_sf sf (F64.abs g)) (Fin 2) = pval sf g.
Proof. unfold pval. apply mul_comm. Qed.

(** C9 (as amended).  With a survival function that meets its interface,
    [gi_to_pval] keeps the labels and turns every entry [g] into
    [2 * SF(|g|)]; an entry that is not NaN gives a p-value in [0, 1],
    and of two such entries the one with the larger [|g|] has a p-value
    no larger than the other; a NaN entry gives NaN. *)
Theorem gi_to_pval_spec (G_i : DataFrame f64) :
  index (gi_to_pval sf G_i) = index G_i
  /\ columns (gi_to_pval sf G_i) = columns G_i
  /\ values (gi_to_pval sf G_i) = map (map (pval sf)) (values G_i)
  /\ (forall g, g <> NaN -> in_unit_interval (pval sf g))
  /\ (forall g g', g <> NaN -> g' <> NaN ->
        f64_le (F64.abs g) (F64.abs g') -> f64_le (pval sf g') (pval sf g))
  /\ pval sf NaN = NaN.
Proof.
  split; [reflexivity|]. split; [reflexivity|]. split; [|split; [|split]].
  - unfold gi_to_pval. simpl. apply map_ext. intros row.
    apply map_ext. intros g. apply pval_code.
  - exact pval_number.
  - exact pval_antitone.
  - reflexivity.
Qed.

End Significance.

Lemma gi_to_pval_spec_witness :
  let G_i := Frame [LStr "g"] [LStr "a"; LStr "b"] [[Fin (-2); PInf]] in
  index (gi_to_pval sample_sf G_i) = index G_i
  /\ columns (gi_to_pval sample_sf G_i) = columns G_i
  /\ values (gi_to_pval sample_sf G_i) = map (map (pval sample_sf)) (values G_i)
  /\ (forall g, g <> NaN -> in_unit_interval (pval sample_sf g))
  /\ (forall g g', g <> NaN -> g' <> NaN ->
        f64_le (F64.abs g) (F64.abs g') ->
        f64_le (pval sample_sf g') (pval sample_sf g))
  /\ pval sample_sf NaN = NaN.
Proof.
  intros G_i. exact (gi_to_pval_spec sample_sf sample_sf_survival G_i).
Defined.

(** C9 (as stated) fails: a NaN statistic, which the single-variable form
    produces for a zero denominator, gives a NaN p-value, and NaN is not
    a number of [0, 1]. *)
Lemma gi_to_pval_nan_not_in_unit_interval :
  ~ (forall (sf : R -> R) (G_i : DataFrame f64),
       survival sf ->
       Forall (Forall in_unit_interval) (values (gi_to_pval sf G_i))).
Proof.
  intros H.
  specialize (H sample_sf (Frame [LStr "g"] [LStr "a"] [[NaN]]) sample_sf_survival).
  simpl in H. inversion H as [|row rest Hrow _]; subst.
  inversion Hrow as [|p rest Hp _]; subst.
  destruct Hp as (v & Hv & _). discriminate Hv.
Qed.

(** ** The batched form *)

Lemma map2_map_same {A B C D : Type} (f : B -> C -> D) (g : A -> B) (h : A -> C)
    (l : list A) :
  map2 f (map g l) (map h l) = map (fun a => f (g a) (h a)) l.
Proof. induction l as [|a l IH]; simpl; [reflexivity|now rewrite IH]. Qed.

Lemma compute_gi_dataframe_ok (x : DataFrame f64) (neighbors : DataFrame Z)
    (weights : DataFrame f64) (nb : DataFrame Z) (wt : DataFrame f64)
    (n k : nat) :
  length (columns x) = n ->
  length (index neighbors) = n -> length (index weights) = n ->
  length (columns neighbors) = length (columns weights) ->
  loc neighbors (columns x) = Ok nb -> loc weights (columns x) = Ok wt ->
  tables_ok n k (df_values nb) (df_values wt) ->
  compute_gi_dataframe x neighbors weights =
  Ok (Frame (index x) (columns x)
        (map (batched_row
                (Csr n (map (fun i => sum_duplicates
                                        (pairs_of (df_values nb) (df_values wt) i))
                            (seq 0 n)))
                n (df_values wt))
             (values x))).
Proof.
  intros Hx Hn Hw Hc Hlocn Hlocw Hok.
  unfold compute_gi_dataframe, df_shape. simpl fst. simpl snd.
  rewrite Hx, Hn, Hw, Hc, !Nat.eqb_refl. simpl negb. cbv iota.
  rewrite Hlocn, Hlocw. simpl bind.
  rewrite (to_sparse_ok _ _ _ _ Hok). simpl bind.
  destruct Hok as (Hsn & Hsw & Hwn & Hww & Hrange).
  unfold shape in Hsn, Hsw. injection Hsn as Hn1 Hn2. injection Hsw as Hw1 Hw2.
  assert (HW : length (sum_axis1 (df_values wt)) = n)
    by (unfold sum_axis1; rewrite length_map; exact Hw1).
  assert (HS : length (sum_axis1 (mmap sq (df_values wt))) = n)
    by (unfold sum_axis1, mmap; simpl rows; rewrite !length_map; exact Hw1).
  unfold csr_dot_T. simpl dim. simpl ncols at 1. rewrite Hx, Nat.eqb_refl.
  simpl bind.
  rewrite mat_iop_same_shape.
  - simpl bind. rewrite mat_iop_same_shape.
    + simpl bind. simpl rows. f_equal. f_equal.
      rewrite !map_map. rewrite map2_map_same, map2_map_same.
      apply map_ext. intros xrow. unfold batched_row, batched_num, batched_denom.
      reflexivity.
    + unfold shape, nrows. simpl. rewrite HW.
      rewrite map2_length, !length_map. f_equal. lia.
    + unfold wf_matrix. simpl. rewrite !map_map, map2_map_same.
      rewrite Forall_map. apply Forall_forall. intros xrow _.
      rewrite map2_length, !length_map, length_seq. unfold sum_axis1.
      rewrite length_map. unfold nrows in Hw1. lia.
    + unfold wf_matrix. simpl. rewrite !Forall_map. apply Forall_forall.
      intros xrow _. rewrite !length_map. unfold radical.
      rewrite map2_length. lia.
  - unfold shape, nrows. simpl. rewrite HW, !length_map. reflexivity.
  - unfold wf_matrix. simpl. rewrite Forall_map. apply Forall_forall.
    intros xrow _. now rewrite !length_map, length_seq.
  - unfold wf_matrix. simpl. rewrite !Forall_map. apply Forall_forall.
    intros xrow _. now rewrite length_map.
Qed.

Lemma nth_batched_num (neighbors : matrix Z) (weights : matrix f64)
    (xrow : list f64) (n i : nat) :
  (i < n)%nat ->
  nth i (batched_num
           (Csr n (map (fun i => sum_duplicates (pairs_of neighbors weights i))
                       (seq 0 n))) xrow) NaN
  = weighted_sum (fun j => nth j xrow NaN)
                 (sum_duplicates (pairs_of neighbors weights i)).
Proof.
  intros Hi. unfold batched_num. simpl entries. rewrite map_map.
  rewrite (nth_map_in _ _ _ 0%nat) by now rewrite length_seq.
  now rewrite seq_nth.
Qed.

(** The value of sample [i] in the row that the batched form computes for
    one variable. *)
Lemma nth_batched_row (S : csr) (weights : matrix f64) (xrow : list f64)
    (n i : nat) :
  length (entries S) = n -> nrows weights = n -> length xrow = n ->
  (i < n)%nat ->
  nth i (batched_row S n weights xrow) NaN
  = div (sub (nth i (batched_num S xrow) NaN)
             (mul (Spec.xbar xrow) (Spec.W weights i)))
        (zero_to_one (Spec.denom xrow weights i)).
Proof.
  intros HS Hw Hx Hi. unfold batched_row.
  assert (HW : length (sum_axis1 weights) = n)
    by (unfold sum_axis1; now rewrite length_map).
  assert (HS1 : length (sum_axis1 (mmap sq weights)) = n)
    by (unfold sum_axis1, mmap; simpl; now rewrite !length_map).
  assert (Hnum : length (batched_num S xrow) = n)
    by (unfold batched_num; now rewrite length_map).
  assert (Hden : length (batched_denom n weights xrow) = n)
    by (unfold batched_denom; rewrite !length_map, radical_length; lia).
  rewrite (nth_map2 _ _ _ _ NaN NaN)
    by (rewrite ?map2_length, ?length_map; lia).
  rewrite (nth_map2 _ _ _ _ NaN NaN) by (rewrite ?length_map; lia).
  rewrite (nth_map_in _ _ _ NaN) by lia.
  unfold batched_denom.
  rewrite (nth_map_in _ _ _ NaN) by (rewrite length_map, radical_length; lia).
  rewrite (nth_map_in _ _ _ NaN) by (rewrite radical_length; lia).
  rewrite nth_radical by lia.
  rewrite std_ddof1_s by lia.
  unfold sum_axis1, mmap. simpl rows.
  rewrite (nth_map_in _ _ _ []) by (unfold nrows in Hw; lia).
  rewrite (nth_map_in _ _ _ []) by (rewrite length_map; unfold nrows in Hw; lia).
  rewrite (nth_map_in _ _ _ []) by (unfold nrows in Hw; lia).
  unfold Spec.denom, Spec.W, Spec.S1. rewrite Hw. reflexivity.
Qed.

(** ** Values that are not finite *)

Lemma sum_In_NaN (l : list f64) : In NaN l -> F64.sum l = NaN.
Proof.
  induction l as [|a l IH]; intros H; [contradiction|].
  rewrite sum_cons. destruct H as [->|H]; [reflexivity|].
  rewrite (IH H). now destruct a.
Qed.

Lemma sum_PInf_inv (l : list f64) : F64.sum l = PInf -> In PInf l.
Proof.
  induction l as [|a l IH]; [discriminate|].
  rewrite sum_cons. intros H.
  destruct a; [right|now left|exfalso|exfalso];
    destruct (F64.sum l); simpl in H; try discriminate; auto.
Qed.

Lemma sum_NInf_inv (l : list f64) : F64.sum l = NInf -> In NInf l.
Proof.
  induction l as [|a l IH]; [discriminate|].
  rewrite sum_cons. intros H.
  destruct a; [right|exfalso|now left|exfalso];
    destruct (F64.sum l); simpl in H; try discriminate; auto.
Qed.

Lemma sum_finite_inv (l : list f64) : finite (F64.sum l) -> Forall finite l.
Proof.
  induction l as [|a l IH]; [constructor|].
  rewrite sum_cons. intros H.
  destruct a; destruct (F64.sum l); simpl in H; try contradiction.
  constructor; [exact I|]. apply IH. exact I.
Qed.

Lemma of_nat_pos_neq (n : nat) : (1 <= n)%nat -> IZR (Z.of_nat n) <> 0.
Proof. intros H. apply not_0_IZR. lia. Qed.

Lemma of_nat_pos (n : nat) : (1 <= n)%nat -> 0 < IZR (Z.of_nat n).
Proof. intros H. apply (IZR_lt 0). lia. Qed.

(** The standard deviation of data with an entry that is not finite is
    NaN: the mean is not finite, and so some deviation is NaN. *)
Lemma s_not_finite (x : list f64) :
  Exists (fun a => ~ finite a) x -> Spec.s x = NaN.
Proof.
  intros Hex.
  assert (Hlen : (1 <= length x)%nat)
    by (destruct Hex; simpl; lia).
  assert (Hsum : ~ finite (F64.sum x)).
  { intros Hf. apply sum_finite_inv in Hf.
    apply Exists_exists in Hex as (a & Hin & Ha).
    rewrite Forall_forall in Hf. now apply Ha, Hf. }
  pose proof (of_nat_pos _ Hlen) as Hpos.
  assert (Hdev : In NaN (map (fun v => sq (sub v (Spec.xbar x))) x)).
  { unfold Spec.xbar, of_nat, of_Z.
    destruct (F64.sum x) eqn:E; simpl.
    - now elim Hsum.
    - destruct (Rlt_dec (IZR (Z.of_nat (length x))) 0); [lra|].
      apply in_map_iff. exists PInf. split; [reflexivity|].
      now apply sum_PInf_inv.
    - destruct (Rlt_dec (IZR (Z.of_nat (length x))) 0); [lra|].
      apply in_map_iff. exists NInf. split; [reflexivity|].
      now apply sum_NInf_inv.
    - destruct x as [|a x]; [simpl in Hlen; lia|].
      left. now destruct a. }
  unfold Spec.s. now rewrite (sum_In_NaN _ Hdev).
Qed.

Lemma div_NaN_r (a : f64) : div a NaN = NaN.
Proof. now destruct a. Qed.

(** ** Selecting a table by its own labels *)

Lemma filter_label_absent {A : Type} (l : label) (L : list (label * A)) :
  ~ In l (map fst L) -> filter (fun p => label_eqb (fst p) l) L = [].
Proof.
  induction L as [|q L IH]; intros Hnotin; [reflexivity|]. simpl.
  destruct (label_eqb (fst q) l) eqn:E.
  - apply label_eqb_eq in E. exfalso. apply Hnotin. now left.
  - apply IH. intros H. apply Hnotin. now right.
Qed.

Lemma rows_of_own_labels {A : Type} (idx : list label) (vals : list (list A)) :
  NoDup idx -> length vals = length idx ->
  map (fun l => filter (fun p => label_eqb (fst p) l) (combine idx vals)) idx
  = map (fun p => [p]) (combine idx vals).
Proof.
  intros Hnd. revert vals.
  induction Hnd as [|l idx Hnotin _ IH]; intros [|v vals] Hlen;
    simpl in Hlen; try discriminate; [reflexivity|].
  cbn [map combine filter fst]. rewrite (proj2 (label_eqb_eq l l) eq_refl).
  rewrite filter_label_absent
    by (rewrite map_fst_combine_le by lia; exact Hnotin).
  f_equal. rewrite <- IH by lia.
  apply map_ext_in. intros l' Hin.
  destruct (label_eqb l l') eqn:E; [|reflexivity].
  apply label_eqb_eq in E. subst l'. contradiction.
Qed.

Lemma concat_singletons {A : Type} (l : list A) :
  concat (map (fun p => [p]) l) = l.
Proof. induction l as [|a l IH]; simpl; [reflexivity|now rewrite IH]. Qed.

Lemma map_snd_combine_le {A B : Type} (l1 : list A) (l2 : list B) :
  length l1 = length l2 -> map snd (combine l1 l2) = l2.
Proof.
  revert l2. induction l1 as [|a l1 IH]; intros [|b l2] H; simpl in *;
    try discriminate; [reflexivity|].
  f_equal. apply IH. lia.
Qed.

(** A table with unique labels, selected by its own labels in their
    order, is returned as it is. *)
Lemma loc_own_labels {A : Type} (df : DataFrame A) :
  NoDup (index df) -> length (values df) = length (index df) ->
  loc df (index df) = Ok df.
Proof.
  intros Hnd Hlen. unfold loc.
  rewrite (mapM_ok_map _ (rows_of df)).
  - simpl. unfold rows_of. rewrite rows_of_own_labels by assumption.
    rewrite concat_singletons, map_fst_combine_le, map_snd_combine_le by lia.
    now destruct df.
  - apply Forall_forall. intros l Hin.
    destruct (rows_of df l) eqn:E; [|reflexivity].
    exfalso. apply In_nth with (d := LInt 0) in Hin as (i & Hi & <-).
    assert (Hrow : In (nth i (index df) (LInt 0), nth i (values df) [])
                      (rows_of df (nth i (index df) (LInt 0)))).
    { unfold rows_of. apply filter_In. split.
      - rewrite <- combine_nth by lia. apply nth_In.
        rewrite length_combine. lia.
      - apply label_eqb_eq. reflexivity. }
    rewrite E in Hrow. contradiction.
Qed.

(** ** The guard for a zero divisor *)

Lemma zero_to_one_nonzero (v : f64) : v <> Fin 0 -> zero_to_one v = v.
Proof.
  intros H. unfold zero_to_one. destruct v as [r| | |]; simpl; try reflexivity.
  destruct (Req_dec_T r 0) as [->|_]; [now elim H|reflexivity].
Qed.

Lemma df_values_frame {A : Type} (m : matrix A) (idx cols : list label) :
  length cols = ncols m -> df_values (Frame idx cols (rows m)) = m.
Proof. intros H. unfold df_values. simpl. rewrite H. now destruct m. Qed.

(** ** A constant variable, in exact arithmetic *)

Lemma sum_repeat_Fin (c : R) (n : nat) :
  F64.sum (repeat (Fin c) n) = Fin (INR n * c).
Proof.
  induction n as [|n IH].
  - simpl. unfold zero. f_equal. lra.
  - change (repeat (Fin c) (S n)) with (Fin c :: repeat (Fin c) n).
    rewrite sum_cons, IH, S_INR. simpl. f_equal. lra.
Qed.

Lemma xbar_constant (c : R) (n : nat) :
  (1 <= n)%nat -> Spec.xbar (repeat (Fin c) n) = Fin c.
Proof.
  intros Hn. unfold Spec.xbar. rewrite sum_repeat_Fin, repeat_length.
  unfold of_nat, of_Z. simpl.
  pose proof (of_nat_pos_neq n Hn) as Hne.
  destruct (Req_dec_T (IZR (Z.of_nat n)) 0); [contradiction|].
  f_equal. rewrite INR_IZR_INZ. now field.
Qed.

(** Exact numbers give a constant variable the standard deviation 0. *)
Lemma s_constant (c : R) (n : nat) :
  (2 <= n)%nat -> Spec.s (repeat (Fin c) n) = Fin 0.
Proof.
  intros Hn. unfold Spec.s. rewrite xbar_constant by lia.
  rewrite map_repeat. unfold sub, sq. simpl neg. simpl add. simpl mul.
  rewrite sum_repeat_Fin, repeat_length. unfold of_nat, of_Z. simpl.
  assert (Hne : IZR (Z.of_nat n) + - (1) <> 0).
  { pose proof (IZR_le 2 (Z.of_nat n) ltac:(lia)). lra. }
  destruct (Req_dec_T (IZR (Z.of_nat n) + - (1)) 0); [contradiction|].
  replace (INR n * ((c + - c) * (c + - c)) / (IZR (Z.of_nat n) + - (1)))
    with 0 by (field; exact Hne).
  simpl. destruct (Rlt_dec 0 0); [lra|]. now rewrite sqrt_0.
Qed.

Lemma nth_batched_denom (weights : matrix f64) (xrow : list f64) (n i : nat) :
  nrows weights = n -> length xrow = n -> (i < n)%nat ->
  nth i (batched_denom n weights xrow) NaN
  = zero_to_one (Spec.denom xrow weights i).
Proof.
  intros Hw Hx Hi. unfold batched_denom.
  assert (HW : length (sum_axis1 weights) = n)
    by (unfold sum_axis1; now rewrite length_map).
  assert (HS1 : length (sum_axis1 (mmap sq weights)) = n)
    by (unfold sum_axis1, mmap; simpl; now rewrite !length_map).
  rewrite (nth_map_in _ _ _ NaN) by (rewrite length_map, radical_length; lia).
  rewrite (nth_map_in _ _ _ NaN) by (rewrite radical_length; lia).
  rewrite nth_radical by lia.
  rewrite std_ddof1_s by lia.
  unfold sum_axis1, mmap. simpl rows.
  rewrite (nth_map_in _ _ _ []) by (rewrite length_map; unfold nrows in Hw; lia).
  rewrite (nth_map_in _ _ _ []) by (unfold nrows in Hw; lia).
  rewrite (nth_map_in _ _ _ []) by (unfold nrows in Hw; lia).
  unfold Spec.denom, Spec.W, Spec.S1. rewrite Hw. reflexivity.
Qed.

(** ** The program over the exact numbers *)

Lemma compute_gi_single_exact :
  Arith.compute_gi_single exact_arith = compute_gi_single.
Proof. reflexivity. Qed.

Lemma kernel_exact : Arith.kernel exact_arith = kernel.
Proof. reflexivity. Qed.

Lemma normalize_exact : Arith.normalize exact_arith = normalize.
Proof. reflexivity. Qed.

Lemma compute_gi_dataframe_exact (x : DataFrame f64) (neighbors : DataFrame Z)
    (weights : DataFrame f64) :
  Arith.compute_gi_dataframe exact_arith x neighbors weights
  = compute_gi_dataframe x neighbors weights.
Proof.
  unfold Arith.compute_gi_dataframe, compute_gi_dataframe.
  change (Arith.num exact_arith) with f64.
  destruct (negb _); [reflexivity|].
  destruct (negb _); [reflexivity|].
  destruct (negb _); [reflexivity|].
  destruct (loc neighbors (columns x)) as [nb|e]; [|reflexivity].
  destruct (loc weights (columns x)) as [wt|e]; [|reflexivity].
  simpl bind.
  unfold Arith._to_sparse, _to_sparse, Arith.csr_matrix, csr_matrix.
  destruct (negb _); [reflexivity|].
  destruct (_ || _); reflexivity.
Qed.

(** ** The radius index of a float64 factor *)

Lemma radius_index_float_ok (n : nat) (f : PrimFloat.float) (q : Q) :
  PrimFloat.eqb f PrimFloat.zero = false ->
  B64.value (PrimFloat.div (B64.of_Z (Z.of_nat n)) f) = Some q ->
  Arith.radius_index n f = Ok (Qceiling q).
Proof.
  intros Hf Hq. unfold Arith.radius_index, B64.is_zero, B64.ceil.
  now rewrite Hf, Hq.
Qed.

(** The column of the 1-indexed rank [r]; a rank of 0 or below counts
    from the end, as Python's negative indices do. *)
Lemma py_index_rank (n : nat) (r : Z) :
  (- Z.of_nat n < r <= Z.of_nat n)%Z ->
  py_index n (r - 1) =
  Ok (Z.to_nat ((if (1 <=? r)%Z then r else Z.of_nat n + r) - 1)).
Proof.
  intros H. unfold py_index.
  destruct (Z.leb_spec 1 r) as [H1|H1].
  - destruct (Z.leb_spec 0 (r - 1)); [|lia].
    destruct (Z.ltb_spec (r - 1) (Z.of_nat n)); [|lia]. reflexivity.
  - destruct (Z.leb_spec 0 (r - 1)); [lia|]. simpl andb.
    destruct (Z.leb_spec (- Z.of_nat n) (r - 1)); [|lia].
    destruct (Z.ltb_spec (r - 1) 0); [|lia]. simpl andb.
    replace (Z.of_nat n + (r - 1))%Z with (Z.of_nat n + r - 1)%Z by lia.
    reflexivity.
Qed.

Lemma compute_weights_float_ok (distances : matrix f64)
    (f : PrimFloat.float) (r : Z) (c : nat) :
  Arith.radius_index (ncols distances) f = Ok r ->
  py_index (ncols distances) (r - 1) = Ok c ->
  Arith.compute_weights exact_arith distances f =
  Ok (Matrix (ncols distances)
        (normalize (col_op kernel (rows distances)
                      (map (fun row => nth c row NaN) (rows distances))))).
Proof.
  intros Hr Hc. unfold Arith.compute_weights.
  change (Arith.num exact_arith) with f64. rewrite Hr. simpl bind.
  rewrite Hc. reflexivity.
Qed.

(** The rows of the matrix that line 104 returns. *)
Lemma nth_weights (distances : matrix f64) (c i : nat) :
  (i < nrows distances)%nat ->
  nth i (normalize (col_op kernel (rows distances)
                      (map (fun row => nth c row NaN) (rows distances)))) []
  = let row := nth i (rows distances) [] in
    let raw := map (fun d => kernel d (nth c row NaN)) row in
    map (fun v => div v (zero_to_one (F64.sum raw))) raw.
Proof.
  intros Hi. cbv zeta.
  assert (Hlen : length (col_op kernel (rows distances)
                   (map (fun row => nth c row NaN) (rows distances)))
                 = length (rows distances))
    by (apply col_op_length; now rewrite length_map).
  rewrite nth_normalize by (rewrite Hlen; exact Hi).
  rewrite nth_col_op by (rewrite ?length_map; auto).
  now rewrite (nth_map_in _ _ _ []) by exact Hi.
Qed.

Lemma weights_shape (distances : matrix f64) (c : nat) :
  shape (Matrix (ncols distances)
           (normalize (col_op kernel (rows distances)
                         (map (fun row => nth c row NaN) (rows distances)))))
  = shape distances.
Proof.
  unfold shape, nrows. simpl. f_equal.
  rewrite normalize_length, col_op_length; [reflexivity|now rewrite length_map].
Qed.

(** C3 (as amended).  For a float64 factor other than 0, let q be the
    float64 quotient [n_neighbors / f] and r = ceil(q).  When q is a
    number and r - 1 is an index that Python accepts, [compute_weights]
    returns a matrix of the shape of the distances in which every weight
    is the raw weight [exp(-d^2 / sigma^2)] divided by the sum of the raw
    weights of the row, or by 1 when that sum is exactly 0; sigma is the
    distance of the row at the 1-indexed rank r (at the rank n_neighbors +
    r, counted from the end, when r is 0 or below). *)
Theorem compute_weights_float_formula (distances : matrix f64)
    (f : PrimFloat.float) (q : Q) :
  wf_matrix distances ->
  PrimFloat.eqb f PrimFloat.zero = false ->
  B64.value (PrimFloat.div (B64.of_Z (Z.of_nat (ncols distances))) f) = Some q ->
  (- Z.of_nat (ncols distances) < Qceiling q <= Z.of_nat (ncols distances))%Z ->
  let rank := if (1 <=? Qceiling q)%Z then Qceiling q
              else (Z.of_nat (ncols distances) + Qceiling q)%Z in
  exists W,
    Arith.compute_weights exact_arith distances f = Ok W
    /\ shape W = shape distances
    /\ forall i k, (i < nrows distances)%nat -> (k < ncols distances)%nat ->
         entry NaN W i k = Spec.weight distances rank i k.
Proof.
  intros Hwf Hf Hq Hr rank.
  eexists. split; [|split].
  - eapply compute_weights_float_ok.
    + apply radius_index_float_ok; eassumption.
    + apply py_index_rank. exact Hr.
  - apply weights_shape.
  - intros i k Hi Hk. unfold entry, Spec.weight. simpl rows. fold rank.
    rewrite nth_weights by exact Hi. cbv zeta.
    pose proof (wf_matrix_nth _ _ Hwf Hi) as Hrow.
    rewrite (nth_map_in _ _ _ NaN) by (rewrite length_map; lia).
    rewrite (nth_map_in _ _ _ NaN) by lia.
    rewrite kernel_raw_weight. unfold zero_to_one, one.
    rewrite (map_ext (fun v => kernel v _) _ (fun d => kernel_raw_weight d _)).
    reflexivity.
Qed.

Lemma compute_weights_float_formula_witness :
  exists W,
    Arith.compute_weights exact_arith (Matrix 2 [[Fin 1; Fin 2]]) (B64.of_Z 3) = Ok W
    /\ shape W = shape (Matrix 2 [[Fin 1; Fin 2]])
    /\ forall i k, (i < 1)%nat -> (k < 2)%nat ->
         entry NaN W i k = Spec.weight (Matrix 2 [[Fin 1; Fin 2]]) 1 i k.
Proof.
  apply (compute_weights_float_formula (Matrix 2 [[Fin 1; Fin 2]]) (B64.of_Z 3)
           (6004799503160661 # 9007199254740992)).
  - repeat constructor.
  - reflexivity.
  - vm_compute. reflexivity.
  - vm_compute. split; [reflexivity|discriminate].
Defined.

(** C3 (as stated) fails, in two ways.  With four neighbors and the
    float64 factor 4/3 the quotient [4 / f] is rounded to 3.0, so the
    bandwidth is taken at rank 3, while the ceiling of 4 over the number
    that [f] stands for (just below 4/3) is 4: on the distances 0, 0, 0, 1
    the bandwidth of rank 3 is 0 and every weight is NaN, and the formula
    at rank 4 gives a number.  With one neighbor and the factor 1/2 the
    rank is 2, and the call raises. *)
Lemma compute_weights_radius_of_rounded_quotient :
  let f := PrimFloat.div (B64.of_Z 4) (B64.of_Z 3) in
  let distances := Matrix 4 [[Fin 0; Fin 0; Fin 0; Fin 1]] in
  (exists qf,
     B64.value f = Some qf
     /\ Qceiling (4 / qf) = 4%Z
     /\ Arith.radius_index 4 f = Ok 3%Z
     /\ Arith.compute_weights exact_arith distances f
        = Ok (Matrix 4 [[NaN; NaN; NaN; NaN]])
     /\ Spec.weight distances 4 0 0 <> NaN)
  /\ Arith.compute_weights exact_arith (Matrix 1 [[Fin 1]])
       (PrimFloat.div PrimFloat.one PrimFloat.two) = Raise IndexError.
Proof.
  cbv zeta. split; [|reflexivity].
  eexists. split; [vm_compute; reflexivity|].
  split; [vm_compute; reflexivity|].
  split; [vm_compute; reflexivity|].
  split.
  - rewrite (compute_weights_float_ok _ _ 3 2);
      [|vm_compute; reflexivity|reflexivity].
    simpl ncols. do 2 f_equal.
    change (normalize [map (fun v => kernel v (Fin 0))
                           [Fin 0; Fin 0; Fin 0; Fin 1]]
            = [[NaN; NaN; NaN; NaN]]).
    cbn [map]. rewrite kernel_zero_bandwidth.
    unfold normalize, col_op. cbn [map map2].
    rewrite sum_In_NaN by (left; reflexivity).
    unfold zero_to_one. cbn [is_zero]. now rewrite !div_NaN_r.
  - assert (E : forall x, Spec.raw_weight (Fin x) (Fin 1)
                        = Fin (Rtrigo_def.exp (-1 * (x * x) / (1 * 1)))).
    { intros x. rewrite <- kernel_raw_weight. apply kernel_finite. lra. }
    unfold Spec.weight. cbn [rows]. change (Z.to_nat (4 - 1)) with 3%nat.
    cbn [nth map]. rewrite !E. unfold F64.sum. cbn [fold_right].
    unfold zero. cbn [add].
    set (a := Rtrigo_def.exp (-1 * (0 * 0) / (1 * 1))).
    set (b := Rtrigo_def.exp (-1 * (1 * 1) / (1 * 1))).
    assert (Ha : 0 < a) by apply exp_pos.
    assert (Hb : 0 < b) by apply exp_pos.
    unfold is_zero.
    destruct (Req_dec_T (a + (a + (a + (b + 0)))) 0) as [H|H]; [exfalso; lra|].
    cbn [div]. destruct (Req_dec_T (a + (a + (a + (b + 0)))) 0); [contradiction|].
    discriminate.
Qed.

(** ** The sign of the weights *)

Lemma exp_nonpos_le_1 (t : R) : t <= 0 -> Rtrigo_def.exp t <= 1.
Proof.
  intros [Ht| ->]; [|rewrite exp_0; lra].
  left. rewrite <- exp_0. now apply exp_increasing.
Qed.

Lemma exp_quotient_unit (x s : R) :
  s * s <> 0 -> 0 <= Rtrigo_def.exp (-1 * (x * x) / (s * s)) <= 1.
Proof.
  intros Hs. split; [left; apply exp_pos|]. apply exp_nonpos_le_1.
  assert (0 < s * s) by nra.
  assert (0 <= x * x) by nra.
  unfold Rdiv. assert (0 < / (s * s)) by now apply Rinv_0_lt_compat.
  nra.
Qed.

(** The raw weight is a number of [0, 1] or NaN, whatever the distance
    and the bandwidth. *)
Lemma kernel_unit (d sigma : f64) :
  kernel d sigma = NaN \/ in_unit_interval (kernel d sigma).
Proof.
  unfold kernel, in_unit_interval, sq.
  destruct d as [x| | |], sigma as [s| | |]; simpl; unfold by_sign;
    repeat match goal with
           | |- context [Rlt_dec ?a ?b] => destruct (Rlt_dec a b); simpl
           | |- context [Req_dec_T ?a ?b] => destruct (Req_dec_T a b); simpl
           end;
    try (left; reflexivity); try (exfalso; lra); try (exfalso; nra);
    right; eexists; (split; [reflexivity|]);
    try lra; try (rewrite exp_0; lra); now apply exp_quotient_unit.
Qed.

Lemma unit_or_nan_list (l : list f64) :
  Forall (fun v => v = NaN \/ in_unit_interval v) l ->
  In NaN l \/ exists rs, l = map Fin rs /\ Forall (fun r => 0 <= r) rs.
Proof.
  induction 1 as [|v l [->|(r & -> & Hr)] _ [IH|(rs & -> & Hrs)]].
  - right. now exists [].
  - left. now left.
  - left. now left.
  - left. now right.
  - right. exists (r :: rs). split; [reflexivity|]. constructor; [lra|exact Hrs].
Qed.

(** Lines 102-104 on one row of raw weights: every quotient is a number
    of [0, 1] or NaN. *)
Lemma normalized_row_unit (raw : list f64) :
  Forall (fun v => v = NaN \/ in_unit_interval v) raw ->
  Forall (fun v => v = NaN \/ in_unit_interval v)
         (map (fun v => div v (zero_to_one (F64.sum raw))) raw).
Proof.
  intros H. destruct (unit_or_nan_list _ H) as [Hnan|(rs & -> & Hrs)].
  - rewrite (sum_In_NaN _ Hnan). rewrite Forall_map. apply Forall_forall.
    intros v _. left. unfold zero_to_one. cbn [is_zero]. apply div_NaN_r.
  - rewrite sum_map_Fin.
    pose proof (Rsum_nonneg _ Hrs) as Ht.
    set (t := if Req_dec_T (Rsum rs) 0 then 1 else Rsum rs).
    assert (Ht' : 0 < t) by (unfold t; destruct (Req_dec_T (Rsum rs) 0); lra).
    assert (Hz : zero_to_one (Fin (Rsum rs)) = Fin t).
    { unfold zero_to_one, is_zero, t, one. now destruct (Req_dec_T (Rsum rs) 0). }
    rewrite Hz, !Forall_map. apply Forall_forall. intros r Hr. right.
    exists (r / t). split.
    + simpl. destruct (Req_dec_T t 0); [lra|reflexivity].
    + rewrite Forall_forall in Hrs. pose proof (Hrs r Hr) as Hr0.
      pose proof (Rsum_In_le rs r (proj2 (Forall_forall _ _) Hrs) Hr) as Hle.
      assert (Hrt : r <= t).
      { unfold t. destruct (Req_dec_T (Rsum rs) 0); lra. }
      split.
      * apply Rmult_le_pos; [exact Hr0|]. left. now apply Rinv_0_lt_compat.
      * apply (Rmult_le_reg_r t); [exact Ht'|].
        unfold Rdiv. rewrite Rmult_assoc, Rinv_l by lra. lra.
Qed.

(** The raw weight of the neighbor at the bandwidth rank itself is
    exp(-1), or NaN when the square of the bandwidth is 0, infinite or
    NaN. *)
Lemma kernel_self (sigma : f64) :
  kernel sigma sigma = NaN \/ exists v, kernel sigma sigma = Fin v /\ 0 < v.
Proof.
  unfold kernel, sq.
  destruct sigma as [s| | |]; simpl; unfold by_sign;
    repeat match goal with
           | |- context [Rlt_dec ?a ?b] => destruct (Rlt_dec a b); simpl
           | |- context [Req_dec_T ?a ?b] => destruct (Req_dec_T a b); simpl
           end;
    try (left; reflexivity); try (exfalso; lra); try (exfalso; nra);
    right; eexists; (split; [reflexivity|]); apply exp_pos.
Qed.

(** The raw sum of a row that holds its own bandwidth is never 0. *)
Lemma raw_sum_not_zero (raw : list f64) (a : f64) :
  Forall (fun v => v = NaN \/ in_unit_interval v) raw ->
  In a raw -> (a = NaN \/ exists v, a = Fin v /\ 0 < v) ->
  F64.sum raw <> Fin 0.
Proof.
  intros H Hin Ha. destruct (unit_or_nan_list _ H) as [Hnan|(rs & -> & Hrs)].
  - rewrite (sum_In_NaN _ Hnan). discriminate.
  - rewrite sum_map_Fin. intros [= E].
    destruct Ha as [->|(v & -> & Hv)].
    + apply in_map_iff in Hin as (r & Hr & _). discriminate.
    + apply in_map_iff in Hin as (r & [= ->] & Hr).
      pose proof (Rsum_In_le rs v Hrs Hr). lra.
Qed.

(** C5 (as amended).  Whenever [compute_weights] returns (a float64
    factor other than 0 whose quotient q = n_neighbors / f is a number
    with ceil(q) - 1 an index that Python accepts), the matrix has the
    shape of the distance matrix; every row is the row of raw weights
    divided by their sum, which is never 0 (the neighbor at the bandwidth
    rank has the raw weight exp(-1) or NaN), so that no row is left
    unnormalized; and every weight is a number of [0, 1] or NaN: no
    weight is negative. *)
Theorem compute_weights_shape_and_sign (distances : matrix f64)
    (f : PrimFloat.float) (q : Q) :
  wf_matrix distances ->
  PrimFloat.eqb f PrimFloat.zero = false ->
  B64.value (PrimFloat.div (B64.of_Z (Z.of_nat (ncols distances))) f) = Some q ->
  (- Z.of_nat (ncols distances) < Qceiling q <= Z.of_nat (ncols distances))%Z ->
  let rank := if (1 <=? Qceiling q)%Z then Qceiling q
              else (Z.of_nat (ncols distances) + Qceiling q)%Z in
  exists W,
    Arith.compute_weights exact_arith distances f = Ok W
    /\ shape W = shape distances
    /\ wf_matrix W
    /\ Forall (Forall (fun w => w = NaN \/ in_unit_interval w)) (rows W)
    /\ forall i, (i < nrows distances)%nat ->
         let row := nth i (rows distances) [] in
         let sigma := nth (Z.to_nat (rank - 1)) row NaN in
         let raw := map (fun d => Spec.raw_weight d sigma) row in
         F64.sum raw <> Fin 0
         /\ nth i (rows W) [] = map (fun v => div v (F64.sum raw)) raw.
Proof.
  intros Hwf Hf Hq Hr rank.
  set (c := Z.to_nat (rank - 1)).
  assert (Hc : py_index (ncols distances) (Qceiling q - 1) = Ok c)
    by (apply py_index_rank; exact Hr).
  pose proof (py_index_lt _ _ _ Hc) as Hlt.
  exists (Matrix (ncols distances)
            (normalize (col_op kernel (rows distances)
                          (map (fun row => nth c row NaN) (rows distances))))).
  assert (Hlen : length (normalize (col_op kernel (rows distances)
                   (map (fun row => nth c row NaN) (rows distances))))
                 = nrows distances).
  { rewrite normalize_length, col_op_length; [reflexivity|now rewrite length_map]. }
  assert (Hraw : forall row,
            Forall (fun v => v = NaN \/ in_unit_interval v)
                   (map (fun d => kernel d (nth c row NaN)) row)).
  { intros row. rewrite Forall_map. apply Forall_forall.
    intros d _. apply kernel_unit. }
  split; [|split; [|split; [|split]]].
  - eapply compute_weights_float_ok; [|exact Hc].
    apply radius_index_float_ok; eassumption.
  - apply weights_shape.
  - unfold wf_matrix. cbn [rows ncols]. apply Forall_forall. intros row Hin.
    cbn [rows] in Hin. change (Arith.num exact_arith) with f64 in *.
    destruct (In_nth _ _ [] Hin) as (i & Hi & <-). rewrite Hlen in Hi.
    rewrite nth_weights by exact Hi. cbv zeta. rewrite !length_map.
    now apply wf_matrix_nth.
  - cbn [rows]. apply Forall_forall. intros row Hin. cbn [rows] in Hin.
    change (Arith.num exact_arith) with f64 in *.
    destruct (In_nth _ _ [] Hin) as (i & Hi & <-). rewrite Hlen in Hi.
    rewrite nth_weights by exact Hi. cbv zeta.
    apply normalized_row_unit, Hraw.
  - intros i Hi. cbv zeta. cbn [rows]. fold c.
    rewrite <- (map_ext _ _ (fun d => kernel_raw_weight d _)).
    pose proof (wf_matrix_nth _ _ Hwf Hi) as Hrow.
    assert (Hsum : F64.sum (map (fun d => kernel d (nth c (nth i (rows distances) []) NaN))
                                (nth i (rows distances) [])) <> Fin 0).
    { apply (raw_sum_not_zero _ (kernel (nth c (nth i (rows distances) []) NaN)
                                        (nth c (nth i (rows distances) []) NaN))).
      - apply Hraw.
      - apply in_map_iff. eexists. split; [reflexivity|]. apply nth_In. lia.
      - apply kernel_self. }
    split; [exact Hsum|].
    rewrite nth_weights by exact Hi. cbv zeta.
    now rewrite zero_to_one_nonzero by exact Hsum.
Qed.

Lemma compute_weights_shape_and_sign_witness :
  let distances := Matrix 2 [[Fin 1; Fin 2]] in
  exists W,
    Arith.compute_weights exact_arith distances (B64.of_Z 3) = Ok W
    /\ shape W = shape distances
    /\ wf_matrix W
    /\ Forall (Forall (fun w => w = NaN \/ in_unit_interval w)) (rows W)
    /\ forall i, (i < nrows distances)%nat ->
         let row := nth i (rows distances) [] in
         let sigma := nth (Z.to_nat (1 - 1)) row NaN in
         let raw := map (fun d => Spec.raw_weight d sigma) row in
         F64.sum raw <> Fin 0
         /\ nth i (rows W) [] = map (fun v => div v (F64.sum raw)) raw.
Proof.
  apply (compute_weights_shape_and_sign (Matrix 2 [[Fin 1; Fin 2]]) (B64.of_Z 3)
           (6004799503160661 # 9007199254740992)).
  - repeat constructor.
  - reflexivity.
  - vm_compute. reflexivity.
  - vm_compute. split; [reflexivity|discriminate].
Defined.

(** C5 (as stated) fails in float64: the two neighbors of a sample at
    the distance 2^-600 give a positive bandwidth whose square is rounded
    to 0, the raw weights are exp(0/0), and the row is NaN throughout,
    for any function [exp] that returns NaN on NaN: the row sums neither
    to 1 nor to 0, and its weights are not numbers. *)
Lemma compute_weights_row_sum_not_one :
  let tiny := FloatOps.Z.ldexp PrimFloat.one (-600) in
  let distances := Matrix 2 [[tiny; tiny]] in
  PrimFloat.ltb PrimFloat.zero tiny = true
  /\ Arith.radius_index 2 PrimFloat.one = Ok 2%Z
  /\ forall exp : PrimFloat.float -> PrimFloat.float,
       exp PrimFloat.nan = PrimFloat.nan ->
       Arith.compute_weights (binary64 exp) distances PrimFloat.one
       = Ok (Matrix 2 [[PrimFloat.nan; PrimFloat.nan]])
       /\ Arith.sum (binary64 exp) [PrimFloat.nan; PrimFloat.nan]
          = PrimFloat.nan.
Proof.
  cbv zeta. split; [vm_compute; reflexivity|].
  split; [vm_compute; reflexivity|].
  intros exp H. lazy in H. split.
  - lazy. rewrite !H. reflexivity.
  - vm_compute. reflexivity.
Qed.

(** ** The two forms on the same data *)

(** C1 (as amended).  For a vector [x] and well-formed neighbor and
    weight tables, [compute_gi_single] on [x] and [compute_gi_dataframe]
    on the one-row frame of [x], with the tables labelled in the order of
    its columns, both return.  At every sample they use the same offset
    and the same denominator (the batched form replaces a denominator 0
    by 1).  Their numerators are sums of the same products
    weight * x[neighbor] when the neighbors of the sample are distinct:
    the single form adds them in the order of the ranks, the batched form
    over the stored entries of the sparse row.  At a sample whose
    denominator is not 0 the two values are identical whenever the two
    sums are equal. *)
Theorem single_and_batched_same_terms (x : list f64) (neighbors : matrix Z)
    (weights : matrix f64) (n k : nat) (gene : label)
    (cells ranks : list label) :
  length x = n -> tables_ok n k neighbors weights ->
  NoDup cells -> length cells = n -> length ranks = k ->
  exists Gs Gb S,
    compute_gi_single x neighbors weights = Ok Gs
    /\ compute_gi_dataframe (Frame [gene] cells [x])
                            (Frame cells ranks (rows neighbors))
                            (Frame cells ranks (rows weights))
       = Ok (Frame [gene] cells [Gb])
    /\ _to_sparse neighbors weights = Ok S
    /\ length Gs = n /\ length Gb = n
    /\ forall i, (i < n)%nat ->
         let offset := mul (Spec.xbar x) (Spec.W weights i) in
         let denom := Spec.denom x weights i in
         let num_single := Spec.num x neighbors weights i in
         let num_batched :=
           F64.sum (map (fun p => mul (snd p) (nth (fst p) x NaN)) (csr_row S i)) in
         nth i Gs NaN = div (sub num_single offset) denom
         /\ nth i Gb NaN = div (sub num_batched offset) (zero_to_one denom)
         /\ (NoDup (nth i (rows neighbors) []) ->
             Permutation
               (map (fun p => mul (snd p) (nth (fst p) x NaN)) (csr_row S i))
               (map2 (fun w j => mul w (nth (Z.to_nat j) x NaN))
                     (nth i (rows weights) []) (nth i (rows neighbors) [])))
         /\ (denom <> Fin 0 -> num_batched = num_single ->
             nth i Gb NaN = nth i Gs NaN).
Proof.
  intros Hx Hok Hnd Hcells Hranks.
  destruct (compute_gi_single_nth _ _ _ _ _ Hx Hok) as (Gs & HGs & HlenGs & HnthGs).
  pose proof Hok as (Hsn & Hsw & Hwn & Hww & Hrange).
  unfold shape in Hsn, Hsw. injection Hsn as Hn1 Hn2. injection Hsw as Hw1 Hw2.
  set (N := Frame cells ranks (rows neighbors)).
  set (Wt := Frame cells ranks (rows weights)).
  assert (HvN : df_values N = neighbors) by (apply df_values_frame; congruence).
  assert (HvW : df_values Wt = weights) by (apply df_values_frame; congruence).
  assert (Hb := compute_gi_dataframe_ok (Frame [gene] cells [x]) N Wt N Wt n k).
  rewrite HvN, HvW in Hb. simpl columns in Hb. simpl index in Hb.
  specialize (Hb Hcells Hcells Hcells eq_refl).
  specialize (Hb (loc_own_labels N Hnd (eq_trans Hn1 (eq_sym Hcells)))).
  specialize (Hb (loc_own_labels Wt Hnd (eq_trans Hw1 (eq_sym Hcells)))).
  specialize (Hb Hok).
  simpl map in Hb.
  eexists Gs, _, _. split; [exact HGs|]. split; [exact Hb|].
  split; [exact (to_sparse_ok _ _ _ _ Hok)|].
  split; [exact HlenGs|].
  assert (HlenS : length (entries
            (Csr n (map (fun i => sum_duplicates (pairs_of neighbors weights i))
                        (seq 0 n)))) = n)
    by (simpl; now rewrite length_map, length_seq).
  split.
  - unfold batched_row, batched_num, batched_denom.
    rewrite !map2_length, !length_map, HlenS. unfold radical.
    rewrite map2_length. unfold sum_axis1, mmap. simpl rows.
    rewrite !length_map. unfold nrows in Hw1. lia.
  - intros i Hi. cbv zeta.
    rewrite csr_row_to_sparse by exact Hi.
    assert (HGb : nth i (batched_row
                     (Csr n (map (fun i => sum_duplicates
                                             (pairs_of neighbors weights i))
                                 (seq 0 n))) n weights x) NaN
                  = div (sub (F64.sum (map (fun p => mul (snd p) (nth (fst p) x NaN))
                                           (sum_duplicates
                                              (pairs_of neighbors weights i))))
                             (mul (Spec.xbar x) (Spec.W weights i)))
                        (zero_to_one (Spec.denom x weights i))).
    { rewrite (nth_batched_row _ _ _ n) by assumption.
      now rewrite nth_batched_num by exact Hi. }
    split; [exact (HnthGs i Hi)|]. split; [exact HGb|]. split.
    + intros Hnodup.
      assert (Hp : Permutation (sum_duplicates (pairs_of neighbors weights i))
                               (pairs_of neighbors weights i)).
      { apply sum_duplicates_distinct. unfold pairs_of.
        rewrite map_fst_combine_le
          by (rewrite length_map, !wf_matrix_nth by (auto; lia); congruence).
        apply NoDup_map_to_nat; [|exact Hnodup].
        unfold neighbors_in_range in Hrange. rewrite Forall_forall in Hrange.
        eapply Forall_impl; [|apply Hrange, nth_In; unfold nrows in Hn1; lia].
        simpl. intros j Hj. lia. }
      rewrite (Permutation_map _ Hp). unfold pairs_of.
      generalize (nth i (rows weights) []) as ws.
      generalize (nth i (rows neighbors) []) as nbs.
      induction nbs as [|j nbs IH]; intros [|w ws]; simpl; try constructor.
      apply IH.
    + intros Hden Hnum. rewrite HGb, (HnthGs i Hi). unfold Spec.gi.
      now rewrite zero_to_one_nonzero, Hnum by exact Hden.
Qed.

Lemma single_and_batched_same_terms_witness :
  let x := [Fin 1; Fin 2; Fin 4] in
  let neighbors := Matrix 2 [[1; 2]; [0; 2]; [0; 1]]%Z in
  let weights :=
    Matrix 2 [[Fin (1/2); Fin (1/2)]; [Fin (1/2); Fin (1/2)]; [Fin (1/4); Fin (3/4)]] in
  let cells := [LStr "a"; LStr "b"; LStr "c"] in
  let ranks := [LInt 0; LInt 1] in
  exists Gs Gb S,
    compute_gi_single x neighbors weights = Ok Gs
    /\ compute_gi_dataframe (Frame [LStr "g"] cells [x])
                            (Frame cells ranks (rows neighbors))
                            (Frame cells ranks (rows weights))
       = Ok (Frame [LStr "g"] cells [Gb])
    /\ _to_sparse neighbors weights = Ok S
    /\ length Gs = 3%nat /\ length Gb = 3%nat
    /\ forall i, (i < 3)%nat ->
         let offset := mul (Spec.xbar x) (Spec.W weights i) in
         let denom := Spec.denom x weights i in
         let num_single := Spec.num x neighbors weights i in
         let num_batched :=
           F64.sum (map (fun p => mul (snd p) (nth (fst p) x NaN)) (csr_row S i)) in
         nth i Gs NaN = div (sub num_single offset) denom
         /\ nth i Gb NaN = div (sub num_batched offset) (zero_to_one denom)
         /\ (NoDup (nth i (rows neighbors) []) ->
             Permutation
               (map (fun p => mul (snd p) (nth (fst p) x NaN)) (csr_row S i))
               (map2 (fun w j => mul w (nth (Z.to_nat j) x NaN))
                     (nth i (rows weights) []) (nth i (rows neighbors) [])))
         /\ (denom <> Fin 0 -> num_batched = num_single ->
             nth i Gb NaN = nth i Gs NaN).
Proof.
  intros x neighbors weights cells ranks.
  apply (single_and_batched_same_terms x neighbors weights 3 2 (LStr "g") cells ranks).
  - reflexivity.
  - repeat split; repeat constructor; lia.
  - repeat constructor; simpl; intuition discriminate.
  - reflexivity.
  - reflexivity.
Defined.

(** C1 (as stated) fails in float64: sample 0 lists neighbor 1 twice, with
    the weights 0.1 and 0.2.  The single form adds 0.1 * 10 and 0.2 * 10,
    the sparse matrix stores 0.1 + 0.2 (rounded) and multiplies it by 10;
    the denominator is not 0 and the two values differ in the last
    digits.  Every sum of the example has two terms or is exact, so the
    order in which a library adds the terms does not matter here. *)
Lemma single_and_batched_differ_in_float64 :
  let F := binary64 unused_exp in
  let fl a b := PrimFloat.div (B64.of_Z a) (B64.of_Z b) in
  let x := [B64.of_Z 1; B64.of_Z 10; B64.of_Z 4] in
  let neighbors := Matrix 2 [[1; 1]; [0; 2]; [0; 1]]%Z in
  let weights :=
    Matrix 2 [[fl 1 10; fl 2 10]; [fl 1 2; fl 1 2]; [fl 1 2; fl 1 2]]%Z in
  let cells := [LStr "a"; LStr "b"; LStr "c"] in
  let ranks := [LInt 0; LInt 1] in
  exists Gs Gb,
    Arith.compute_gi_single F x neighbors weights = Ok Gs
    /\ Arith.compute_gi_dataframe F (Frame [LStr "g"] cells [x])
         (Frame cells ranks (rows neighbors))
         (Frame cells ranks (rows weights))
       = Ok (Frame [LStr "g"] cells [Gb])
    /\ B64.is_zero (nth 0 (Arith.single_denom F x weights) PrimFloat.nan) = false
    /\ PrimFloat.eqb (nth 0 Gs PrimFloat.nan) (nth 0 Gb PrimFloat.nan) = false.
Proof.
  cbv zeta. eexists _, _.
  split; [vm_compute; reflexivity|].
  split; [vm_compute; reflexivity|].
  split; vm_compute; reflexivity.
Qed.

(** With the distinct neighbors 1, 2 of sample 0 in place of 1, 1 the two
    numerators add the same two products, and the two forms agree in
    float64 at every sample. *)
Lemma single_and_batched_agree_in_float64 :
  let F := binary64 unused_exp in
  let fl a b := PrimFloat.div (B64.of_Z a) (B64.of_Z b) in
  let x := [B64.of_Z 1; B64.of_Z 10; B64.of_Z 4] in
  let neighbors := Matrix 2 [[1; 2]; [0; 2]; [0; 1]]%Z in
  let weights :=
    Matrix 2 [[fl 1 10; fl 2 10]; [fl 1 2; fl 1 2]; [fl 1 2; fl 1 2]]%Z in
  let cells := [LStr "a"; LStr "b"; LStr "c"] in
  let ranks := [LInt 0; LInt 1] in
  exists G,
    Arith.compute_gi_single F x neighbors weights = Ok G
    /\ Arith.compute_gi_dataframe F (Frame [LStr "g"] cells [x])
         (Frame cells ranks (rows neighbors))
         (Frame cells ranks (rows weights))
       = Ok (Frame [LStr "g"] cells [G]).
Proof. cbv zeta. eexists. split; vm_compute; reflexivity. Qed.

(** ** A variable without deviation *)

Lemma div_one (a : f64) : div a (Fin 1) = a.
Proof.
  destruct a as [r| | |]; simpl; try reflexivity.
  - destruct (Req_dec_T 1 0); [exfalso; lra|]. f_equal. field.
  - destruct (Rlt_dec 1 0); [exfalso; lra|reflexivity].
  - destruct (Rlt_dec 1 0); [exfalso; lra|reflexivity].
Qed.

Lemma zero_to_one_zero : zero_to_one (Fin 0) = Fin 1.
Proof.
  unfold zero_to_one, is_zero, one. destruct (Req_dec_T 0 0); [reflexivity|lra].
Qed.

(** C4 (as amended).  Take a variable row of [x] whose standard deviation
    (ddof = 1) is computed as exactly 0, and a sample whose factor
    [sqrt((n * S1_i - W_i^2) / (n - 1))] is a finite number.  The
    denominator of the sample is 0; [compute_gi_dataframe] replaces it by
    1 and returns the numerator minus the offset for the sample;
    [compute_gi_single] on the same vector divides by the zero
    denominator, and its value for the sample is not finite. *)
Theorem zero_deviation_guard
    (x : DataFrame f64) (neighbors : DataFrame Z) (weights : DataFrame f64)
    (nb : DataFrame Z) (wt : DataFrame f64) (n k v i : nat) (xrow : list f64) :
  length (columns x) = n ->
  length (index neighbors) = n -> length (index weights) = n ->
  length (columns neighbors) = length (columns weights) ->
  loc neighbors (columns x) = Ok nb -> loc weights (columns x) = Ok wt ->
  tables_ok n k (df_values nb) (df_values wt) ->
  (v < length (values x))%nat -> nth v (values x) [] = xrow ->
  length xrow = n ->
  std_ddof1 xrow = Fin 0 ->
  (i < n)%nat ->
  finite (nth i (radical n (sum_axis1 (mmap sq (df_values wt)))
                           (sum_axis1 (df_values wt))) NaN) ->
  exists G Gs,
    compute_gi_dataframe x neighbors weights = Ok G
    /\ length (nth v (values G) []) = n
    /\ compute_gi_single xrow (df_values nb) (df_values wt) = Ok Gs
    /\ length Gs = n
    /\ nth i (single_denom xrow (df_values wt)) NaN = Fin 0
    /\ nth i (batched_denom n (df_values wt) xrow) NaN = Fin 1
    /\ nth i (nth v (values G) []) NaN
       = sub (F64.sum (map (fun p => mul (snd p) (nth (fst p) xrow NaN))
                           (sum_duplicates
                              (pairs_of (df_values nb) (df_values wt) i))))
             (mul (mean xrow) (nth i (sum_axis1 (df_values wt)) NaN))
    /\ ~ finite (nth i Gs NaN).
Proof.
  intros Hx Hn Hw Hc Hlocn Hlocw Hok Hv Hrow Hlen Hs Hi Hrad.
  pose proof Hok as (Hsn & Hsw & Hwn & Hww & Hrange).
  unfold shape in Hsn, Hsw. injection Hsn as Hn1 Hn2'. injection Hsw as Hw1 Hw2.
  destruct (compute_gi_single_nth xrow _ _ n k Hlen Hok)
    as (Gs & HGs & HlenGs & HnthGs).
  eexists _, Gs. split;
    [exact (compute_gi_dataframe_ok _ _ _ _ _ _ _ Hx Hn Hw Hc Hlocn Hlocw Hok)|].
  simpl values. rewrite (nth_map_in _ _ _ []) by exact Hv. rewrite Hrow.
  assert (HlenS : length (entries
            (Csr n (map (fun i => sum_duplicates
                                    (pairs_of (df_values nb) (df_values wt) i))
                        (seq 0 n)))) = n)
    by (simpl; now rewrite length_map, length_seq).
  assert (HW : length (sum_axis1 (df_values wt)) = n)
    by (unfold sum_axis1; now rewrite length_map).
  assert (HS1 : length (sum_axis1 (mmap sq (df_values wt))) = n)
    by (unfold sum_axis1, mmap; simpl; now rewrite !length_map).
  assert (Hden : nth i (single_denom xrow (df_values wt)) NaN = Fin 0).
  { unfold single_denom. rewrite Hs, Hw1.
    rewrite (nth_map_in _ _ _ NaN) by (rewrite radical_length; lia).
    destruct (nth i (radical n _ _) NaN) as [r| | |]; try contradiction.
    simpl. f_equal. ring. }
  assert (Hden' : Spec.denom xrow (df_values wt) i = Fin 0).
  { rewrite <- nth_single_denom by lia. exact Hden. }
  split; [|split; [exact HGs|split; [exact HlenGs|split; [exact Hden|]]]].
  - unfold batched_row, batched_num, batched_denom.
    rewrite !map2_length, !length_map, HlenS, radical_length by lia. lia.
  - split; [|split].
    + rewrite (nth_batched_denom _ _ n) by assumption.
      rewrite Hden'. apply zero_to_one_zero.
    + rewrite (nth_batched_row _ _ _ n) by assumption.
      rewrite nth_batched_num by exact Hi.
      rewrite Hden', zero_to_one_zero, div_one.
      unfold weighted_sum, Spec.xbar, Spec.W, mean, sum_axis1.
      rewrite (nth_map_in _ _ _ []) by (unfold nrows in Hw1; lia).
      reflexivity.
    + rewrite (HnthGs i Hi). unfold Spec.gi. rewrite Hden'.
      apply div_by_zero_not_finite.
Qed.

Lemma zero_deviation_guard_witness :
  let cells := [LStr "a"; LStr "b"; LStr "c"] in
  let ranks := [LInt 0; LInt 1] in
  let xrow := [Fin 7; Fin 7; Fin 7] in
  let x := Frame [LStr "g"] cells [xrow] in
  let neighbors := Frame cells ranks [[1; 2]; [0; 2]; [0; 1]]%Z in
  let weights :=
    Frame cells ranks
          [[Fin (1/2); Fin (1/2)]; [Fin (1/2); Fin (1/2)]; [Fin (1/4); Fin (3/4)]] in
  exists G Gs,
    compute_gi_dataframe x neighbors weights = Ok G
    /\ length (nth 0 (values G) []) = 3%nat
    /\ compute_gi_single xrow (df_values neighbors) (df_values weights) = Ok Gs
    /\ length Gs = 3%nat
    /\ nth 0 (single_denom xrow (df_values weights)) NaN = Fin 0
    /\ nth 0 (batched_denom 3 (df_values weights) xrow) NaN = Fin 1
    /\ nth 0 (nth 0 (values G) []) NaN
       = sub (F64.sum (map (fun p => mul (snd p) (nth (fst p) xrow NaN))
                           (sum_duplicates
                              (pairs_of (df_values neighbors)
                                        (df_values weights) 0))))
             (mul (mean xrow) (nth 0 (sum_axis1 (df_values weights)) NaN))
    /\ ~ finite (nth 0 Gs NaN).
Proof.
  intros cells ranks xrow x neighbors weights.
  apply (zero_deviation_guard x neighbors weights neighbors weights 3 2 0 0 xrow).
  - reflexivity.
  - reflexivity.
  - reflexivity.
  - reflexivity.
  - reflexivity.
  - reflexivity.
  - repeat split; repeat constructor; lia.
  - simpl. lia.
  - reflexivity.
  - reflexivity.
  - rewrite std_ddof1_s by (simpl; lia).
    apply (s_constant 7 3). lia.
  - lia.
  - unfold radical, sum_axis1, mmap, df_values, sq, sub. simpl.
    destruct (Req_dec_T 2 0); [exfalso; lra|]. simpl.
    match goal with
    | |- context [Rlt_dec ?t 0] => destruct (Rlt_dec t 0) as [Hneg|_]
    end; [exfalso; lra|exact I].
Defined.

(** C4 (as stated) fails in float64: the mean of three samples of value
    0.1 is rounded to 0.10000000000000002, so the standard deviation of
    the constant row is not 0, no denominator is 0, and both forms return
    the same finite value, which is not 0.  Every sum of the example has
    two terms or three equal terms, so the order in which a library adds
    the terms does not matter here. *)
Lemma constant_row_deviation_not_zero :
  let F := binary64 unused_exp in
  let c := PrimFloat.div (B64.of_Z 1) (B64.of_Z 10) in
  let half := PrimFloat.div (B64.of_Z 1) (B64.of_Z 2) in
  let xrow := [c; c; c] in
  let neighbors := Matrix 2 [[1; 2]; [0; 2]; [0; 1]]%Z in
  let weights := Matrix 2 [[half; half]; [half; half]; [half; half]] in
  let cells := [LStr "a"; LStr "b"; LStr "c"] in
  let ranks := [LInt 0; LInt 1] in
  exists g,
    B64.is_zero (Arith.std_ddof1 F xrow) = false
    /\ map B64.is_zero (Arith.single_denom F xrow weights) = [false; false; false]
    /\ Arith.compute_gi_dataframe F (Frame [LStr "g"] cells [xrow])
         (Frame cells ranks (rows neighbors))
         (Frame cells ranks (rows weights))
       = Ok (Frame [LStr "g"] cells [[g; g; g]])
    /\ Arith.compute_gi_single F xrow neighbors weights = Ok [g; g; g]
    /\ B64.is_zero g = false
    /\ PrimFloat.is_finite g = true.
Proof.
  cbv zeta. eexists.
  split; [vm_compute; reflexivity|].
  split; [vm_compute; reflexivity|].
  split; [vm_compute; reflexivity|].
  repeat split; vm_compute; reflexivity.
Qed.

(** The amended statement at work in float64: a row of three samples of
    value 7 has the computed deviation 0 and every denominator 0; the
    batched form returns numerator minus offset, which is 0 at two
    samples and -2^-51 at the sample with the weights 0.1 and 0.2; the
    single form returns NaN (0/0) and -inf there. *)
Lemma zero_deviation_guard_in_float64 :
  let F := binary64 unused_exp in
  let fl a b := PrimFloat.div (B64.of_Z a) (B64.of_Z b) in
  let xrow := [B64.of_Z 7; B64.of_Z 7; B64.of_Z 7] in
  let neighbors := Matrix 2 [[1; 2]; [0; 2]; [0; 1]]%Z in
  let weights :=
    Matrix 2 [[fl 1 2; fl 1 2]; [fl 1 10; fl 2 10]; [fl 1 10; fl 3 10]]%Z in
  let cells := [LStr "a"; LStr "b"; LStr "c"] in
  let ranks := [LInt 0; LInt 1] in
  Arith.std_ddof1 F xrow = PrimFloat.zero
  /\ Arith.single_denom F xrow weights
     = [PrimFloat.zero; PrimFloat.zero; PrimFloat.zero]
  /\ Arith.compute_gi_dataframe F (Frame [LStr "g"] cells [xrow])
       (Frame cells ranks (rows neighbors))
       (Frame cells ranks (rows weights))
     = Ok (Frame [LStr "g"] cells
             [[PrimFloat.zero;
               PrimFloat.opp (FloatOps.Z.ldexp PrimFloat.one (-51));
               PrimFloat.zero]])
  /\ Arith.compute_gi_single F xrow neighbors weights
     = Ok [PrimFloat.nan; PrimFloat.neg_infinity; PrimFloat.nan].
Proof. repeat split; vm_compute; reflexivity. Qed.

(** * Further properties of the code *)

(** ** Failures of [compute_weights] *)

(** X1.  Whatever the number type of the distances, [compute_weights]
    raises a division error exactly for a factor that is 0; for another
    factor, with q the float64 quotient [n_neighbors / factor]: a value
    error exactly when q is NaN, an overflow error exactly when q is
    infinite, an index error exactly when q is a number and ceil(q) - 1 is
    outside [-n_neighbors, n_neighbors); it returns in every other
    case. *)
Theorem compute_weights_float_failures (A : Arith.ops)
    (distances : matrix (Arith.num A)) (f : PrimFloat.float) :
  let n := Z.of_nat (ncols distances) in
  let q := PrimFloat.div (B64.of_Z n) f in
  (Arith.compute_weights A distances f = Raise ZeroDivisionError <->
   PrimFloat.eqb f PrimFloat.zero = true)
  /\ (Arith.compute_weights A distances f = Raise ValueError <->
      PrimFloat.eqb f PrimFloat.zero = false
      /\ B64.value q = None /\ PrimFloat.is_nan q = true)
  /\ (Arith.compute_weights A distances f = Raise OverflowError <->
      PrimFloat.eqb f PrimFloat.zero = false
      /\ B64.value q = None /\ PrimFloat.is_nan q = false)
  /\ (Arith.compute_weights A distances f = Raise IndexError <->
      PrimFloat.eqb f PrimFloat.zero = false
      /\ exists v, B64.value q = Some v /\ ~ (- n < Qceiling v <= n)%Z)
  /\ ((exists W, Arith.compute_weights A distances f = Ok W) <->
      PrimFloat.eqb f PrimFloat.zero = false
      /\ exists v, B64.value q = Some v /\ (- n < Qceiling v <= n)%Z).
Proof.
  cbv zeta. unfold Arith.compute_weights, Arith.radius_index, B64.is_zero, B64.ceil.
  set (q := PrimFloat.div (B64.of_Z (Z.of_nat (ncols distances))) f).
  pose proof (fun v => py_index_ok_iff (ncols distances) (Qceiling v - 1)) as Hidx.
  pose proof (fun v => py_index_raise (ncols distances) (Qceiling v - 1)) as Hraise.
  destruct (PrimFloat.eqb f PrimFloat.zero) eqn:Ef; simpl bind;
    [|destruct (B64.value q) as [v|] eqn:Ev; simpl bind;
      [specialize (Hidx v); specialize (Hraise v);
       destruct (py_index (ncols distances) (Qceiling v - 1)) as [c|e] eqn:Ec;
       simpl bind;
       [assert (Hin : (- Z.of_nat (ncols distances) < Qceiling v
                       <= Z.of_nat (ncols distances))%Z)
          by (assert (H : (- Z.of_nat (ncols distances) <= Qceiling v - 1
                           < Z.of_nat (ncols distances))%Z)
                by (apply Hidx; eauto); lia)
       |rewrite (Hraise e eq_refl);
        assert (Hout : ~ (- Z.of_nat (ncols distances) < Qceiling v
                          <= Z.of_nat (ncols distances))%Z)
          by (intros H;
              assert (H' : (- Z.of_nat (ncols distances) <= Qceiling v - 1
                            < Z.of_nat (ncols distances))%Z) by lia;
              apply Hidx in H' as [c Hc]; discriminate)]
      |destruct (PrimFloat.is_nan q) eqn:En; simpl bind]];
    repeat match goal with |- _ /\ _ => split end;
    (split; intros H;
     repeat match goal with
            | H : _ /\ _ |- _ => destruct H
            | H : exists _, _ |- _ => destruct H
            | H : Some _ = Some _ |- _ => injection H as H; subst
            end;
     try discriminate; try contradiction; try congruence;
     try (exfalso; lia); eauto 6).
Qed.

(** The failures on binary64 distances: a zero factor, a NaN factor, a
    factor so small that the quotient overflows, and a factor below 1. *)
Lemma compute_weights_float_failures_examples :
  let d := Matrix 1 [[PrimFloat.one]] in
  Arith.compute_weights (binary64 unused_exp) d PrimFloat.neg_zero
  = Raise ZeroDivisionError
  /\ Arith.compute_weights (binary64 unused_exp) d PrimFloat.nan
     = Raise ValueError
  /\ Arith.compute_weights (binary64 unused_exp) d
       (FloatOps.Z.ldexp PrimFloat.one (-1074)) = Raise OverflowError
  /\ Arith.compute_weights (binary64 unused_exp) d
       (PrimFloat.div PrimFloat.one PrimFloat.two) = Raise IndexError.
Proof. repeat split; vm_compute; reflexivity. Qed.

Lemma radius_index_no_columns (f : Q) : radius_index 0 f = 0%Z.
Proof.
  unfold radius_index. simpl.
  assert (H : (inject_Z 0 / f == inject_Z 0)%Q).
  { unfold Qdiv. now rewrite Qmult_0_l. }
  rewrite (Qceiling_comp _ _ H). apply Qceiling_Z.
Qed.

Lemma compute_weights_no_columns_raise (distances : matrix f64) (f : Q) :
  ncols distances = 0%nat ->
  compute_weights distances f =
  Raise (if Qeq_bool f 0 then ZeroDivisionError else IndexError).
Proof.
  intros Hn. unfold compute_weights. rewrite Hn, radius_index_no_columns.
  destruct (Qeq_bool f 0); reflexivity.
Qed.



(** ** Rows of the weight matrix *)

(** Row [i] of the result of [compute_weights]: the kernel of the row at
    its own bandwidth, divided by the guarded sum. *)
Lemma compute_weights_row (distances W : matrix f64) (f : Q) (i : nat) :
  compute_weights distances f = Ok W -> (i < nrows distances)%nat ->
  exists c,
    py_index (ncols distances) (radius_index (ncols distances) f - 1) = Ok c
    /\ ncols W = ncols distances
    /\ nth i (rows W) [] =
       let row := nth i (rows distances) [] in
       let raw := map (fun d => kernel d (nth c row NaN)) row in
       map (fun v => div v (zero_to_one (F64.sum raw))) raw.
Proof.
  intros HW Hi. unfold compute_weights in HW.
  destruct (Qeq_bool f 0); [discriminate|].
  destruct (py_index (ncols distances) (radius_index (ncols distances) f - 1))
    as [c|e] eqn:Ec; [|discriminate].
  simpl in HW. injection HW as <-. exists c. split; [reflexivity|].
  split; [reflexivity|]. simpl rows. cbv zeta.
  assert (Hlen : length (col_op kernel (rows distances)
                   (map (fun row => nth c row NaN) (rows distances)))
                 = length (rows distances))
    by (apply col_op_length; now rewrite length_map).
  rewrite nth_normalize by (rewrite Hlen; exact Hi).
  rewrite nth_col_op by (rewrite ?length_map; auto).
  now rewrite (nth_map_in _ _ _ []) by exact Hi.
Qed.

(** X3.  A row whose bandwidth is 0 (the samples up to the radius rank
    coincide with the sample) is returned as NaN throughout: the kernel
    of the bandwidth entry itself is 0/0, the row sum is NaN, and the
    guard for a zero sum does not apply. *)
Theorem compute_weights_zero_bandwidth
    (distances W : matrix f64) (f : Q) (i : nat) :
  wf_matrix distances -> (i < nrows distances)%nat ->
  compute_weights distances f = Ok W ->
  bandwidth distances f i = Ok (Fin 0) ->
  length (nth i (rows W) []) = ncols distances
  /\ Forall (eq NaN) (nth i (rows W) []).
Proof.
  intros Hwf Hi HW Hb.
  destruct (compute_weights_row _ _ _ _ HW Hi) as (c & Hc & _ & Hrow).
  cbv zeta in Hrow. unfold bandwidth in Hb. rewrite Hc in Hb. simpl in Hb.
  injection Hb as Hb. unfold entry in Hb. rewrite Hb in Hrow.
  pose proof (wf_matrix_nth _ _ Hwf Hi) as Hlen.
  pose proof (py_index_lt _ _ _ Hc) as Hlt.
  assert (Hnan : In NaN (map (fun d => kernel d (Fin 0))
                             (nth i (rows distances) []))).
  { apply in_map_iff. exists (Fin 0). split; [exact kernel_zero_bandwidth|].
    rewrite <- Hb. apply nth_In. lia. }
  rewrite (sum_In_NaN _ Hnan) in Hrow. rewrite Hrow. split.
  - now rewrite !length_map.
  - rewrite !Forall_map. apply Forall_forall. intros d _.
    unfold zero_to_one. simpl. now rewrite div_NaN_r.
Qed.

Lemma compute_weights_zero_bandwidth_witness :
  exists W,
    compute_weights (Matrix 2 [[Fin 0; Fin 2]]) 3 = Ok W
    /\ length (nth 0 (rows W) []) = 2%nat
    /\ Forall (eq NaN) (nth 0 (rows W) []).
Proof.
  eexists. split; [reflexivity|].
  apply (compute_weights_zero_bandwidth (Matrix 2 [[Fin 0; Fin 2]]) _ 3 0).
  - repeat constructor.
  - unfold nrows. simpl. lia.
  - reflexivity.
  - reflexivity.
Defined.

(** ** The sign of a real *)

Lemma by_sign_zero {A : Type} (r : R) (a b c : A) : r = 0 -> by_sign r a b c = b.
Proof.
  intros ->. unfold by_sign. destruct (Rlt_dec 0 0); [lra|].
  destruct (Rlt_dec 0 0); [lra|reflexivity].
Qed.

(** ** The canonical form of the sparse matrix *)

Lemma insert_add_keys_Forall (P : nat -> Prop) (j : nat) (v : f64)
    (row : list (nat * f64)) :
  P j -> Forall P (map fst row) -> Forall P (map fst (insert_add j v row)).
Proof.
  intros Hj. induction row as [|[c u] row IH]; intros Hrow; simpl.
  - now constructor.
  - inversion Hrow as [|? ? Hc Hrest]; subst.
    destruct (Nat.ltb j c); [simpl; auto|].
    destruct (Nat.eqb j c); simpl; auto.
Qed.

Lemma insert_add_sorted (j : nat) (v : f64) (row : list (nat * f64)) :
  StronglySorted lt (map fst row) ->
  StronglySorted lt (map fst (insert_add j v row)).
Proof.
  induction row as [|[c u] row IH]; intros Hs; simpl.
  - repeat constructor.
  - inversion Hs as [|? ? Hs' Hall]; subst.
    destruct (Nat.ltb_spec j c) as [Hlt|Hge].
    + simpl. constructor; [exact Hs|]. constructor; [exact Hlt|].
      eapply Forall_impl; [|exact Hall]. simpl. intros a Ha. lia.
    + destruct (Nat.eqb_spec j c) as [->|Hne]; [exact Hs|].
      simpl. constructor; [now apply IH|].
      apply insert_add_keys_Forall; [lia|exact Hall].
Qed.

Lemma sum_duplicates_sorted (P : nat -> Prop) (l : list (nat * f64)) :
  Forall P (map fst l) ->
  StronglySorted lt (map fst (sum_duplicates l))
  /\ Forall P (map fst (sum_duplicates l)).
Proof.
  unfold sum_duplicates.
  enough (H : forall acc,
             Forall P (map fst l) ->
             StronglySorted lt (map fst acc) -> Forall P (map fst acc) ->
             StronglySorted lt
               (map fst (fold_left (fun acc p => insert_add (fst p) (snd p) acc) l acc))
             /\ Forall P
                  (map fst (fold_left (fun acc p => insert_add (fst p) (snd p) acc) l acc))).
  { intros Hl. apply H; [exact Hl| constructor | constructor]. }
  induction l as [|[k v] l IH]; intros acc Hl Hs Hp; simpl.
  - auto.
  - inversion Hl as [|? ? Hk Hl']; subst. apply IH; [exact Hl'| |].
    + now apply insert_add_sorted.
    + now apply insert_add_keys_Forall.
Qed.

Lemma existsb_false_Forall {A : Type} (f : A -> bool) (l : list A) :
  existsb f l = false -> Forall (fun a => f a = false) l.
Proof.
  induction l as [|a l IH]; simpl; intros H; [constructor|].
  apply orb_false_iff in H as [Ha Hl]. constructor; auto.
Qed.

(** What a successful call of the constructor has checked and built. *)
Lemma csr_matrix_ok (vals : list f64) (row_idxs : list nat) (col_idxs : list Z)
    (N : nat) (S : csr) :
  csr_matrix vals row_idxs col_idxs N = Ok S ->
  length row_idxs = length col_idxs /\ length col_idxs = length vals
  /\ Forall (fun j => (0 <= j < Z.of_nat N)%Z) col_idxs
  /\ S = Csr N (map (fun i =>
                       sum_duplicates
                         (map snd (filter (fun t => Nat.eqb (fst t) i)
                                     (combine row_idxs
                                        (combine (map Z.to_nat col_idxs) vals)))))
                    (seq 0 N)).
Proof.
  unfold csr_matrix.
  destruct (Nat.eqb (length row_idxs) (length col_idxs)
            && Nat.eqb (length col_idxs) (length vals)) eqn:El;
    simpl negb; cbv iota; [|discriminate].
  apply andb_true_iff in El as [E1 E2].
  apply Nat.eqb_eq in E1. apply Nat.eqb_eq in E2.
  destruct (existsb _ row_idxs || existsb _ col_idxs) eqn:Ec; [discriminate|].
  apply orb_false_iff in Ec as [_ Ec]. apply existsb_false_Forall in Ec.
  intros [= <-]. repeat split; try assumption.
  eapply Forall_impl; [|exact Ec]. simpl. intros j Hj.
  apply orb_false_iff in Hj as [H1 H2].
  apply Z.ltb_ge in H1. apply Z.leb_gt in H2. lia.
Qed.

(** X7.  The matrix that [_to_sparse] returns is in canonical CSR form:
    it is square of the size of the neighbor table, with one list of
    entries per sample, and in every row the stored columns are strictly
    increasing (so no column is stored twice) and inside the matrix. *)
Theorem to_sparse_canonical (neighbors : matrix Z) (weights : matrix f64)
    (S : csr) :
  _to_sparse neighbors weights = Ok S ->
  dim S = nrows neighbors
  /\ length (entries S) = nrows neighbors
  /\ Forall (fun row =>
               StronglySorted lt (map fst row)
               /\ Forall (fun j => (j < dim S)%nat) (map fst row))
            (entries S).
Proof.
  unfold _to_sparse. intros H.
  apply csr_matrix_ok in H as (_ & _ & Hrange & ->). simpl.
  split; [reflexivity|]. split; [now rewrite length_map, length_seq|].
  rewrite Forall_map. apply Forall_forall. intros i _.
  apply sum_duplicates_sorted.
  rewrite map_map. rewrite Forall_map. apply Forall_forall.
  intros [r [j v]] Hin. simpl.
  apply filter_In in Hin as [Hin _].
  apply in_combine_r in Hin. apply in_combine_l in Hin.
  apply in_map_iff in Hin as (z & <- & Hz).
  rewrite Forall_forall in Hrange. specialize (Hrange z Hz). lia.
Qed.

Lemma to_sparse_canonical_witness :
  exists S,
    _to_sparse (Matrix 2 [[1; 2]; [2; 2]; [0; 1]]%Z)
               (Matrix 2 [[Fin 1; Fin 2]; [Fin 3; Fin 4]; [Fin 5; Fin 6]]) = Ok S
    /\ dim S = 3%nat
    /\ length (entries S) = 3%nat
    /\ Forall (fun row =>
                 StronglySorted lt (map fst row)
                 /\ Forall (fun j => (j < dim S)%nat) (map fst row))
              (entries S).
Proof.
  eexists. split; [reflexivity|].
  apply (to_sparse_canonical (Matrix 2 [[1; 2]; [2; 2]; [0; 1]]%Z)
           (Matrix 2 [[Fin 1; Fin 2]; [Fin 3; Fin 4]; [Fin 5; Fin 6]])).
  reflexivity.
Defined.

Lemma to_sparse_raise (neighbors : matrix Z) (weights : matrix f64) (e : error) :
  _to_sparse neighbors weights = Raise e -> e = ValueError.
Proof. unfold _to_sparse. apply csr_matrix_raise. Qed.

(** A successful call has found every neighbor inside the matrix. *)
Lemma to_sparse_ok_inv (neighbors : matrix Z) (weights : matrix f64) (S : csr) :
  _to_sparse neighbors weights = Ok S ->
  neighbors_in_range (nrows neighbors) (rows neighbors).
Proof.
  unfold _to_sparse. intros HS.
  apply csr_matrix_ok in HS as (_ & _ & Hrange & _).
  unfold neighbors_in_range. apply Forall_forall. intros row Hrow.
  apply Forall_forall. intros j Hj. rewrite Forall_forall in Hrange.
  apply Hrange, in_concat. eauto.
Qed.

(** X8.  For tables of the same shape, [_to_sparse] returns exactly when
    every neighbor is a position of the matrix, [0 <= j < n]; any other
    entry, a negative one included, makes it raise a value error. *)
Theorem to_sparse_index_check (neighbors : matrix Z) (weights : matrix f64)
    (n k : nat) :
  shape neighbors = (n, k) -> shape weights = (n, k) ->
  wf_matrix neighbors -> wf_matrix weights ->
  ((exists S, _to_sparse neighbors weights = Ok S) <->
   neighbors_in_range n (rows neighbors))
  /\ (_to_sparse neighbors weights = Raise ValueError <->
      ~ neighbors_in_range n (rows neighbors)).
Proof.
  intros Hsn Hsw Hwn Hww.
  assert (Hok : (exists S, _to_sparse neighbors weights = Ok S) ->
                neighbors_in_range n (rows neighbors)).
  { intros [S HS]. apply to_sparse_ok_inv in HS.
    unfold shape in Hsn. injection Hsn as Hn _. now rewrite Hn in HS. }
  assert (Hin : neighbors_in_range n (rows neighbors) ->
                exists S, _to_sparse neighbors weights = Ok S).
  { intros Hr. eexists. apply (to_sparse_ok _ _ n k). repeat split; assumption. }
  split; [split; assumption|].
  split.
  - intros Hraise Hr. destruct (Hin Hr) as [S HS]. congruence.
  - intros Hnot. destruct (_to_sparse neighbors weights) as [S|e] eqn:E.
    + exfalso. apply Hnot, Hok. eauto.
    + apply to_sparse_raise in E. now subst.
Qed.

Lemma to_sparse_index_check_witness :
  let neighbors := Matrix 1 [[1]; [-1]]%Z in
  let weights := Matrix 1 [[Fin 1]; [Fin 1]] in
  ((exists S, _to_sparse neighbors weights = Ok S) <->
   neighbors_in_range 2 (rows neighbors))
  /\ (_to_sparse neighbors weights = Raise ValueError <->
      ~ neighbors_in_range 2 (rows neighbors)).
Proof.
  intros neighbors weights.
  apply (to_sparse_index_check neighbors weights 2 1);
    try reflexivity; repeat constructor.
Defined.

(** ** Index errors of the single-variable form *)

Lemma mapM_raise_intro {A B : Type} (f : A -> result B) (l : list A)
    (a : A) (e : error) :
  (forall a' e', f a' = Raise e' -> e' = e) ->
  In a l -> f a = Raise e -> mapM f l = Raise e.
Proof.
  intros Honly. induction l as [|a0 l IH]; intros Hin Ha; [contradiction|].
  simpl. destruct (f a0) as [b|e0] eqn:E0.
  - destruct Hin as [->|Hin]; [congruence|].
    simpl. now rewrite (IH Hin Ha).
  - simpl. f_equal. now apply (Honly a0).
Qed.

Lemma mapM_ok_Forall {A B : Type} (f : A -> result B) (l : list A) (bs : list B) :
  mapM f l = Ok bs -> Forall (fun a => exists b, f a = Ok b) l.
Proof.
  revert bs. induction l as [|a l IH]; simpl; intros bs H; [constructor|].
  apply bind_ok in H as (b & Hb & H). apply bind_ok in H as (bs' & Hbs & _).
  constructor; eauto.
Qed.

Lemma take_raise (x : list f64) (idx : list Z) (e : error) :
  take x idx = Raise e -> e = IndexError.
Proof.
  unfold take. intros H. apply mapM_raise in H as (j & _ & H).
  apply bind_raise in H as [H|(c & _ & H)]; [|discriminate].
  now apply py_index_raise in H.
Qed.

Lemma take_not_python_index (x : list f64) (idx : list Z) (j : Z) :
  In j idx -> ~ python_index (length x) j -> take x idx = Raise IndexError.
Proof.
  intros Hin Hj. unfold take.
  apply (mapM_raise_intro _ _ j); [| exact Hin |].
  - intros j' e' H. apply bind_raise in H as [H|(c & _ & H)]; [|discriminate].
    now apply py_index_raise in H.
  - destruct (py_index (length x) j) as [c|e] eqn:E.
    + exfalso. apply Hj. apply py_index_ok_iff. eauto.
    + apply py_index_raise in E as ->. reflexivity.
Qed.

Lemma mat_op_raise f m1 m2 e : mat_op f m1 m2 = Raise e -> e = ValueError.
Proof.
  unfold mat_op. destruct (broadcast_len _ _); [|congruence].
  destruct (broadcast_len _ _); congruence.
Qed.

Lemma vec_op_raise f v1 v2 e : vec_op f v1 v2 = Raise e -> e = ValueError.
Proof. unfold vec_op. destruct (broadcast_len _ _); congruence. Qed.

(** X9.  [compute_gi_single] raises an index error exactly when some
    entry of the neighbor table is not a Python index into [x], that is,
    lies outside [-len(x), len(x)); negative entries down to -len(x) are
    accepted. *)
Theorem compute_gi_single_index_error (x : list f64) (neighbors : matrix Z)
    (weights : matrix f64) :
  compute_gi_single x neighbors weights = Raise IndexError <->
  exists row j, In row (rows neighbors) /\ In j row
                /\ ~ python_index (length x) j.
Proof.
  unfold compute_gi_single. split.
  - intros H. apply bind_raise in H as [H|(m & _ & H)].
    + unfold take2 in H. apply bind_raise in H as [H|(rs & _ & H)]; [|discriminate].
      apply mapM_raise in H as (row & Hrow & H).
      unfold take in H. apply mapM_raise in H as (j & Hj & H).
      exists row, j. split; [exact Hrow|]. split; [exact Hj|].
      intros Hp. apply py_index_ok_iff in Hp as [c Hc].
      rewrite Hc in H. discriminate.
    + exfalso. apply bind_raise in H as [H|(p & _ & H)];
        [apply mat_op_raise in H; discriminate|].
      apply bind_raise in H as [H|(d & _ & H)];
        apply vec_op_raise in H; discriminate.
  - intros (row & j & Hrow & Hj & Hnot).
    assert (H : take2 x neighbors = Raise IndexError).
    { unfold take2.
      rewrite (mapM_raise_intro (take x) (rows neighbors) row IndexError);
        [reflexivity| | exact Hrow |].
      - intros r e. apply take_raise.
      - now apply (take_not_python_index x row j). }
    now rewrite H.
Qed.

(** ** Negative neighbor entries *)

Lemma mapM_total {A B : Type} (f : A -> result B) (l : list A) :
  Forall (fun a => exists b, f a = Ok b) l -> exists bs, mapM f l = Ok bs.
Proof.
  induction 1 as [|a l (b & Hb) _ (bs & Hbs)]; simpl; [eauto|].
  rewrite Hb, Hbs. simpl. eauto.
Qed.

Lemma take_python_index (x : list f64) (idx : list Z) :
  Forall (python_index (length x)) idx ->
  exists ys, take x idx = Ok ys /\ length ys = length idx.
Proof.
  intros H. unfold take.
  destruct (mapM_total (fun i => k <- py_index (length x) i ;; Ok (nth k x NaN)) idx)
    as (ys & Hys).
  - eapply Forall_impl; [|exact H]. intros j Hj.
    apply py_index_ok_iff in Hj as (c & Hc). rewrite Hc. simpl. eauto.
  - exists ys. split; [exact Hys|]. now apply mapM_ok_length in Hys.
Qed.

Lemma mapM_ok_Forall2 {A B : Type} (f : A -> result B) (P : A -> B -> Prop)
    (l : list A) (bs : list B) :
  (forall a b, In a l -> f a = Ok b -> P a b) ->
  mapM f l = Ok bs -> Forall2 P l bs.
Proof.
  revert bs. induction l as [|a l IH]; simpl; intros bs HP H.
  - injection H as <-. constructor.
  - apply bind_ok in H as (b & Hb & H). apply bind_ok in H as (bs' & Hbs & H).
    injection H as <-. constructor; [apply HP; auto|]. apply IH; auto.
Qed.

(** With entries that Python accepts as indices, the lookup [x[neighbors]]
    returns an array of the shape of the neighbor table. *)
Lemma take2_python_index (x : list f64) (neighbors : matrix Z) (k : nat) :
  Forall (Forall (python_index (length x))) (rows neighbors) ->
  ncols neighbors = k -> wf_matrix neighbors ->
  exists m, take2 x neighbors = Ok m
            /\ shape m = shape neighbors /\ wf_matrix m.
Proof.
  intros Hidx Hk Hwf. unfold take2.
  destruct (mapM_total (take x) (rows neighbors)) as (rs & Hrs).
  - eapply Forall_impl; [|exact Hidx]. intros row Hrow.
    destruct (take_python_index x row Hrow) as (ys & Hys & _). eauto.
  - rewrite Hrs. simpl. eexists. split; [reflexivity|].
    pose proof (mapM_ok_length _ _ _ Hrs) as Hlen.
    split; [unfold shape, nrows; simpl; now rewrite Hlen|].
    unfold wf_matrix. simpl.
    assert (H2 : Forall2 (fun row ys => length ys = length row) (rows neighbors) rs).
    { apply (mapM_ok_Forall2 (take x)); [|exact Hrs].
      intros row ys _ Hys. unfold take in Hys. now apply mapM_ok_length in Hys. }
    unfold wf_matrix in Hwf. clear Hrs Hlen Hidx.
    induction H2 as [|row ys rows' rs' Hlen _ IH]; [constructor|].
    inversion Hwf; subst. constructor; [congruence|auto].
Qed.

(** The single-variable form returns whenever the lookup does and the
    tables have one shape. *)
Lemma compute_gi_single_returns (x : list f64) (neighbors : matrix Z)
    (weights : matrix f64) (n k : nat) :
  shape neighbors = (n, k) -> shape weights = (n, k) ->
  wf_matrix neighbors -> wf_matrix weights ->
  Forall (Forall (python_index (length x))) (rows neighbors) ->
  exists G, compute_gi_single x neighbors weights = Ok G /\ length G = n.
Proof.
  intros Hsn Hsw Hwn Hww Hidx.
  destruct (take2_python_index x neighbors k Hidx) as (m & Hm & Hsm & Hwm);
    [unfold shape in Hsn; congruence | exact Hwn |].
  unfold compute_gi_single. rewrite Hm. simpl bind.
  rewrite mat_op_same_shape by (auto; congruence). simpl bind.
  unfold shape, nrows in *. injection Hsn as Hn1 Hn2. injection Hsw as Hw1 Hw2.
  injection Hsm as Hm1 Hm2.
  assert (L1 : length (sum_axis1 (Matrix (ncols m)
                          (map2 (map2 mul) (rows m) (rows weights)))) = n)
    by (unfold sum_axis1; simpl; rewrite length_map, map2_length; lia).
  assert (L2 : length (map (mul (mean x)) (sum_axis1 weights)) = n)
    by (unfold sum_axis1; now rewrite !length_map).
  rewrite vec_op_same_length by congruence. simpl bind.
  assert (L3 : length (map (mul (std_ddof1 x))
                         (radical (length (rows weights))
                            (sum_axis1 (mmap sq weights)) (sum_axis1 weights))) = n).
  { rewrite length_map, radical_length; unfold sum_axis1, mmap; simpl;
      now rewrite ?length_map. }
  change (nrows weights) with (length (rows weights)).
  rewrite vec_op_same_length by (rewrite map2_length; lia).
  eexists. split; [reflexivity|]. rewrite !map2_length. lia.
Qed.

(** X10.  The two forms treat a negative neighbor entry differently.  On
    tables of one shape whose entries all lie in [-n, n), one of them
    negative, [compute_gi_single] returns (the entry counts from the end
    of [x]), while [compute_gi_dataframe] on the one-row frame of [x]
    with the same tables raises a value error from the construction of
    the sparse matrix. *)
Theorem negative_neighbor_single_returns_batched_raises
    (x : list f64) (neighbors : matrix Z) (weights : matrix f64) (n k : nat)
    (gene : label) (cells ranks : list label) :
  length x = n ->
  shape neighbors = (n, k) -> shape weights = (n, k) ->
  wf_matrix neighbors -> wf_matrix weights ->
  Forall (Forall (python_index n)) (rows neighbors) ->
  (exists row j, In row (rows neighbors) /\ In j row /\ (j < 0)%Z) ->
  NoDup cells -> length cells = n -> length ranks = k ->
  (exists G, compute_gi_single x neighbors weights = Ok G /\ length G = n)
  /\ compute_gi_dataframe (Frame [gene] cells [x])
                          (Frame cells ranks (rows neighbors))
                          (Frame cells ranks (rows weights))
     = Raise ValueError.
Proof.
  intros Hx Hsn Hsw Hwn Hww Hidx (row & j & Hrow & Hj & Hneg) Hnd Hcells Hranks.
  split.
  - apply (compute_gi_single_returns x neighbors weights n k); auto.
    now rewrite Hx.
  - pose proof Hsn as Hsn'. pose proof Hsw as Hsw'.
    unfold shape in Hsn', Hsw'. injection Hsn' as Hn1 Hn2.
    injection Hsw' as Hw1 Hw2.
    set (N := Frame cells ranks (rows neighbors)).
    set (Wt := Frame cells ranks (rows weights)).
    assert (HvN : df_values N = neighbors) by (apply df_values_frame; congruence).
    assert (HvW : df_values Wt = weights) by (apply df_values_frame; congruence).
    unfold compute_gi_dataframe, df_shape. simpl fst. simpl snd.
    rewrite Hcells, Hranks, !Nat.eqb_refl. simpl negb. cbv iota.
    assert (HlocN : loc N cells = Ok N)
      by exact (loc_own_labels N Hnd (eq_trans Hn1 (eq_sym Hcells))).
    assert (HlocW : loc Wt cells = Ok Wt)
      by exact (loc_own_labels Wt Hnd (eq_trans Hw1 (eq_sym Hcells))).
    cbn [columns]. rewrite HlocN. simpl bind. rewrite HlocW. simpl bind.
    rewrite HvN, HvW.
    destruct (_to_sparse neighbors weights) as [S|e] eqn:E.
    + exfalso. apply to_sparse_ok_inv in E.
      unfold neighbors_in_range in E. rewrite Forall_forall in E.
      specialize (E row Hrow). rewrite Forall_forall in E.
      specialize (E j Hj). lia.
    + apply to_sparse_raise in E. rewrite E. reflexivity.
Qed.

Lemma negative_neighbor_single_returns_batched_raises_witness :
  let x := [Fin 1; Fin 2] in
  let neighbors := Matrix 1 [[1]; [-1]]%Z in
  let weights := Matrix 1 [[Fin 1]; [Fin 1]] in
  let cells := [LStr "a"; LStr "b"] in
  (exists G, compute_gi_single x neighbors weights = Ok G /\ length G = 2%nat)
  /\ compute_gi_dataframe (Frame [LStr "g"] cells [x])
                          (Frame cells [LInt 0] (rows neighbors))
                          (Frame cells [LInt 0] (rows weights))
     = Raise ValueError.
Proof.
  intros x neighbors weights cells.
  apply (negative_neighbor_single_returns_batched_raises
           x neighbors weights 2 1 (LStr "g") cells [LInt 0]);
    try reflexivity.
  - repeat constructor.
  - repeat constructor.
  - repeat constructor; unfold python_index; simpl; lia.
  - exists [(-1)%Z], (-1)%Z. simpl. repeat split; auto; lia.
  - repeat constructor; simpl; intuition discriminate.
Defined.

(** ** Missing labels *)

Lemma rows_of_nil_iff {A : Type} (df : DataFrame A) (l : label) :
  length (values df) = length (index df) ->
  rows_of df l = [] <-> ~ In l (index df).
Proof.
  intros Hlen. unfold rows_of. split.
  - intros Hnil Hin.
    apply In_nth with (d := LInt 0) in Hin as (i & Hi & Hl).
    assert (H : In (nth i (index df) (LInt 0), nth i (values df) [])
                   (filter (fun p => label_eqb (fst p) l)
                           (combine (index df) (values df)))).
    { apply filter_In. split.
      - rewrite <- combine_nth by lia. apply nth_In.
        rewrite length_combine. lia.
      - simpl. now apply label_eqb_eq. }
    rewrite Hnil in H. contradiction.
  - intros Hnot. apply filter_label_absent.
    now rewrite map_fst_combine_le by lia.
Qed.

Lemma loc_key_error_iff {A : Type} (df : DataFrame A) (labels : list label) :
  loc df labels = Raise KeyError <->
  exists l, In l labels /\ rows_of df l = [].
Proof.
  unfold loc. split.
  - intros H. apply bind_raise in H as [H|(h & _ & H)]; [|discriminate].
    apply mapM_raise in H as (l & Hl & H). exists l. split; [exact Hl|].
    now destruct (rows_of df l).
  - intros (l & Hl & Hnil).
    rewrite (mapM_raise_intro _ labels l KeyError); [reflexivity| |exact Hl|].
    + intros l' e'. destruct (rows_of df l'); congruence.
    + now rewrite Hnil.
Qed.

(** X11.  With the three shape assertions passed, [compute_gi_dataframe]
    raises a key error exactly when some column label of [x] is not a row
    label of the neighbor table or of the weight table. *)
Theorem compute_gi_dataframe_key_error
    (x : DataFrame f64) (neighbors : DataFrame Z) (weights : DataFrame f64) :
  length (values neighbors) = length (index neighbors) ->
  length (values weights) = length (index weights) ->
  (compute_gi_dataframe x neighbors weights = Raise KeyError <->
   (snd (df_shape x) = fst (df_shape neighbors)
    /\ snd (df_shape x) = fst (df_shape weights)
    /\ snd (df_shape neighbors) = snd (df_shape weights))
   /\ exists l, In l (columns x)
                /\ (~ In l (index neighbors) \/ ~ In l (index weights))).
Proof.
  intros Hn Hw. unfold compute_gi_dataframe.
  destruct (Nat.eqb (snd (df_shape x)) (fst (df_shape neighbors))) eqn:E1;
    [apply Nat.eqb_eq in E1
    |apply Nat.eqb_neq in E1; simpl; split; [discriminate|tauto]].
  destruct (Nat.eqb (snd (df_shape x)) (fst (df_shape weights))) eqn:E2;
    [apply Nat.eqb_eq in E2
    |apply Nat.eqb_neq in E2; simpl; split; [discriminate|tauto]].
  destruct (Nat.eqb (snd (df_shape neighbors)) (snd (df_shape weights))) eqn:E3;
    [apply Nat.eqb_eq in E3
    |apply Nat.eqb_neq in E3; simpl; split; [discriminate|tauto]].
  cbn [negb].
  pose proof (loc_key_error_iff neighbors (columns x)) as Kn.
  pose proof (loc_key_error_iff weights (columns x)) as Kw.
  split.
  - intros H. split; [auto|].
    apply bind_raise in H as [H|(nb & Hnb & H)].
    + apply Kn in H as (l & Hl & Hnil). exists l. split; [exact Hl|].
      left. now apply rows_of_nil_iff.
    + apply bind_raise in H as [H|(wt & _ & H)].
      * apply Kw in H as (l & Hl & Hnil). exists l. split; [exact Hl|].
        right. now apply rows_of_nil_iff.
      * exfalso.
        apply bind_raise in H as [H | (S & _ & H)];
          [apply to_sparse_raise in H; discriminate|].
        apply bind_raise in H as [H | (G & _ & H)];
          [apply csr_dot_T_raise in H; discriminate|].
        apply bind_raise in H as [H | (G1 & _ & H)];
          [apply mat_iop_raise in H; discriminate|].
        apply bind_raise in H as [H | (G2 & _ & H)];
          [apply mat_iop_raise in H; discriminate|].
        discriminate.
  - intros (_ & l & Hl & Hmiss).
    destruct (loc neighbors (columns x)) as [nb|e] eqn:En.
    + simpl bind.
      assert (Hmw : ~ In l (index weights)).
      { destruct Hmiss as [Hmn|Hmw]; [|exact Hmw]. exfalso.
        assert (Hk : @Ok (DataFrame Z) nb = Raise KeyError).
        { apply Kn. exists l. split; [exact Hl|]. now apply rows_of_nil_iff. }
        discriminate Hk. }
      assert (Hk : loc weights (columns x) = Raise KeyError).
      { apply Kw. exists l. split; [exact Hl|]. now apply rows_of_nil_iff. }
      now rewrite Hk.
    + apply loc_raise in En as ->. reflexivity.
Qed.

Lemma compute_gi_dataframe_key_error_witness :
  let x := Frame [LStr "g"] [LStr "a"; LStr "z"] [[Fin 1; Fin 2]] in
  let neighbors := Frame [LStr "a"; LStr "b"] [LInt 0] [[1%Z]; [0%Z]] in
  let weights := Frame [LStr "a"; LStr "b"] [LInt 0] [[Fin 1]; [Fin 1]] in
  compute_gi_dataframe x neighbors weights = Raise KeyError <->
  (snd (df_shape x) = fst (df_shape neighbors)
   /\ snd (df_shape x) = fst (df_shape weights)
   /\ snd (df_shape neighbors) = snd (df_shape weights))
  /\ exists l, In l (columns x)
               /\ (~ In l (index neighbors) \/ ~ In l (index weights)).
Proof.
  intros x neighbors weights.
  apply (compute_gi_dataframe_key_error x neighbors weights); reflexivity.
Defined.

(** ** The shape of the batched result *)

Lemma map2_Forall {A B C : Type} (f : A -> B -> C) (P : C -> Prop)
    (l1 : list A) (l2 : list B) :
  (forall a b, In a l1 -> In b l2 -> P (f a b)) -> Forall P (map2 f l1 l2).
Proof.
  revert l2. induction l1 as [|a l1 IH]; intros [|b l2] H; simpl;
    try constructor.
  - apply H; now left.
  - apply IH. intros a' b' Ha Hb. apply H; now right.
Qed.

Lemma bzip_Forall {A B C : Type} (f : A -> B -> C) (P : C -> Prop)
    (l1 : list A) (l2 : list B) :
  (forall a b, In a l1 -> In b l2 -> P (f a b)) -> Forall P (bzip f l1 l2).
Proof.
  intros H. unfold bzip. destruct (Nat.eqb (length l1) (length l2)).
  - now apply map2_Forall.
  - destruct l1 as [|a [|a' l1]].
    + destruct l2 as [|b [|b' l2]]; constructor.
    + rewrite Forall_map. apply Forall_forall. intros b Hb.
      apply H; [now left|exact Hb].
    + destruct l2 as [|b [|b' l2]]; [constructor| |constructor].
      apply Forall_forall. intros c Hc.
      apply (in_map_iff (fun a0 => f a0 b)) in Hc as (a0 & <- & Ha0).
      apply H; [exact Ha0|now left].
Qed.

Lemma bzip_length_left {A B C : Type} (f : A -> B -> C)
    (l1 : list A) (l2 : list B) :
  length l2 = length l1 \/ length l2 = 1%nat ->
  length (bzip f l1 l2) = length l1.
Proof.
  intros H. unfold bzip.
  destruct (Nat.eqb_spec (length l1) (length l2)) as [E|E].
  - rewrite map2_length. lia.
  - destruct H as [H|H]; [lia|].
    destruct l2 as [|b [|b' l2]]; simpl in H; try discriminate.
    destruct l1 as [|a [|a' l1]]; simpl in *; try reflexivity; try lia.
    now rewrite length_map.
Qed.

(** An in-place operation keeps the shape of its left operand. *)
Lemma mat_iop_shape (f : f64 -> f64 -> f64) (m1 m2 m : matrix f64) :
  wf_matrix m1 -> wf_matrix m2 -> mat_iop f m1 m2 = Ok m ->
  shape m = shape m1 /\ wf_matrix m.
Proof.
  intros H1 H2. unfold mat_iop.
  destruct ((Nat.eqb (nrows m2) (nrows m1) || Nat.eqb (nrows m2) 1)
            && (Nat.eqb (ncols m2) (ncols m1) || Nat.eqb (ncols m2) 1)) eqn:E;
    [|discriminate].
  apply andb_true_iff in E as [Er Ec].
  apply orb_true_iff in Er. apply orb_true_iff in Ec.
  rewrite !Nat.eqb_eq in Er, Ec. intros [= <-]. split.
  - unfold shape, nrows in *. simpl. f_equal. now apply bzip_length_left.
  - unfold wf_matrix in *. simpl. apply bzip_Forall. intros r1 r2 Hr1 Hr2.
    rewrite Forall_forall in H1, H2.
    rewrite bzip_length_left; [now apply H1|].
    rewrite (H1 r1 Hr1), (H2 r2 Hr2). exact Ec.
Qed.

(** X12.  Whenever [compute_gi_dataframe] returns, the result carries the
    row and column labels of [x] and has its shape: one row per variable,
    one entry per sample. *)
Theorem compute_gi_dataframe_shape
    (x : DataFrame f64) (neighbors : DataFrame Z) (weights : DataFrame f64)
    (G : DataFrame f64) :
  compute_gi_dataframe x neighbors weights = Ok G ->
  index G = index x /\ columns G = columns x
  /\ length (values G) = length (values x)
  /\ Forall (fun row => length row = length (columns x)) (values G).
Proof.
  unfold compute_gi_dataframe.
  destruct (negb _); [discriminate|]. destruct (negb _); [discriminate|].
  destruct (negb _); [discriminate|].
  intros H.
  apply bind_ok in H as (nb & _ & H). apply bind_ok in H as (wt & _ & H).
  apply bind_ok in H as (S & HS & H). apply bind_ok in H as (G0 & HG0 & H).
  apply bind_ok in H as (G1 & HG1 & H). apply bind_ok in H as (G2 & HG2 & H).
  injection H as <-. simpl.
  split; [reflexivity|]. split; [reflexivity|].
  unfold _to_sparse in HS. apply csr_matrix_ok in HS as (_ & _ & _ & ->).
  unfold csr_dot_T in HG0. simpl dim in HG0. simpl entries in HG0.
  destruct (Nat.eqb_spec (nrows (df_values nb)) (ncols (df_values x)))
    as [Edim|_]; [|discriminate].
  injection HG0 as <-.
  set (G0 := Matrix _ _) in HG1.
  assert (Hwf0 : wf_matrix G0).
  { unfold wf_matrix, G0. simpl. rewrite Forall_map. apply Forall_forall.
    intros xrow _. now rewrite !length_map, length_seq. }
  assert (Hs0 : shape G0 = (length (values x), length (columns x))).
  { unfold shape, nrows, G0. simpl. rewrite length_map. f_equal. exact Edim. }
  apply mat_iop_shape in HG1 as [Hs1 Hwf1]; [|exact Hwf0|].
  - apply mat_iop_shape in HG2 as [Hs2 Hwf2]; [|exact Hwf1|].
    + rewrite Hs1, Hs0 in Hs2. unfold shape, nrows in Hs2.
      injection Hs2 as Hr Hc. split; [exact Hr|].
      unfold wf_matrix in Hwf2. now rewrite Hc in Hwf2.
    + unfold wf_matrix. simpl. rewrite !Forall_map. apply Forall_forall.
      intros sg _. rewrite !length_map. unfold radical.
      rewrite map2_length. unfold sum_axis1, mmap. simpl rows.
      rewrite !length_map. lia.
  - unfold wf_matrix. simpl. rewrite !Forall_map. apply Forall_forall.
    intros xb _. now rewrite length_map.
Qed.

Lemma compute_gi_dataframe_shape_witness :
  let cells := [LStr "a"; LStr "b"; LStr "c"] in
  let ranks := [LInt 0; LInt 1] in
  let x := Frame [LStr "g"; LStr "h"] cells
                 [[Fin 1; Fin 2; Fin 4]; [Fin 7; Fin 7; Fin 7]] in
  let neighbors := Frame cells ranks [[1; 2]; [0; 2]; [0; 1]]%Z in
  let weights :=
    Frame cells ranks
          [[Fin (1/2); Fin (1/2)]; [Fin (1/2); Fin (1/2)]; [Fin (1/4); Fin (3/4)]] in
  exists G,
    compute_gi_dataframe x neighbors weights = Ok G
    /\ index G = index x /\ columns G = columns x
    /\ length (values G) = length (values x)
    /\ Forall (fun row => length row = length (columns x)) (values G).
Proof.
  intros cells ranks x neighbors weights.
  eexists. split; [reflexivity|].
  apply (compute_gi_dataframe_shape x neighbors weights). reflexivity.
Defined.

(** ** The sign of the statistic *)

Lemma abs_neg (g : f64) : F64.abs (neg g) = F64.abs g.
Proof. destruct g; simpl; try reflexivity. now rewrite Rabs_Ropp. Qed.

(** X16.  The p-value is two-sided: changing the sign of every statistic
    leaves the result of [gi_to_pval] unchanged, for any survival
    function. *)
Theorem gi_to_pval_sign_symmetric (sf : R -> R) (G_i : DataFrame f64) :
  gi_to_pval sf (Frame (index G_i) (columns G_i) (map (map neg) (values G_i)))
  = gi_to_pval sf G_i.
Proof.
  unfold gi_to_pval. simpl. f_equal. rewrite map_map. apply map_ext.
  intros row. rewrite map_map. apply map_ext. intros g. now rewrite abs_neg.
Qed.

(** ** The neighbor graph *)

Lemma compute_weights_shape (distances W : matrix f64) (f : Q) :
  wf_matrix distances -> compute_weights distances f = Ok W ->
  shape W = shape distances /\ wf_matrix W.
Proof.
  intros Hwf HW.
  assert (Hn : nrows W = nrows distances).
  { unfold compute_weights in HW. destruct (Qeq_bool f 0); [discriminate|].
    destruct (py_index _ _); [|discriminate]. simpl in HW. injection HW as <-.
    unfold nrows. simpl.
    now rewrite normalize_length, col_op_length by now rewrite length_map. }
  assert (Hc : ncols W = ncols distances).
  { unfold compute_weights in HW. destruct (Qeq_bool f 0); [discriminate|].
    destruct (py_index _ _); [|discriminate]. simpl in HW. now injection HW as <-. }
  split; [unfold shape; congruence|].
  unfold wf_matrix. apply Forall_forall. intros row Hin.
  apply In_nth with (d := []) in Hin as (i & Hi & <-).
  fold (nrows W) in Hi. rewrite Hn in Hi.
  destruct (compute_weights_row _ _ _ _ HW Hi) as (c & _ & _ & ->).
  cbv zeta. rewrite !length_map, Hc. now apply wf_matrix_nth.
Qed.

Lemma drop_first_col_shape {A : Type} (m : matrix A) (n k : nat) :
  shape m = (n, S k) -> wf_matrix m ->
  shape (drop_first_col m) = (n, k) /\ wf_matrix (drop_first_col m).
Proof.
  unfold shape, nrows, drop_first_col, wf_matrix. simpl.
  intros [= Hn Hk] Hwf. rewrite length_map, Hk. split.
  - f_equal; [exact Hn|lia].
  - rewrite Forall_map. eapply Forall_impl; [|exact Hwf].
    intros [|a row]; simpl; intros H; lia.
Qed.

Lemma drop_first_col_in_range (m : matrix Z) (n : nat) :
  neighbors_in_range n (rows m) ->
  neighbors_in_range n (rows (drop_first_col m)).
Proof.
  unfold neighbors_in_range, drop_first_col. simpl. intros H.
  rewrite Forall_map. eapply Forall_impl; [|exact H].
  intros [|a row] Hrow; simpl; [constructor|now inversion Hrow].
Qed.

Lemma range_index_length (n : nat) : length (range_index n) = n.
Proof. unfold range_index. now rewrite length_map, length_seq. Qed.

Lemma make_frame_ok {A : Type} (m : matrix A) (idx cols : list label) :
  length idx = nrows m -> length cols = ncols m ->
  make_frame m idx cols = Ok (Frame idx cols (rows m)).
Proof. intros H1 H2. unfold make_frame. now rewrite H1, H2, !Nat.eqb_refl. Qed.

Section NeighborGraph.

Variable kneighbors : matrix f64 -> nat -> result (matrix f64 * matrix Z).
Hypothesis kneighbors_ok : kneighbors_contract kneighbors.

(** The result of [neighbors_and_weights], from an answer of the library
    and the weights of its distances. *)
Lemma neighbors_and_weights_ok (data : DataFrame f64) (n_neighbors : nat)
    (f : Q) (dist : matrix f64) (ind : matrix Z) (W : matrix f64) :
  length (values data) = length (index data) ->
  kneighbors (df_values data) (n_neighbors + 1) = Ok (dist, ind) ->
  compute_weights (drop_first_col dist) f = Ok W ->
  neighbors_and_weights kneighbors data n_neighbors f
  = Ok (Frame (index data) (range_index n_neighbors) (rows (drop_first_col ind)),
        Frame (index data) (range_index n_neighbors) (rows W))
  /\ tables_ok (length (index data)) n_neighbors
               (Matrix n_neighbors (rows (drop_first_col ind)))
               (Matrix n_neighbors (rows W)).
Proof.
  intros Hwf Hkn HW.
  destruct (kneighbors_ok _ _ _ _ Hkn) as (Hsd & Hsi & Hwd & Hwi & Hrange).
  replace (n_neighbors + 1)%nat with (S n_neighbors) in Hsd, Hsi by lia.
  change (nrows (df_values data)) with (length (values data)) in *.
  rewrite Hwf in *.
  destruct (drop_first_col_shape _ _ _ Hsd Hwd) as [Hsd' Hwd'].
  destruct (drop_first_col_shape _ _ _ Hsi Hwi) as [Hsi' Hwi'].
  destruct (compute_weights_shape _ _ _ Hwd' HW) as [HsW HwW].
  rewrite Hsd' in HsW.
  pose proof Hsi' as Hsi''. pose proof HsW as HsW'.
  unfold shape in Hsi'', HsW'. injection Hsi'' as Hi1 Hi2. injection HsW' as HW1 HW2.
  split.
  - unfold neighbors_and_weights. rewrite Hkn. simpl bind. cbn [fst snd].
    rewrite HW. simpl bind.
    rewrite make_frame_ok;
      [|congruence|rewrite range_index_length; reflexivity].
    simpl bind. cbn [index columns].
    rewrite make_frame_ok;
      [|congruence|rewrite range_index_length; simpl in Hi2; congruence].
    simpl bind. simpl in Hi2. now rewrite Hi2.
  - unfold tables_ok, shape, nrows, wf_matrix. cbn [rows ncols].
    unfold nrows in Hi1, HW1. rewrite Hi1, HW1.
    repeat split.
    + unfold wf_matrix in Hwi'.
      change (ncols (drop_first_col ind)) with (ncols ind - 1)%nat in Hwi'.
      now rewrite Hi2 in Hwi'.
    + unfold wf_matrix in HwW. now rewrite HW2 in HwW.
    + now apply drop_first_col_in_range.
Qed.

(** X17.  When the library answers and its contract holds, at least one
    neighbor is asked for and the neighborhood factor is at least 1,
    [neighbors_and_weights] returns two tables that carry the row labels
    of [data] and the column labels 0 .. n_neighbors - 1, and that form a
    valid pair: one row per sample, [n_neighbors] entries per row, every
    neighbor the position of a sample. *)
Theorem neighbors_and_weights_tables (data : DataFrame f64) (n_neighbors : nat)
    (f : Q) (dist : matrix f64) (ind : matrix Z) :
  length (values data) = length (index data) ->
  kneighbors (df_values data) (n_neighbors + 1) = Ok (dist, ind) ->
  (1 <= n_neighbors)%nat -> (1 <= f)%Q ->
  exists N W,
    neighbors_and_weights kneighbors data n_neighbors f = Ok (N, W)
    /\ index N = index data /\ index W = index data
    /\ columns N = range_index n_neighbors /\ columns W = columns N
    /\ values N = map (@tl Z) (rows ind)
    /\ tables_ok (length (index data)) n_neighbors (df_values N) (df_values W).
Proof.
  intros Hwf Hkn Hn Hf.
  destruct (kneighbors_ok _ _ _ _ Hkn) as (Hsd & _).
  assert (Hc : ncols (drop_first_col dist) = n_neighbors).
  { unfold shape in Hsd. injection Hsd as _ Hk. simpl. lia. }
  assert (HW : exists W, compute_weights (drop_first_col dist) f = Ok W).
  { pose proof (radius_index_bounds _ _ Hn Hf) as Hr.
    eexists. apply compute_weights_ok.
    - apply Qpos_neq_bool. eapply Qlt_le_trans; [|exact Hf]. reflexivity.
    - rewrite Hc. apply py_index_in_range. lia. }
  destruct HW as (W & HW).
  destruct (neighbors_and_weights_ok data n_neighbors f dist ind W Hwf Hkn HW)
    as [Hres Hok].
  do 2 eexists. split; [exact Hres|]. simpl.
  repeat (split; [reflexivity|]).
  unfold df_values. simpl. now rewrite range_index_length.
Qed.

(** X18.  With no neighbor asked for, [neighbors_and_weights] never
    returns: once the self column is dropped the distance array has no
    column left, and [compute_weights] raises on it. *)
Theorem neighbors_and_weights_no_neighbors (data : DataFrame f64) (f : Q) :
  exists e, neighbors_and_weights kneighbors data 0 f = Raise e.
Proof.
  unfold neighbors_and_weights.
  destruct (kneighbors (df_values data) (0 + 1)) as [[dist ind]|e] eqn:Hkn;
    [|simpl; eauto].
  simpl bind. cbn [fst snd].
  destruct (kneighbors_ok _ _ _ _ Hkn) as (Hsd & _).
  rewrite compute_weights_no_columns_raise.
  - simpl. eauto.
  - unfold shape in Hsd. injection Hsd as _ Hk. simpl. rewrite Hk. reflexivity.
Qed.

(** X19.  The tables of [neighbors_and_weights] are accepted by
    [compute_gi_dataframe]: for uniquely labelled samples and a variable
    matrix whose columns are the samples of [data], the statistic is
    computed without an exception and has the labels and the shape of
    the variable matrix. *)
Theorem neighbors_and_weights_then_compute_gi
    (data x : DataFrame f64) (n_neighbors : nat) (f : Q)
    (dist : matrix f64) (ind : matrix Z) :
  length (values data) = length (index data) ->
  kneighbors (df_values data) (n_neighbors + 1) = Ok (dist, ind) ->
  (1 <= n_neighbors)%nat -> (1 <= f)%Q ->
  NoDup (index data) -> columns x = index data ->
  exists N W G,
    neighbors_and_weights kneighbors data n_neighbors f = Ok (N, W)
    /\ compute_gi_dataframe x N W = Ok G
    /\ index G = index x /\ columns G = columns x
    /\ length (values G) = length (values x).
Proof.
  intros Hwf Hkn Hn Hf Hnd Hcols.
  destruct (kneighbors_ok _ _ _ _ Hkn) as (Hsd & _).
  assert (Hc : ncols (drop_first_col dist) = n_neighbors).
  { unfold shape in Hsd. injection Hsd as _ Hk. simpl. lia. }
  assert (HW : exists W, compute_weights (drop_first_col dist) f = Ok W).
  { pose proof (radius_index_bounds _ _ Hn Hf) as Hr.
    eexists. apply compute_weights_ok.
    - apply Qpos_neq_bool. eapply Qlt_le_trans; [|exact Hf]. reflexivity.
    - rewrite Hc. apply py_index_in_range. lia. }
  destruct HW as (W & HW).
  destruct (neighbors_and_weights_ok data n_neighbors f dist ind W Hwf Hkn HW)
    as [Hres Hok].
  set (N := Frame (index data) (range_index n_neighbors)
                  (rows (drop_first_col ind))) in *.
  set (Wt := Frame (index data) (range_index n_neighbors) (rows W)) in *.
  assert (HvN : df_values N = Matrix n_neighbors (rows (drop_first_col ind)))
    by (unfold df_values, N; simpl; now rewrite range_index_length).
  assert (HvW : df_values Wt = Matrix n_neighbors (rows W))
    by (unfold df_values, Wt; simpl; now rewrite range_index_length).
  pose proof Hok as (Hsn & Hsw & _).
  unfold shape, nrows in Hsn, Hsw. simpl in Hsn, Hsw.
  injection Hsn as Hn1. injection Hsw as Hw1.
  assert (HG := compute_gi_dataframe_ok x N Wt N Wt (length (index data))
                  n_neighbors).
  rewrite HvN, HvW, Hcols in HG.
  specialize (HG eq_refl eq_refl eq_refl eq_refl).
  specialize (HG (loc_own_labels N Hnd Hn1) (loc_own_labels Wt Hnd Hw1) Hok).
  exists N, Wt. eexists. split; [exact Hres|]. split; [exact HG|].
  simpl. rewrite Hcols, length_map. auto.
Qed.

End NeighborGraph.

Lemma sample_kneighbors_contract : kneighbors_contract sample_kneighbors.
Proof.
  intros coords k dist ind. unfold sample_kneighbors.
  destruct (Nat.leb 1 k && Nat.leb k (nrows coords)) eqn:E; [|discriminate].
  apply andb_true_iff in E as [E1 E2].
  apply Nat.leb_le in E1. apply Nat.leb_le in E2.
  intros [= <- <-]. unfold shape, nrows, wf_matrix, neighbors_in_range. simpl.
  rewrite !length_map, !length_seq. repeat split.
  - rewrite Forall_map. apply Forall_forall. intros i _.
    now rewrite length_map, length_seq.
  - rewrite Forall_map. apply Forall_forall. intros i _.
    now rewrite length_map, length_seq.
  - rewrite Forall_map. apply Forall_forall. intros i _.
    rewrite Forall_map. apply Forall_forall. intros r _.
    pose proof (Nat.mod_upper_bound (i + r) (length (rows coords))).
    unfold nrows in *. lia.
Qed.

Lemma neighbors_and_weights_tables_witness :
  let data := Frame [LStr "a"; LStr "b"; LStr "c"] [LStr "x"]
                    [[Fin 0]; [Fin 1]; [Fin 2]] in
  exists N W,
    neighbors_and_weights sample_kneighbors data 2 3 = Ok (N, W)
    /\ index N = index data /\ index W = index data
    /\ columns N = range_index 2 /\ columns W = columns N
    /\ values N = map (@tl Z) [[0; 1; 2]; [1; 2; 0]; [2; 0; 1]]%Z
    /\ tables_ok (length (index data)) 2 (df_values N) (df_values W).
Proof.
  intros data.
  apply (neighbors_and_weights_tables sample_kneighbors
           sample_kneighbors_contract data 2 3
           (Matrix 3 (map (fun _ => map (fun r => Fin (INR r)) (seq 0 3)) (seq 0 3)))
           (Matrix 3 [[0; 1; 2]; [1; 2; 0]; [2; 0; 1]]%Z)).
  - reflexivity.
  - reflexivity.
  - lia.
  - discriminate.
Defined.

Lemma neighbors_and_weights_no_neighbors_witness :
  exists e,
    neighbors_and_weights sample_kneighbors
      (Frame [LStr "a"; LStr "b"] [LStr "x"] [[Fin 0]; [Fin 1]]) 0 3 = Raise e.
Proof.
  exact (neighbors_and_weights_no_neighbors sample_kneighbors
           sample_kneighbors_contract
           (Frame [LStr "a"; LStr "b"] [LStr "x"] [[Fin 0]; [Fin 1]]) 3).
Defined.

Lemma neighbors_and_weights_then_compute_gi_witness :
  let cells := [LStr "a"; LStr "b"; LStr "c"] in
  let data := Frame cells [LStr "x"] [[Fin 0]; [Fin 1]; [Fin 2]] in
  let x := Frame [LStr "g"] cells [[Fin 1; Fin 2; Fin 4]] in
  exists N W G,
    neighbors_and_weights sample_kneighbors data 2 3 = Ok (N, W)
    /\ compute_gi_dataframe x N W = Ok G
    /\ index G = index x /\ columns G = columns x
    /\ length (values G) = length (values x).
Proof.
  intros cells data x.
  apply (neighbors_and_weights_then_compute_gi sample_kneighbors
           sample_kneighbors_contract data x 2 3
           (Matrix 3 (map (fun _ => map (fun r => Fin (INR r)) (seq 0 3)) (seq 0 3)))
           (Matrix 3 [[0; 1; 2]; [1; 2; 0]; [2; 0; 1]]%Z)).
  - reflexivity.
  - reflexivity.
  - lia.
  - discriminate.
  - repeat constructor; simpl; intuition discriminate.
  - reflexivity.
Defined.

(** ** One sample *)

Lemma s_one_sample (a : f64) : Spec.s [a] = NaN.
Proof.
  destruct a as [r| | |].
  - unfold Spec.s, Spec.xbar, sub, sq, of_nat, of_Z. simpl.
    destruct (Req_dec_T 1 0) as [H|_]; [exfalso; lra|]. simpl.
    destruct (Req_dec_T (1 + - (1)) 0) as [_|H]; [|exfalso; lra].
    rewrite by_sign_zero; [reflexivity|]. field.
  - apply s_not_finite. constructor. simpl. tauto.
  - apply s_not_finite. constructor. simpl. tauto.
  - apply s_not_finite. constructor. simpl. tauto.
Qed.

(** X22.  With a single sample the statistic is undefined: the standard
    deviation with denominator n - 1 = 0 is NaN, and
    [compute_gi_single] returns NaN for that sample, whatever the
    tables hold. *)
Theorem compute_gi_single_one_sample (a : f64) (neighbors : matrix Z)
    (weights : matrix f64) (k : nat) :
  tables_ok 1 k neighbors weights ->
  compute_gi_single [a] neighbors weights = Ok [NaN].
Proof.
  intros Hok.
  destruct (compute_gi_single_nth [a] _ _ 1 k eq_refl Hok) as (G & -> & Hlen & Hnth).
  f_equal. destruct G as [|g [|g' G]]; simpl in Hlen; try discriminate.
  f_equal. specialize (Hnth 0%nat ltac:(lia)). simpl in Hnth. rewrite Hnth.
  unfold Spec.gi, Spec.denom. rewrite s_one_sample. simpl mul.
  apply div_NaN_r.
Qed.

Lemma compute_gi_single_one_sample_witness :
  compute_gi_single [Fin 5] (Matrix 1 [[0%Z]]) (Matrix 1 [[Fin 1]]) = Ok [NaN].
Proof.
  apply (compute_gi_single_one_sample (Fin 5) (Matrix 1 [[0%Z]])
           (Matrix 1 [[Fin 1]]) 1).
  repeat split; repeat constructor; lia.
Defined.
